(** * ClusterGraph: graph synchronizer, force configuration and drag controller

    A shallow embedding of [components/ClusterGraph.tsx] (with the input type
    of [types.ts]).  JavaScript numbers are IEEE-754 binary64 values and are
    modelled by Rocq's primitive floats; the [Map] built for the continuity
    merge is a [gmap]; the mutable refs of the component are the fields of
    one record that every handler receives and returns; what a handler does
    to the outside world (engine calls, highlight signals, callbacks) is the
    list of effects it returns. *)

From Stdlib Require Import PrimFloat Ascii.
From stdpp Require Import base option strings list gmap pretty.

Set Warnings "-inexact-float,-register-all,-clear-no-such-hyp".

Open Scope string_scope.
Open Scope list_scope.

(** ** types.ts *)

Module Types.

Inductive NodeKind := cluster | note.

(** [interface ClusterNode]: optional members are options. *)
Inductive ClusterNode := mkClusterNode {
  id : string;
  name : string;
  type : NodeKind;
  children : option (list ClusterNode);
  noteId : option string;
  description : option string
}.

End Types.

(** [interface Note]. *)
Module Note.

Record t := mk {
  id : string;
  title : string;
  content : string;
  tags : list string;
  createdAt : string;
  folder : string
}.

End Note.

(** ** App.tsx *)

Module App.

(** [enum SearchMode], [interface SearchResult] and
    [interface ProcessingStatus] of types.ts. *)
Inductive SearchMode := EXACT | SEMANTIC | HYBRID.

Record SearchResult := mkSearchResult {
  note : Note.t;
  score : float;
  reason : option string;
  highlight : option string
}.

Record ProcessingStatus := mkStatus {
  isProcessing : bool;
  message : string
}.

Inductive ViewMode := editor | graph.

#[global] Instance ViewMode_eq_dec : EqDecision ViewMode.
Proof. solve_decision. Defined.

(** The [useState] cells of [App]. *)
Record State := mkState {
  notes : list Note.t;
  activeNoteId : option string;
  searchQuery : string;
  searchMode : SearchMode;
  searchResults : list SearchResult;
  status : ProcessingStatus;
  viewMode : ViewMode;
  isOnline : bool;
  isUploadModalOpen : bool;
  clusters : list Types.ClusterNode;
  hasClustered : bool
}.

Definition idle : ProcessingStatus := mkStatus false "".

(** The state of the first render, over the initial notes. *)
Definition initialState (initialNotes : list Note.t) (online : bool) : State :=
  mkState initialNotes None "" EXACT [] idle editor online false [] false.

(** [notes.find(n => n.id === activeNoteId)]. *)
Definition activeNote (s : State) : option Note.t :=
  List.find (λ n, bool_decide (Some (Note.id n) = activeNoteId s)) (notes s).

(** [if (hasClustered) { setHasClustered(false); setClusters([]); }], on a
    flag that the handler read when it was created. *)
Definition invalidate (flag : bool) (s : State) : State :=
  if flag then
    mkState (notes s) (activeNoteId s) (searchQuery s) (searchMode s) (searchResults s)
            (status s) (viewMode s) (isOnline s) (isUploadModalOpen s) [] false
  else s.

Definition setNotes (f : list Note.t → list Note.t) (s : State) : State :=
  mkState (f (notes s)) (activeNoteId s) (searchQuery s) (searchMode s) (searchResults s)
          (status s) (viewMode s) (isOnline s) (isUploadModalOpen s) (clusters s)
          (hasClustered s).

Definition setActiveNoteId (a : option string) (s : State) : State :=
  mkState (notes s) a (searchQuery s) (searchMode s) (searchResults s)
          (status s) (viewMode s) (isOnline s) (isUploadModalOpen s) (clusters s)
          (hasClustered s).

Definition setViewMode (v : ViewMode) (s : State) : State :=
  mkState (notes s) (activeNoteId s) (searchQuery s) (searchMode s) (searchResults s)
          (status s) v (isOnline s) (isUploadModalOpen s) (clusters s) (hasClustered s).

Definition setStatus (st : ProcessingStatus) (s : State) : State :=
  mkState (notes s) (activeNoteId s) (searchQuery s) (searchMode s) (searchResults s)
          st (viewMode s) (isOnline s) (isUploadModalOpen s) (clusters s) (hasClustered s).

Definition setIsUploadModalOpen (b : bool) (s : State) : State :=
  mkState (notes s) (activeNoteId s) (searchQuery s) (searchMode s) (searchResults s)
          (status s) (viewMode s) (isOnline s) b (clusters s) (hasClustered s).

Definition setSearch (q : string) (rs : list SearchResult) (s : State) : State :=
  mkState (notes s) (activeNoteId s) q (searchMode s) rs
          (status s) (viewMode s) (isOnline s) (isUploadModalOpen s) (clusters s)
          (hasClustered s).

Definition setClustering (cs : list Types.ClusterNode) (b : bool) (s : State) : State :=
  mkState (notes s) (activeNoteId s) (searchQuery s) (searchMode s) (searchResults s)
          (status s) (viewMode s) (isOnline s) (isUploadModalOpen s) cs b.

(** The line feed of a string literal. *)
Definition nl : string := String "010"%char "".

(** [s.split(c)[0]]: the part of [s] before the first [c]. *)
Fixpoint beforeChar (c : ascii) (s : string) : string :=
  match s with
  | EmptyString => EmptyString
  | String a rest => if Ascii.eqb a c then EmptyString else String a (beforeChar c rest)
  end.

(** [`new-${Date.now()}`] and the other members of the note that
    [handleCreateNote] makes; [now] is what [Date.now()] returns and [iso]
    what [new Date().toISOString()] returns. *)
Definition newNote (now : Z) (iso : string) : Note.t :=
  Note.mk ("new-" +:+ pretty now) "Untitled Note"
          ("# New Note" +:+ nl +:+ nl +:+ "Start typing here...") []
          (beforeChar "T"%char iso) "/drafts".

(** The handlers run on the state of the render that created them; for a
    handler without [await] that is the current state. *)
Definition handleCreateNote (now : Z) (iso : string) (s : State) : State :=
  let n := newNote now iso in
  invalidate (hasClustered s)
    (setViewMode editor (setActiveNoteId (Some (Note.id n)) (setNotes (cons n) s))).

(** The two members that [handleUpdateNote] can write. *)
Inductive Field := title | content.

(** [{ ...note, [field]: value }]. *)
Definition setField (field : Field) (value : string) (n : Note.t) : Note.t :=
  match field with
  | title => Note.mk (Note.id n) value (Note.content n) (Note.tags n)
                     (Note.createdAt n) (Note.folder n)
  | content => Note.mk (Note.id n) (Note.title n) value (Note.tags n)
                       (Note.createdAt n) (Note.folder n)
  end.

Definition handleUpdateNote (id : string) (field : Field) (value : string) (s : State) : State :=
  setNotes (map (λ n, if bool_decide (Note.id n = id) then setField field value n else n)) s.

(** [confirmed] is the answer of [window.confirm]. *)
Definition handleDeleteNote (confirmed : bool) (id : string) (s : State) : State :=
  if confirmed then
    let s1 := setNotes (List.filter (λ n, bool_decide (Note.id n ≠ id))) s in
    let s2 := if bool_decide (activeNoteId s = Some id) then setActiveNoteId None s1 else s1 in
    invalidate (hasClustered s) s2
  else s.

(** [onNoteSelect] of the graph, [onSelect] of the file tree and the click
    on a row of the flat list. *)
Definition selectNote (id : string) (s : State) : State :=
  setViewMode editor (setActiveNoteId (Some id) s).

(** The click on a search result. *)
Definition selectResult (r : SearchResult) (s : State) : State :=
  setViewMode editor (setSearch "" [] (setActiveNoteId (Some (Note.id (note r))) s)).

(** [handleCluster], from the answer of the clustering service on:
    [Some] the clusters it returned, [None] when the call threw. *)
Definition handleClusterDone (answer : option (list Types.ClusterNode)) (s : State) : State :=
  match answer with
  | Some clusterData => setStatus idle (setViewMode graph (setClustering clusterData true s))
  | None => setStatus idle s
  end.

(** What [renderContent] returns. *)
Inductive Content :=
  | Spinner (message : string)
  | Graph (clusters : list Types.ClusterNode)
  | Editor (n : Note.t)
  | Placeholder.

Definition renderContent (s : State) : Content :=
  if (isProcessing (status s) && bool_decide (viewMode s = graph)
      && Nat.eqb (length (clusters s)) 0)%bool
  then Spinner (message (status s))
  else if (bool_decide (viewMode s = graph) && negb (Nat.eqb (length (clusters s)) 0))%bool
  then Graph (clusters s)
  else match activeNote s with
       | Some n => Editor n
       | None => Placeholder
       end.

(** *** processFiles *)

(** A file of the list: its name and what [file.text()] resolves to, [None]
    when it rejects. *)
Record File := mkFile {
  name : string;
  text : option string
}.

Definition endsWith (suffix s : string) : bool :=
  (Nat.leb (String.length suffix) (String.length s)
   && String.eqb (String.substring (String.length s - String.length suffix)
                            (String.length suffix) s) suffix)%bool.

Definition dropLast (k : nat) (s : string) : string :=
  String.substring 0 (String.length s - k) s.

(** [name.replace(/\.(md|txt)$/, '')]. *)
Definition stripExtension (s : string) : string :=
  if endsWith ".md" s then dropLast 3 s
  else if endsWith ".txt" s then dropLast 4 s
  else s.

Definition accepted (f : File) : bool :=
  (endsWith ".md" (name f) || endsWith ".txt" (name f))%bool.

(** The title of an imported note; [trim] is [String.prototype.trim]. *)
Definition titleOf (trim : string → string) (fileName txt : string) : string :=
  let firstLine := trim (beforeChar "010"%char txt) in
  if String.prefix "# " firstLine
  then String.substring 2 (String.length firstLine - 2) firstLine
  else stripExtension fileName.

Definition importedNote (trim : string → string) (dateStr : string) (now : Z) (i : nat)
    (fileName txt : string) : Note.t :=
  Note.mk ("imported-" +:+ pretty now +:+ "-" +:+ pretty i)
          (titleOf trim fileName txt) txt ["imported"] dateStr "/uploads".

(** The loop over the files, each with what [Date.now()] returns when its
    note is made; [None] when a read rejects and the loop is left through
    [catch]. *)
Fixpoint readFiles (trim : string → string) (dateStr : string) (i : nat)
    (files : list (File * Z)) (newNotes : list Note.t) : option (list Note.t) :=
  match files with
  | [] => Some newNotes
  | (f, now) :: rest =>
      if accepted f then
        match text f with
        | Some txt =>
            readFiles trim dateStr (S i) rest
                      (newNotes ++ [importedNote trim dateStr now i (name f) txt])
        | None => None
        end
      else readFiles trim dateStr (S i) rest newNotes
  end.

(** [processFiles]: [flag] is the [hasClustered] of the render that created
    the handler, [s] the state when the reads are over. *)
Definition processFiles (trim : string → string) (iso : string) (flag : bool)
    (files : list (File * Z)) (s : State) : State :=
  let s0 := setIsUploadModalOpen false s in
  match readFiles trim (beforeChar "T"%char iso) 0 files [] with
  | Some newNotes =>
      if Nat.ltb 0 (length newNotes)
      then setStatus idle (invalidate flag (setNotes (λ prev, prev ++ newNotes) s0))
      else setStatus idle s0
  | None => setStatus idle s0
  end.

(** *** Descriptions used in the statements *)

Definition setSearchMode (m : SearchMode) (s : State) : State :=
  mkState (notes s) (activeNoteId s) (searchQuery s) m (searchResults s)
          (status s) (viewMode s) (isOnline s) (isUploadModalOpen s) (clusters s)
          (hasClustered s).

Definition setIsOnline (b : bool) (s : State) : State :=
  mkState (notes s) (activeNoteId s) (searchQuery s) (searchMode s) (searchResults s)
          (status s) (viewMode s) b (isUploadModalOpen s) (clusters s) (hasClustered s).

(** What can happen to the state: the handlers above, and the plain
    setters that the other handlers and the buttons call. *)
Inductive Action :=
  | Create (now : Z) (iso : string)
  | Update (id : string) (field : Field) (value : string)
  | Delete (confirmed : bool) (id : string)
  | Select (id : string)
  | SelectResult (r : SearchResult)
  | ClusterDone (answer : option (list Types.ClusterNode))
  | Import (trim : string → string) (iso : string) (flag : bool) (files : list (File * Z))
  | SetViewMode (v : ViewMode)
  | SetStatus (st : ProcessingStatus)
  | SetSearch (q : string) (rs : list SearchResult)
  | SetSearchMode (m : SearchMode)
  | SetIsOnline (b : bool)
  | SetIsUploadModalOpen (b : bool).

Definition act (s : State) (a : Action) : State :=
  match a with
  | Create now iso => handleCreateNote now iso s
  | Update id field value => handleUpdateNote id field value s
  | Delete confirmed id => handleDeleteNote confirmed id s
  | Select id => selectNote id s
  | SelectResult r => selectResult r s
  | ClusterDone answer => handleClusterDone answer s
  | Import trim iso flag files => processFiles trim iso flag files s
  | SetViewMode v => setViewMode v s
  | SetStatus st => setStatus st s
  | SetSearch q rs => setSearch q rs s
  | SetSearchMode m => setSearchMode m s
  | SetIsOnline b => setIsOnline b s
  | SetIsUploadModalOpen b => setIsUploadModalOpen b s
  end.

Definition run (actions : list Action) (s : State) : State := fold_left act actions s.

(** Clusters are only kept while the clustering is marked as done. *)
Definition clusteringConsistent (s : State) : Prop :=
  hasClustered s = false → clusters s = [].

(** The text of a file that the import takes. *)
Definition acceptedText (f : File * Z) : option string :=
  if accepted f.1 then text f.1 else None.

(** The id of the note imported from the [i]-th file. *)
Definition importedId (now : Z) (i : nat) : string :=
  "imported-" +:+ pretty now +:+ "-" +:+ pretty i.

(** The notes that an import makes of the files from the [i]-th on when
    every read succeeds, and whether every read succeeds. *)
Fixpoint importedFrom (trim : string → string) (dateStr : string) (i : nat)
    (files : list (File * Z)) : list Note.t :=
  match files with
  | [] => []
  | (f, now) :: rest =>
      match acceptedText (f, now) with
      | Some txt => [importedNote trim dateStr now i (name f) txt]
      | None => []
      end ++ importedFrom trim dateStr (S i) rest
  end.

Definition readable (f : File * Z) : bool := negb (accepted f.1) || bool_decide (is_Some (text f.1)).

(** The timestamps and the positions of the files that an import takes. *)
Fixpoint acceptedIndexed (i : nat) (files : list (File * Z)) : list (Z * nat) :=
  match files with
  | [] => []
  | (f, now) :: rest =>
      (if accepted f then [(now, i)] else []) ++ acceptedIndexed (S i) rest
  end.

Fixpoint noDash (s : string) : bool :=
  match s with
  | EmptyString => true
  | String a rest => negb (Ascii.eqb a "-"%char) && noDash rest
  end.

(** *** The search bar *)

#[global] Instance SearchMode_eq_dec : EqDecision SearchMode.
Proof. solve_decision. Defined.

Definition setSearchResults (rs : list SearchResult) (s : State) : State :=
  setSearch (searchQuery s) rs s.

Definition setSearchQuery (q : string) (s : State) : State :=
  setSearch q (searchResults s) s.

(** [s.includes(q)]. *)
Fixpoint includes (s q : string) : bool :=
  (String.prefix q s
   || match s with
      | EmptyString => false
      | String _ rest => includes rest q
      end)%bool.

(** [trim] is [String.prototype.trim] and [toLowerCase] is
    [String.prototype.toLowerCase]. *)
Definition exactResults (toLowerCase : string → string) (q : string) (ns : list Note.t)
    : list SearchResult :=
  let lowerQ := toLowerCase q in
  map (λ n, mkSearchResult n 100%float None None)
      (List.filter (λ n, includes (toLowerCase (Note.title n)) lowerQ
                         || includes (toLowerCase (Note.content n)) lowerQ)%bool ns).

(** [handleSearch], from the call to the state when it has settled;
    [answer] is what the semantic service resolves to, [None] when it
    rejects. The status written on the way is overwritten in [finally]. *)
Definition handleSearch (trim toLowerCase : string → string)
    (answer : option (list SearchResult)) (s : State) : State :=
  if bool_decide (trim (searchQuery s) = "") then setSearchResults [] s
  else
    let s1 := if (negb (isOnline s) && negb (bool_decide (searchMode s = EXACT)))%bool
              then setSearchMode EXACT s else s in
    if bool_decide (searchMode s = EXACT) then
      setStatus idle (setSearchResults (exactResults toLowerCase (searchQuery s) (notes s)) s1)
    else
      match answer with
      | Some results => setStatus idle (setSearchResults results s1)
      | None => setStatus idle s1
      end.

(** The listeners of [online] and [offline]. *)
Definition handleOnline (s : State) : State := setIsOnline true s.

Definition handleOffline (s : State) : State :=
  let s1 := setIsOnline false s in
  if bool_decide (searchMode s = EXACT) then s1 else setSearchMode EXACT s1.

(** The timer of the debounce effect, which is only set in exact mode. *)
Definition debounced (trim toLowerCase : string → string) (s : State) : State :=
  if bool_decide (searchMode s = EXACT) then handleSearch trim toLowerCase None s else s.

Definition triggerSemanticSearch (trim toLowerCase : string → string)
    (answer : option (list SearchResult)) (s : State) : State :=
  if (negb (bool_decide (searchMode s = EXACT)) && isOnline s)%bool
  then handleSearch trim toLowerCase answer s
  else s.

(** The two buttons of the mode. *)
Definition exactButton (s : State) : State := setSearchMode EXACT s.

Definition hybridButton (s : State) : State :=
  if isOnline s then setSearchMode HYBRID s else s.

(** What happens to the state: the events of the search bar and of the
    connection, and the actions above. *)
Inductive Event :=
  | WentOnline
  | WentOffline
  | ExactButton
  | HybridButton
  | Typed (q : string)
  | TimerFired
  | EnterPressed (answer : option (list SearchResult))
  | Handled (a : Action).

Definition handle (trim toLowerCase : string → string) (s : State) (e : Event) : State :=
  match e with
  | WentOnline => handleOnline s
  | WentOffline => handleOffline s
  | ExactButton => exactButton s
  | HybridButton => hybridButton s
  | Typed q => setSearchQuery q s
  | TimerFired => debounced trim toLowerCase s
  | EnterPressed answer => triggerSemanticSearch trim toLowerCase answer s
  | Handled a => act s a
  end.

(** The events that go through a handler of [App], not straight to the
    setter of the mode or of the connection. *)
Definition viaHandler (e : Event) : bool :=
  match e with
  | Handled (SetSearchMode _) | Handled (SetIsOnline _) => false
  | _ => true
  end.

(** *** A scenario: two notes *)

Definition twoNotes : list Note.t :=
  [Note.mk "1" "Transformer Architecture Basics" "# Transformers" ["ai"; "nlp"]
           "2023-10-01" "/knowledge/ai";
   Note.mk "3" "Perfect Sourdough Bread" "# Sourdough Recipe" ["cooking"; "bread"]
           "2023-10-05" "/personal/recipes"].

(** The first note is open in the editor. *)
Definition editing : State := selectNote "1" (initialState twoNotes true).

End App.

(** ** services/searchService.ts *)

Module SearchService.

(** The text that the highlight is cut from, one character for each
    UTF-16 code unit. *)
Definition str := list ascii.

Definition lit (s : string) : str := String.list_ascii_of_string s.

Definition quot : ascii := "034"%char.

(** [value.replace(/c/g, by)] for a pattern of one literal character and a
    replacement without [$]. *)
Fixpoint replaceAll (c : ascii) (by_ : str) (value : str) : str :=
  match value with
  | [] => []
  | a :: rest =>
      if Ascii.eqb a c then by_ ++ replaceAll c by_ rest else a :: replaceAll c by_ rest
  end.

Definition escapeHtml (value : str) : str :=
  replaceAll "'"%char (lit "&#39;")
    (replaceAll quot (lit "&quot;")
      (replaceAll ">"%char (lit "&gt;")
        (replaceAll "<"%char (lit "&lt;")
          (replaceAll "&"%char (lit "&amp;") value)))).

(** The index that [slice] makes of an argument: from the end when
    negative, and within the string. *)
Definition relIndex (len i : Z) : Z :=
  if (i <? 0)%Z then Z.max (len + i) 0 else Z.min i len.

(** [s.slice(a, b)], and [s.slice(a)] for [b = None]. *)
Definition slice (s : str) (a : Z) (b : option Z) : str :=
  let len := Z.of_nat (length s) in
  let from := relIndex len a in
  let to := from_option (relIndex len) len b in
  take (Z.to_nat (to - from)) (drop (Z.to_nat from) s).

Definition markOpen : str :=
  lit "<mark class=" ++ [quot] ++ lit "bg-yellow-500/30 text-yellow-200" ++ [quot] ++ lit ">".

Definition markClose : str := lit "</mark>".

Definition generateHighlight (text : str) (matchIndex matchLength : Z) : str :=
  let safeIndex := Z.max 0 matchIndex in
  let safeLength := Z.max 0 matchLength in
  let window := 30%Z in
  let start := Z.max 0 (safeIndex - window) in
  let end_ := Z.min (Z.of_nat (length text)) (safeIndex + safeLength + window) in
  let snippet := slice text start (Some end_) in
  let relativeStart := (safeIndex - start)%Z in
  let before := escapeHtml (slice snippet 0 (Some relativeStart)) in
  let match_ := escapeHtml (slice snippet relativeStart (Some (relativeStart + safeLength)%Z)) in
  let after := escapeHtml (slice snippet (relativeStart + safeLength) None) in
  before ++ markOpen ++ match_ ++ markClose ++ after.

Record CachedSemanticResult := mkCached {
  noteId : string;
  score : float;
  reason : option string
}.

(** [new Map(notes.map((n) => [n.id, n]))]: a later entry replaces an
    earlier one with the same key. *)
Definition noteMap (notes : list Note.t) : gmap string Note.t :=
  fold_left (λ m n, <[Note.id n := n]> m) notes ∅.

(** The [map] to a result or [null], and the [filter] that drops the
    [null]s. *)
Definition hydrateSemanticResults (cached : list CachedSemanticResult) (notes : list Note.t)
    : list App.SearchResult :=
  let noteMap := noteMap notes in
  omap (λ entry,
          match noteMap !! noteId entry with
          | None => None
          | Some note => Some (App.mkSearchResult note (score entry) (reason entry) None)
          end) cached.

(** *** Descriptions used in the statements *)

(** What the escape makes of one character. *)
Definition entity (c : ascii) : str :=
  if Ascii.eqb c "&"%char then lit "&amp;"
  else if Ascii.eqb c "<"%char then lit "&lt;"
  else if Ascii.eqb c ">"%char then lit "&gt;"
  else if Ascii.eqb c quot then lit "&quot;"
  else if Ascii.eqb c "'"%char then lit "&#39;"
  else [c].

Definition occurrences (c : ascii) (s : str) : nat :=
  length (List.filter (Ascii.eqb c) s).

(** The last note under an id. *)
Definition lastNote (k : string) (notes : list Note.t) : option Note.t :=
  last (List.filter (λ n, bool_decide (Note.id n = k)) notes).

Definition known (notes : list Note.t) (entry : CachedSemanticResult) : bool :=
  bool_decide (noteId entry ∈ Note.id <$> notes).

End SearchService.

(** ** components/ClusterGraph.tsx *)

Module ClusterGraph.

(** A member typed [number] that may be absent ([undefined]) or reset with
    [null], as the drag handlers do with [fx] and [fy]. *)
Inductive JsNum := Undefined | Null | Num (v : float).

Inductive NodeType := root | cluster | note.

#[global] Instance NodeType_eq_dec : EqDecision NodeType.
Proof. solve_decision. Defined.

(** [interface D3Node]. *)
Record D3Node := mkD3Node {
  id : string;
  name : string;
  type : NodeType;
  noteId : option string;
  r : float;
  originalClusterId : option string;
  x : JsNum;
  y : JsNum;
  vx : JsNum;
  vy : JsNum;
  fx : JsNum;
  fy : JsNum;
  index : option nat
}.

(** An end of a link is an id until the link force resolves it to the node
    object, which is named here by its position in the node array. *)
Inductive LinkEnd := EndId (s : string) | EndNode (ix : nat).

(** [interface D3Link]. *)
Record D3Link := mkD3Link {
  source : LinkEnd;
  target : LinkEnd
}.

(** The value of a callback prop is a function; only its identity matters
    here, so a callback is a name for the function the parent passed. *)
Definition Callback := nat.

(** The forces handed to [d3.forceSimulation]. *)
Record Simulation := mkSimulation {
  linkDistance : list D3Node → D3Link → float;
  chargeStrength : float;
  collideRadius : D3Node → float;
  collideIterations : nat;
  centerX : float;
  centerY : float;
  centerStrength : float
}.

(** The refs of the component. *)
Record Refs := mkRefs {
  simulationRef : option Simulation;
  nodesRef : list D3Node;
  linksRef : list D3Link;
  hoverTargetRef : option string;
  onReparentRef : option Callback
}.

(** What a handler does besides updating the refs and the dragged node.
    [Highlight e] is the yellow stroke put on the selected element [e], and
    [Throw s] the [SyntaxError] on the selector [s] that leaves the
    handler. *)
Inductive Effect :=
  | SvgRemoveAll
  | SvgDraw (nodes : list D3Node) (links : list D3Link)
  | AlphaTarget (a : float)
  | Restart
  | Cursor (c : string)
  | ResetStrokes
  | Highlight (elementId : string)
  | Throw (selector : string)
  | NoteSelect (noteId : string)
  | Reparent (cb : Callback) (noteId clusterId clusterName : string).

(** *** JavaScript truthiness *)

(** A string is truthy unless it is empty. *)
Definition truthy (s : string) : bool := bool_decide (s ≠ "").

(** [v || 0] on a number that may be absent: [undefined], [null], [NaN]
    and both zeros give [0]. *)
Definition orZero (v : JsNum) : float :=
  match v with
  | Num f => if (PrimFloat.eqb f 0 || PrimFloat.is_nan f)%bool then 0%float else f
  | _ => 0%float
  end.

(** *** updateGraphData *)

Definition push {A} (l : list A) (a : A) : list A := l ++ [a].

Definition rootId : string := "root".

Definition rootNode : D3Node :=
  mkD3Node rootId "Knowledge Base" root None 35 None
           Undefined Undefined Undefined Undefined Undefined Undefined None.

Definition clusterNode (c : Types.ClusterNode) : D3Node :=
  mkD3Node (Types.id c) (Types.name c) cluster None 25 None
           Undefined Undefined Undefined Undefined Undefined Undefined None.

Definition noteNode (c n : Types.ClusterNode) : D3Node :=
  mkD3Node (Types.id n) (Types.name n) note (Types.noteId n) 12 (Some (Types.id c))
           Undefined Undefined Undefined Undefined Undefined Undefined None.

Definition Graph : Type := list D3Node * list D3Link.

(** The body of the inner [forEach]. *)
Definition addNote (c : Types.ClusterNode) (g : Graph) (n : Types.ClusterNode) : Graph :=
  (push g.1 (noteNode c n),
   push g.2 (mkD3Link (EndId (Types.id c)) (EndId (Types.id n)))).

(** The body of the outer [forEach]. *)
Definition addCluster (g : Graph) (c : Types.ClusterNode) : Graph :=
  let g1 := (push g.1 (clusterNode c),
             push g.2 (mkD3Link (EndId rootId) (EndId (Types.id c)))) in
  match Types.children c with
  | Some notes => fold_left (addNote c) notes g1
  | None => g1
  end.

Definition newGraph (clusters : list Types.ClusterNode) : Graph :=
  fold_left addCluster clusters ([rootNode], []).

(** [new Map(nodesRef.current.map(d => [d.id, d]))]: the entries are set in
    array order. *)
Definition existingNodesMap (prev : list D3Node) : gmap string D3Node :=
  fold_left (λ m d, <[id d := d]> m) prev ∅.

Definition mergeNode (m : gmap string D3Node) (d : D3Node) : D3Node :=
  match m !! id d with
  | Some old =>
      mkD3Node (id d) (name d) (type d) (noteId d) (r d) (originalClusterId d)
               (x old) (y old) (vx old) (vy old) (fx d) (fy d) (index d)
  | None => d
  end.

Definition rebuild (clusters : list Types.ClusterNode) (prev : list D3Node) : Graph :=
  let g := newGraph clusters in
  (mergeNode (existingNodesMap prev) <$> g.1, g.2).

Definition updateGraphData (clusters : list Types.ClusterNode) (rf : Refs) : Refs :=
  let g := rebuild clusters (nodesRef rf) in
  mkRefs (simulationRef rf) g.1 g.2 (hoverTargetRef rf) (onReparentRef rf).

(** *** The layout effect ([useEffect] on [clusters]) *)

(** [containerRef.current] when the container is mounted. *)
Record Container := mkContainer {
  clientWidth : float;
  clientHeight : float
}.

(** [.distance(d => d.source.type === 'root' ? 120 : 60)].  The accessor
    reads the [type] member of the source end: a resolved end names a node
    of the array; an id (a string) has no such member. *)
Definition distanceAccessor (nodes : list D3Node) (l : D3Link) : float :=
  match source l with
  | EndNode ix =>
      match nodes !! ix with
      | Some s => if decide (type s = root) then 120%float else 60%float
      | None => 60%float
      end
  | EndId _ => 60%float
  end.

(** [.radius((d: any) => d.r * 1.5)]. *)
Definition radiusAccessor (d : D3Node) : float := (r d * 1.5)%float.

Definition forceSimulation (width height : float) : Simulation :=
  mkSimulation distanceAccessor (-400)%float radiusAccessor 2
               (width / 2)%float (height / 2)%float 0.1%float.

(** The link force of d3 replaces every end that is still an id by the node
    found under that id in a [Map] built over the node array with the [id]
    accessor given to it, and throws when there is none. *)
Fixpoint nodeById (i : nat) (nodes : list D3Node) (m : gmap string nat) : gmap string nat :=
  match nodes with
  | [] => m
  | d :: rest => nodeById (S i) rest (<[id d := i]> m)
  end.

Definition resolveEnd (m : gmap string nat) (e : LinkEnd) : option LinkEnd :=
  match e with
  | EndId s => EndNode <$> m !! s
  | EndNode ix => Some (EndNode ix)
  end.

Definition resolveLink (m : gmap string nat) (l : D3Link) : option D3Link :=
  s ← resolveEnd m (source l);
  t ← resolveEnd m (target l);
  Some (mkD3Link s t).

Definition resolveLinks (nodes : list D3Node) (links : list D3Link) : option (list D3Link) :=
  mapM (resolveLink (nodeById 0 nodes ∅)) links.

(** The effect body.  [svg] says whether [svgRef.current] is set.  The
    result is [None] when the link force throws. *)
Definition graphEffect (clusters : list Types.ClusterNode) (svg : bool)
    (container : option Container) (rf : Refs) : option (Refs * list Effect) :=
  match container with
  | Some c =>
      if (Nat.eqb (length clusters) 0 || negb svg)%bool then Some (rf, [])
      else
        let rf1 := updateGraphData clusters rf in
        let simulation := forceSimulation (clientWidth c) (clientHeight c) in
        links ← resolveLinks (nodesRef rf1) (linksRef rf1);
        Some (mkRefs (Some simulation) (nodesRef rf1) links
                     (hoverTargetRef rf1) (onReparentRef rf1),
              [SvgRemoveAll; SvgDraw (nodesRef rf1) links])
  | None => Some (rf, [])
  end.

(** [useRef] initial values. *)
Definition initialRefs (onNodeReparent : option Callback) : Refs :=
  mkRefs None [] [] None onNodeReparent.

(** The effect on [onNodeReparent]: the slot takes the prop of the latest
    render. *)
Definition setOnReparent (onNodeReparent : option Callback) (rf : Refs) : Refs :=
  mkRefs (simulationRef rf) (nodesRef rf) (linksRef rf) (hoverTargetRef rf) onNodeReparent.

(** *** Drag handlers *)

Module Event.
(** The members of a d3 drag event that the handlers read. *)
Record t := mk {
  active : nat;
  x : float;
  y : float
}.
End Event.

Definition setPin (px py : JsNum) (d : D3Node) : D3Node :=
  mkD3Node (id d) (name d) (type d) (noteId d) (r d) (originalClusterId d)
           (x d) (y d) (vx d) (vy d) px py (index d).

Definition setHoverTarget (h : option string) (rf : Refs) : Refs :=
  mkRefs (simulationRef rf) (nodesRef rf) (linksRef rf) h (onReparentRef rf).

Definition setNodes (nodes : list D3Node) (rf : Refs) : Refs :=
  mkRefs (simulationRef rf) nodes (linksRef rf) (hoverTargetRef rf) (onReparentRef rf).

(** A handler receives the event, the datum of the dragged element and the
    refs; it returns the datum and the refs as it leaves them, and its
    effects in order. *)
Definition Handler : Type := Event.t → D3Node → Refs → D3Node * Refs * list Effect.

Definition onDragStart : Handler := λ event d rf,
  let reheat := if Nat.eqb (Event.active event) 0 then [AlphaTarget 0.3%float; Restart] else [] in
  (setPin (x d) (y d) d,
   setHoverTarget None rf,
   reheat ++ [Cursor "grabbing"]).

Definition minDistance : float := 50%float.

Definition distance (d other : D3Node) : float :=
  let dx := (orZero (x d) - orZero (x other))%float in
  let dy := (orZero (y d) - orZero (y other))%float in
  PrimFloat.sqrt (dx * dx + dy * dy)%float.

(** The body of the [forEach] over [nodesRef.current]; [found] is
    [foundClusterId]. *)
Definition scanStep (d : D3Node) (found : option string) (other : D3Node) : option string :=
  if (bool_decide (type other = cluster)
      && bool_decide (Some (id other) ≠ originalClusterId d))%bool
  then
    if (distance d other <? minDistance + r other)%float then Some (id other) else found
  else found.

Definition scan (d : D3Node) (nodes : list D3Node) : option string :=
  fold_left (scanStep d) nodes None.

(** [if (foundClusterId)]: [null] and the empty string are falsy. *)
Definition truthyId (o : option string) : option string :=
  match o with
  | Some s => if truthy s then Some s else None
  | None => None
  end.

(** What [svg.select(selector)] comes to.  d3 hands the selector to
    [querySelector] of the svg element, which throws a [SyntaxError] for a
    string that is no selector and otherwise returns the first element
    below the svg that matches, or none; the [attr] calls on a selection
    without element do nothing.  An element is named by its [id]
    attribute. *)
Inductive Selected := SyntaxError | NoElement | Element (elementId : string).

(** [`#circle-${foundClusterId}`]. *)
Definition circleSelector (clusterId : string) : string := "#circle-" +:+ clusterId.

(** [selected] is what [svg.select] comes to if the handler calls it.  The
    call stands between the reset of the strokes and the write of the hover
    target: when it throws, the handler is left with the pin moved, the
    strokes reset and the hover target as it was. *)
Definition onDrag (selected : Selected) : Handler := λ event d rf,
  let d1 := setPin (Num (Event.x event)) (Num (Event.y event)) d in
  if decide (type d1 = note) then
    let foundClusterId := scan d1 (nodesRef rf) in
    match truthyId foundClusterId with
    | Some c =>
        match selected with
        | SyntaxError => (d1, rf, [ResetStrokes; Throw (circleSelector c)])
        | NoElement => (d1, setHoverTarget foundClusterId rf, [ResetStrokes])
        | Element e => (d1, setHoverTarget foundClusterId rf, [ResetStrokes; Highlight e])
        end
    | None => (d1, setHoverTarget foundClusterId rf, [ResetStrokes])
    end
  else (d1, rf, []).

(** [n => n.id === targetId]. *)
Definition hasId (k : string) (d : D3Node) : bool := bool_decide (id d = k).

(** The call made at the end of a drag, if any. *)
Definition reparentCall (d : D3Node) (rf : Refs) : list Effect :=
  if decide (type d = note) then
    match truthyId (hoverTargetRef rf), onReparentRef rf with
    | Some targetId, Some cb =>
        match List.find (hasId targetId) (nodesRef rf),
              truthyId (noteId d) with
        | Some targetCluster, Some nid => [Reparent cb nid (id targetCluster) (name targetCluster)]
        | _, _ => []
        end
    | _, _ => []
    end
  else [].

Definition onDragEnd : Handler := λ event d rf,
  let cool := if Nat.eqb (Event.active event) 0 then [AlphaTarget 0%float] else [] in
  let d1 := setPin Null Null d in
  (d1,
   setHoverTarget None rf,
   cool ++ [Cursor "grab"; ResetStrokes] ++ reparentCall d1 rf).

(** [node.on("click", ...)]. *)
Definition onClick (d : D3Node) : list Effect :=
  match type d, truthyId (noteId d) with
  | note, Some nid => [NoteSelect nid]
  | _, _ => []
  end.

(** The datum of an element is the object kept in the node array, so what
    a handler writes to it is seen through [nodesRef]: the handler runs on
    the node at position [i] and the node is stored back.  The handlers
    write [fx] and [fy] only and read neither from the array, so storing
    the node after the handler rather than during it changes nothing. *)
Definition atNode (h : Handler) (event : Event.t) (i : nat) (rf : Refs)
    : option (Refs * list Effect) :=
  d ← nodesRef rf !! i;
  let '(d1, rf1, effects) := h event d rf in
  Some (setNodes (<[i := d1]> (nodesRef rf1)) rf1, effects).

(** *** A gesture *)

(** The engine places the nodes when it is created and moves them between
    pointer events.  Its arithmetic is d3's and is not modelled: a tick is
    any assignment of [x], [y], [vx], [vy] to the nodes. *)
Definition Placement : Type := nat → JsNum * JsNum * JsNum * JsNum.

Definition place (p : JsNum * JsNum * JsNum * JsNum) (d : D3Node) : D3Node :=
  mkD3Node (id d) (name d) (type d) (noteId d) (r d) (originalClusterId d)
           p.1.1.1 p.1.1.2 p.1.2 p.2 (fx d) (fy d) (index d).

Fixpoint placeFrom (i : nat) (p : Placement) (nodes : list D3Node) : list D3Node :=
  match nodes with
  | [] => []
  | d :: rest => place (p i) d :: placeFrom (S i) p rest
  end.

Definition tick (p : Placement) (rf : Refs) : Refs :=
  setNodes (placeFrom 0 p (nodesRef rf)) rf.

(** What can happen between pointer-down and pointer-up on the node at
    position [i]; a move comes with what [svg.select] comes to in it. *)
Inductive Step :=
  | Move (event : Event.t) (selected : Selected)
  | Tick (p : Placement)
  | Render (onNodeReparent : option Callback).

Definition step (i : nat) (s : Step) (rf : Refs) : option (Refs * list Effect) :=
  match s with
  | Move event selected => atNode (onDrag selected) event i rf
  | Tick p => Some (tick p rf, [])
  | Render cb => Some (setOnReparent cb rf, [])
  end.

Fixpoint steps (i : nat) (ss : list Step) (rf : Refs) : option (Refs * list Effect) :=
  match ss with
  | [] => Some (rf, [])
  | s :: rest =>
      '(rf1, e1) ← step i s rf;
      '(rf2, e2) ← steps i rest rf1;
      Some (rf2, e1 ++ e2)
  end.

Definition gesture (i : nat) (down : Event.t) (ss : list Step) (up : Event.t) (rf : Refs)
    : option (Refs * list Effect) :=
  '(rf1, e1) ← atNode onDragStart down i rf;
  '(rf2, e2) ← steps i ss rf1;
  '(rf3, e3) ← atNode onDragEnd up i rf2;
  Some (rf3, e1 ++ e2 ++ e3).

(** The calls of the re-parent callback among some effects. *)
Definition isReparent (e : Effect) : bool :=
  match e with
  | Reparent _ _ _ _ => true
  | _ => false
  end.

Definition reparents (effects : list Effect) : list Effect :=
  List.filter isReparent effects.

(** *** Descriptions used in the statements *)

Definition childrenOf (c : Types.ClusterNode) : list Types.ClusterNode :=
  default [] (Types.children c).

(** The nodes and links that one group contributes, in emission order. *)
Definition clusterNodes (c : Types.ClusterNode) : list D3Node :=
  clusterNode c :: (noteNode c <$> childrenOf c).

Definition rootLink (c : Types.ClusterNode) : D3Link :=
  mkD3Link (EndId rootId) (EndId (Types.id c)).

Definition noteLink (c n : Types.ClusterNode) : D3Link :=
  mkD3Link (EndId (Types.id c)) (EndId (Types.id n)).

Definition clusterLinks (c : Types.ClusterNode) : list D3Link :=
  rootLink c :: (noteLink c <$> childrenOf c).

Definition freshNodes (clusters : list Types.ClusterNode) : list D3Node :=
  rootNode :: (clusters ≫= clusterNodes).

Definition freshLinks (clusters : list Types.ClusterNode) : list D3Link :=
  clusters ≫= clusterLinks.

(** The last node of an array that carries a given id. *)
Definition lastWithId (k : string) (nodes : list D3Node) : option D3Node :=
  last (List.filter (hasId k) nodes).

(** The physical state that the merge carries over. *)
Definition physics (d : D3Node) : JsNum * JsNum * JsNum * JsNum :=
  (x d, y d, vx d, vy d).

Definition unseeded : JsNum * JsNum * JsNum * JsNum :=
  (Undefined, Undefined, Undefined, Undefined).

Definition isRoot (d : D3Node) : bool := bool_decide (type d = root).

(** The place of a node: its coordinates, with 0 for one that is not set
    or not a number. *)
Definition coordinate (v : JsNum) : float :=
  match v with
  | Num f => if PrimFloat.is_nan f then 0%float else if PrimFloat.eqb f 0 then 0%float else f
  | Undefined | Null => 0%float
  end.

Definition position (d : D3Node) : float * float := (coordinate (x d), coordinate (y d)).

(** The Euclidean distance of two places. *)
Definition euclidean (p q : float * float) : float :=
  PrimFloat.sqrt ((p.1 - q.1) * (p.1 - q.1) + (p.2 - q.2) * (p.2 - q.2))%float.

(** A group over which the dragged leaf [d] hovers: a group other than the
    leaf's own, nearer than 50 plus its radius. *)
Definition isCandidate (d other : D3Node) : bool :=
  bool_decide (type other = cluster)
  && bool_decide (Some (id other) ≠ originalClusterId d)
  && (euclidean (position d) (position other) <? 50 + r other)%float.

(** The members of a node that neither the engine nor a handler writes. *)
Definition static (d : D3Node)
    : string * string * NodeType * option string * float * option string :=
  (id d, name d, type d, noteId d, r d, originalClusterId d).

(** The callback in the slot after some steps: that of the latest render. *)
Definition latestCallback (ss : list Step) (init : option Callback) : option Callback :=
  fold_left (λ cb s, match s with Render cb' => cb' | _ => cb end) ss init.

(** *** A scenario: two groups, two leaves under the first *)

Definition leaf (i nm : string) (ref : option string) : Types.ClusterNode :=
  Types.mkClusterNode i nm Types.note None ref None.

Definition group (i nm : string) (notes : list Types.ClusterNode) : Types.ClusterNode :=
  Types.mkClusterNode i nm Types.cluster (Some notes) None None.

(** [ref] is the [noteId] of the first leaf. *)
Definition twoGroups (ref : option string) : list Types.ClusterNode :=
  [group "g1" "AI" [leaf "n1" "First" ref; leaf "n2" "Second" (Some "n2_leafRef")];
   group "g2" "Cooking" []].

Definition at_ (px py : float) : JsNum * JsNum * JsNum * JsNum :=
  (Num px, Num py, Num 0, Num 0).

(** Positions in the node order root, g1, n1, n2, g2. *)
Definition layout : Placement := λ i,
  match i with
  | 0 => at_ 400 300
  | 1 => at_ 300 300
  | 2 => at_ 250 300
  | 3 => at_ 300 250
  | _ => at_ 500 300
  end.

(** The same with the first leaf carried next to g2. *)
Definition layoutOverG2 : Placement := λ i,
  match i with
  | 2 => at_ 480 300
  | _ => layout i
  end.

(** The refs once the effect has run over a tree in a viewport and the
    engine has laid the nodes out. *)
Definition started (clusters : list Types.ClusterNode) (c : Container)
    (cb : option Callback) : Refs :=
  match graphEffect clusters true (Some c) (initialRefs cb) with
  | Some (rf, _) => tick layout rf
  | None => initialRefs cb
  end.

Definition pointer (px py : float) : Event.t := Event.mk 0 px py.

Definition viewport : Container := mkContainer 800 600.

(** The refs just after pointer-down on the first leaf: the leaf is pinned. *)
Definition midDrag : Refs :=
  let rf := started (twoGroups (Some "n1_leafRef")) viewport (Some 7) in
  match atNode onDragStart (pointer 250 300) 2 rf with
  | Some (rf1, _) => rf1
  | None => rf
  end.

(** The circle that the effect draws for the node under an id. *)
Definition circle (clusterId : string) : Selected := Element ("circle-" +:+ clusterId).

(** The first leaf is carried over g2. *)
Definition carryOverG2 : list Step :=
  [Move (pointer 480 300) (circle "g2"); Tick layoutOverG2; Move (pointer 481 300) (circle "g2")].

Definition nodeAt (i : nat) (rf : Refs) : D3Node := default rootNode (nodesRef rf !! i).

(** The refs while the first leaf, pressed at its place, is held over g2. *)
Definition carried (ref : option string) (cb : option Callback) : Refs :=
  let rf := started (twoGroups ref) viewport cb in
  match atNode onDragStart (pointer 250 300) 2 rf with
  | Some (rf1, _) =>
      match steps 2 carryOverG2 rf1 with
      | Some (rf2, _) => rf2
      | None => rf1
      end
  | None => rf
  end.

(** The refs while the first leaf is held and the engine has moved it to
    a place, the other nodes being where the layout put them. *)
Definition heldAt (px py : float) : Refs :=
  tick (λ i, match i with 2 => at_ px py | _ => layout i end) midDrag.

(** The same tree with a second group under an id that makes
    [#circle-g/2], which is no selector. *)
Definition slashGroups : list Types.ClusterNode :=
  [group "g1" "AI" [leaf "n1" "First" (Some "n1_leafRef");
                    leaf "n2" "Second" (Some "n2_leafRef")];
   group "g/2" "Cooking" []].

(** The same tree with a second group under an id with a blank:
    [#circle-web dev] is a selector, for an element [dev] below the element
    [circle-web], and nothing below the svg matches it. *)
Definition blankGroups : list Types.ClusterNode :=
  [group "g1" "AI" [leaf "n1" "First" (Some "n1_leafRef");
                    leaf "n2" "Second" (Some "n2_leafRef")];
   group "web dev" "Web" []].

(** The refs while the first leaf of a tree, pressed at its place, has
    been moved next to the last node by the engine. *)
Definition heldOverLast (clusters : list Types.ClusterNode) (cb : option Callback) : Refs :=
  let rf := started clusters viewport cb in
  match atNode onDragStart (pointer 250 300) 2 rf with
  | Some (rf1, _) => tick layoutOverG2 rf1
  | None => rf
  end.

(** *** The tick handler *)

(** [v ?? 0]: only [undefined] and [null] give [0]. *)
Definition nullish (v : JsNum) : float :=
  match v with
  | Num f => f
  | _ => 0%float
  end.

(** [typeof d.source === 'object' && d.source ? d.source : null]. *)
Definition endObject (nodes : list D3Node) (e : LinkEnd) : option D3Node :=
  match e with
  | EndNode ix => nodes !! ix
  | EndId _ => None
  end.

(** [source ? (source.x ?? 0) : 0], for either end and either member. *)
Definition lineEnd (member : D3Node → JsNum) (nodes : list D3Node) (e : LinkEnd) : float :=
  match endObject nodes e with
  | Some s => nullish (member s)
  | None => 0%float
  end.

(** The attributes [x1], [y1], [x2], [y2] of a line. *)
Record Line := mkLine {
  x1 : float;
  y1 : float;
  x2 : float;
  y2 : float
}.

Definition linkLine (nodes : list D3Node) (l : D3Link) : Line :=
  mkLine (lineEnd x nodes (source l)) (lineEnd y nodes (source l))
         (lineEnd x nodes (target l)) (lineEnd y nodes (target l)).

(** The two numbers of [translate(${d.x ?? 0},${d.y ?? 0})]. *)
Definition nodeTranslate (d : D3Node) : float * float := (nullish (x d), nullish (y d)).

(** What a tick draws: the lines, and where each node group is moved. *)
Definition onTick (rf : Refs) : list Line * list (float * float) :=
  (linkLine (nodesRef rf) <$> linksRef rf, nodeTranslate <$> nodesRef rf).

(** *** The component as [App] mounts it *)

(** [App] passes [clusters] and an [onNoteSelect] that selects the note and
    opens the editor; it passes no [onNodeReparent]. *)
Definition appReparent : option Callback := None.

(** What an effect of the component does to the state of [App]. *)
Definition toApp (s : App.State) (e : Effect) : App.State :=
  match e with
  | NoteSelect ref => App.selectNote ref s
  | _ => s
  end.

Definition isNoteSelect (e : Effect) : bool :=
  match e with
  | NoteSelect _ => true
  | _ => false
  end.

(** *** Further descriptions *)

(** The link that the emission loop pushes with a node other than the
    root: from the root for a group, from its group for a leaf. *)
Definition linkInto (d : D3Node) : D3Link :=
  mkD3Link (EndId (default rootId (originalClusterId d))) (EndId (id d)).

(** The radius that the emission gives to each kind. *)
Definition radiusOf (t : NodeType) : float :=
  match t with
  | root => 35%float
  | cluster => 25%float
  | note => 12%float
  end.

(** The pin of a node. *)
Definition pins (d : D3Node) : JsNum * JsNum := (fx d, fy d).

(** A group of the array [nodes] other than the one the leaf [d] is under. *)
Definition foreignGroup (nodes : list D3Node) (d : D3Node) (t : string) : Prop :=
  (∃ g, g ∈ nodes ∧ type g = cluster ∧ id g = t) ∧ originalClusterId d ≠ Some t.

(** ** The synchronizer *)

Section Synchronizer.

Implicit Types (c n : Types.ClusterNode) (clusters : list Types.ClusterNode).
Implicit Types (d old : D3Node) (prev nodes : list D3Node) (k : string).

Lemma fold_addNote c notes (g : Graph) :
  fold_left (addNote c) notes g
  = (g.1 ++ (noteNode c <$> notes), g.2 ++ (noteLink c <$> notes)).
Proof.
  revert g. induction notes as [|n notes IH]; intros [ns ls]; simpl.
  - by rewrite !app_nil_r.
  - rewrite IH. unfold addNote, push, noteLink. simpl. by rewrite <- !app_assoc.
Qed.

Lemma addCluster_eq (g : Graph) c :
  addCluster g c = (g.1 ++ clusterNodes c, g.2 ++ clusterLinks c).
Proof.
  unfold addCluster, clusterNodes, clusterLinks, childrenOf, push.
  destruct (Types.children c) as [notes|]; simpl.
  - rewrite fold_addNote. simpl. by rewrite <- !app_assoc.
  - done.
Qed.

Lemma fold_addCluster clusters (g : Graph) :
  fold_left addCluster clusters g
  = (g.1 ++ (clusters ≫= clusterNodes), g.2 ++ (clusters ≫= clusterLinks)).
Proof.
  revert g. induction clusters as [|c clusters IH]; intros [ns ls]; simpl.
  - by rewrite !app_nil_r.
  - rewrite IH, addCluster_eq. simpl. by rewrite <- !app_assoc.
Qed.

Lemma newGraph_eq clusters : newGraph clusters = (freshNodes clusters, freshLinks clusters).
Proof. unfold newGraph. by rewrite fold_addCluster. Qed.

Lemma rebuild_eq clusters prev :
  rebuild clusters prev
  = (mergeNode (existingNodesMap prev) <$> freshNodes clusters, freshLinks clusters).
Proof. unfold rebuild. by rewrite newGraph_eq. Qed.

Lemma rebuild_nodes clusters prev :
  (rebuild clusters prev).1 = mergeNode (existingNodesMap prev) <$> freshNodes clusters.
Proof. by rewrite rebuild_eq. Qed.

Lemma rebuild_links clusters prev : (rebuild clusters prev).2 = freshLinks clusters.
Proof. by rewrite rebuild_eq. Qed.

(** The map built over an array answers with the last node under each id. *)
Lemma fold_insert_lookup prev (m : gmap string D3Node) k :
  fold_left (λ m d, <[id d := d]> m) prev m !! k
  = match lastWithId k prev with Some d => Some d | None => m !! k end.
Proof.
  revert m. induction prev as [|d prev IH]; intros m; [done|].
  simpl. rewrite IH. unfold lastWithId. simpl.
  destruct (hasId k d) eqn:Hk; unfold hasId in Hk.
  - apply bool_decide_eq_true in Hk. subst k.
    rewrite last_cons. destruct (last _); [done|]. by rewrite lookup_insert_eq.
  - apply bool_decide_eq_false in Hk.
    destruct (last _); [done|]. by rewrite lookup_insert_ne.
Qed.

Lemma existingNodesMap_lookup prev k : existingNodesMap prev !! k = lastWithId k prev.
Proof.
  unfold existingNodesMap. rewrite fold_insert_lookup, lookup_empty.
  by destruct (lastWithId k prev).
Qed.

(** The merge writes the four physical members and nothing else. *)
Lemma mergeNode_frame (m : gmap string D3Node) d :
  id (mergeNode m d) = id d ∧ name (mergeNode m d) = name d
  ∧ type (mergeNode m d) = type d ∧ noteId (mergeNode m d) = noteId d
  ∧ r (mergeNode m d) = r d ∧ originalClusterId (mergeNode m d) = originalClusterId d
  ∧ fx (mergeNode m d) = fx d ∧ fy (mergeNode m d) = fy d
  ∧ index (mergeNode m d) = index d.
Proof. unfold mergeNode. by destruct (m !! id d). Qed.

Lemma mergeNode_id (m : gmap string D3Node) d : id (mergeNode m d) = id d.
Proof. apply mergeNode_frame. Qed.

Lemma mergeNode_type (m : gmap string D3Node) d : type (mergeNode m d) = type d.
Proof. apply mergeNode_frame. Qed.

Lemma mergeNode_physics (m : gmap string D3Node) d :
  physics (mergeNode m d)
  = match m !! id d with Some old => physics old | None => physics d end.
Proof. unfold mergeNode. by destruct (m !! id d). Qed.

Lemma merged_ids (m : gmap string D3Node) nodes :
  id <$> (mergeNode m <$> nodes) = id <$> nodes.
Proof.
  rewrite <- list_fmap_compose. apply list_fmap_ext. intros _ d _. apply mergeNode_id.
Qed.

(** What the emission loop pushes. *)
Lemma elem_of_clusterNodes d c :
  d ∈ clusterNodes c ↔ d = clusterNode c ∨ ∃ n, n ∈ childrenOf c ∧ d = noteNode c n.
Proof.
  unfold clusterNodes. rewrite elem_of_cons, list_elem_of_fmap. naive_solver.
Qed.

Lemma elem_of_freshNodes d clusters :
  d ∈ freshNodes clusters ↔
  d = rootNode ∨ ∃ c, c ∈ clusters ∧
    (d = clusterNode c ∨ ∃ n, n ∈ childrenOf c ∧ d = noteNode c n).
Proof.
  unfold freshNodes. rewrite elem_of_cons, list_elem_of_bind.
  setoid_rewrite elem_of_clusterNodes. naive_solver.
Qed.

Lemma freshNodes_fresh d clusters :
  d ∈ freshNodes clusters →
  physics d = unseeded ∧ fx d = Undefined ∧ fy d = Undefined ∧ index d = None.
Proof.
  rewrite elem_of_freshNodes. intros [->|(c & _ & [->|(n & _ & ->)])]; done.
Qed.

Lemma clusterNodes_not_root c : List.filter isRoot (clusterNodes c) = [].
Proof.
  unfold clusterNodes. simpl. induction (childrenOf c) as [|n notes IH]; done.
Qed.

Lemma filter_isRoot_bind clusters : List.filter isRoot (clusters ≫= clusterNodes) = [].
Proof.
  induction clusters as [|c clusters IH]; [done|].
  rewrite bind_cons, List.filter_app, IH, clusterNodes_not_root. done.
Qed.

Lemma filter_isRoot_merged (m : gmap string D3Node) nodes :
  List.filter isRoot (mergeNode m <$> nodes) = mergeNode m <$> List.filter isRoot nodes.
Proof.
  induction nodes as [|d nodes IH]; [done|].
  rewrite fmap_cons. cbn [List.filter]. rewrite IH.
  replace (isRoot (mergeNode m d)) with (isRoot d)
    by (unfold isRoot; by rewrite mergeNode_type).
  by destruct (isRoot d).
Qed.

Lemma roots_rebuild clusters prev :
  List.filter isRoot (rebuild clusters prev).1 = [mergeNode (existingNodesMap prev) rootNode].
Proof.
  rewrite rebuild_nodes. rewrite filter_isRoot_merged.
  unfold freshNodes. simpl. by rewrite filter_isRoot_bind.
Qed.

Lemma rebuild_lookup clusters prev i d :
  (rebuild clusters prev).1 !! i = Some d →
  ∃ d0, freshNodes clusters !! i = Some d0 ∧ d = mergeNode (existingNodesMap prev) d0.
Proof.
  rewrite rebuild_nodes. rewrite list_lookup_fmap.
  destruct (freshNodes clusters !! i) as [d0|]; [|done].
  intros [= <-]. eauto.
Qed.

Lemma rebuild_physics clusters prev d :
  d ∈ (rebuild clusters prev).1 →
  physics d = match lastWithId (id d) prev with
              | Some old => physics old
              | None => unseeded
              end.
Proof.
  rewrite rebuild_nodes. rewrite list_elem_of_fmap.
  intros (d0 & -> & Hd0). rewrite mergeNode_physics, mergeNode_id, existingNodesMap_lookup.
  destruct (lastWithId (id d0) prev); [done|]. by apply freshNodes_fresh in Hd0 as [? _].
Qed.

Lemma lastWithId_Some k nodes d : lastWithId k nodes = Some d → d ∈ nodes ∧ id d = k.
Proof.
  unfold lastWithId. intros H%last_Some_elem_of.
  apply list_elem_of_In, List.filter_In in H as [H1 H2].
  split; [by apply list_elem_of_In | by apply bool_decide_eq_true in H2].
Qed.

Lemma lastWithId_is_Some k nodes : is_Some (lastWithId k nodes) ↔ k ∈ id <$> nodes.
Proof.
  unfold lastWithId. rewrite last_is_Some, list_elem_of_fmap. split.
  - intros H. destruct (List.filter (hasId k) nodes) as [|d l] eqn:E; [done|].
    assert (List.In d (List.filter (hasId k) nodes)) as Hd by (rewrite E; by left).
    apply List.filter_In in Hd as [H1 H2]. exists d.
    split; [by apply bool_decide_eq_true in H2 | by apply list_elem_of_In].
  - intros (d & -> & Hd) E.
    assert (List.In d (List.filter (hasId (id d)) nodes)) as H.
    { apply List.filter_In. split; [by apply list_elem_of_In | by apply bool_decide_eq_true]. }
    by rewrite E in H.
Qed.

Lemma lastWithId_NoDup nodes i d :
  NoDup (id <$> nodes) → nodes !! i = Some d → lastWithId (id d) nodes = Some d.
Proof.
  revert i. induction nodes as [|d0 nodes IH]; intros i Hnd Hi; [done|].
  rewrite fmap_cons in Hnd. apply NoDup_cons in Hnd as [Hfresh Hnd].
  unfold lastWithId. simpl. destruct i as [|i]; simpl in Hi.
  - injection Hi as ->. unfold hasId at 1. rewrite bool_decide_eq_true_2 by done.
    rewrite last_cons. fold (lastWithId (id d) nodes).
    destruct (lastWithId (id d) nodes) as [d'|] eqn:E; [|done].
    exfalso. apply Hfresh, lastWithId_is_Some. by rewrite E.
  - unfold hasId at 1. rewrite bool_decide_eq_false_2.
    + by apply (IH i).
    + intros E. apply Hfresh. rewrite E. apply list_elem_of_fmap_2.
      by apply list_elem_of_lookup_2 in Hi.
Qed.

Lemma mergeNode_place (m : gmap string D3Node) d :
  mergeNode m d = match m !! id d with Some old => place (physics old) d | None => d end.
Proof. done. Qed.

Lemma place_physics d : place (physics d) d = d.
Proof. by destruct d. Qed.

Lemma placeFrom_ids i (p : Placement) nodes : id <$> placeFrom i p nodes = id <$> nodes.
Proof. revert i. induction nodes as [|d nodes IH]; intros i; simpl; [done|]. by rewrite IH. Qed.

(** A second rebuild over the output of the first changes nothing, whatever
    ids the tree repeats. *)
Lemma rebuild_idempotent clusters prev :
  rebuild clusters (rebuild clusters prev).1 = rebuild clusters prev.
Proof.
  rewrite rebuild_nodes, !rebuild_eq. f_equal.
  apply list_fmap_ext. intros i d Hd%list_elem_of_lookup_2.
  set (m0 := existingNodesMap prev).
  rewrite (mergeNode_place _ d), existingNodesMap_lookup.
  destruct (lastWithId (id d) (mergeNode m0 <$> freshNodes clusters)) as [old|] eqn:E.
  - apply lastWithId_Some in E as [Hold Hid].
    apply list_elem_of_fmap in Hold as (d' & -> & Hd').
    rewrite mergeNode_id in Hid.
    rewrite mergeNode_physics, Hid, (mergeNode_place m0 d).
    destruct (m0 !! id d); [done|].
    apply freshNodes_fresh in Hd as [Hd _], Hd' as [Hd' _].
    by rewrite Hd', <- Hd, place_physics.
  - exfalso. assert (is_Some (lastWithId (id d) (mergeNode m0 <$> freshNodes clusters))) as [? H];
      [|by rewrite H in E].
    apply lastWithId_is_Some. rewrite merged_ids. by apply list_elem_of_fmap_2.
Qed.

(** With pairwise distinct ids, a rebuild over a generation that the engine
    has moved in the meantime keeps every node where the engine left it. *)
Lemma rebuild_keeps_positions clusters prev i old :
  id <$> prev = id <$> freshNodes clusters →
  NoDup (id <$> prev) →
  prev !! i = Some old →
  ∃ d, (rebuild clusters prev).1 !! i = Some d ∧ physics d = physics old.
Proof.
  intros Hids Hnd Hi. rewrite rebuild_nodes. rewrite list_lookup_fmap.
  assert (id <$> freshNodes clusters !! i = Some (id old)) as Hd0.
  { rewrite <- list_lookup_fmap, <- Hids, list_lookup_fmap. by rewrite Hi. }
  destruct (freshNodes clusters !! i) as [d0|]; [|done].
  injection Hd0 as Hd0. eexists. split; [done|].
  rewrite mergeNode_physics, existingNodesMap_lookup, Hd0.
  by rewrite (lastWithId_NoDup prev i old).
Qed.

End Synchronizer.

(** ** Link resolution and the start of the engine *)

Section Start.

Implicit Types (c n : Types.ClusterNode) (clusters : list Types.ClusterNode).
Implicit Types (d : D3Node) (prev nodes : list D3Node) (k : string).

Lemma nodeById_notin i nodes (m : gmap string nat) k :
  k ∉ id <$> nodes → nodeById i nodes m !! k = m !! k.
Proof.
  revert i m. induction nodes as [|d nodes IH]; intros i m Hk; [done|].
  rewrite fmap_cons, not_elem_of_cons in Hk. destruct Hk as [Hd Hk].
  simpl. rewrite IH by done. by rewrite lookup_insert_ne.
Qed.

(** An id that occurs in the array resolves to a position that carries it. *)
Lemma nodeById_in i nodes (m : gmap string nat) k :
  k ∈ id <$> nodes →
  ∃ j d, nodeById i nodes m !! k = Some (i + j) ∧ nodes !! j = Some d ∧ id d = k.
Proof.
  revert i m. induction nodes as [|d nodes IH]; intros i m Hk.
  - by apply elem_of_nil in Hk.
  - simpl. destruct (decide (k ∈ id <$> nodes)) as [Hin|Hout].
    + destruct (IH (S i) (<[id d := i]> m) Hin) as (j & d' & Hj & Hd' & Hid).
      exists (S j), d'. split; [|done]. rewrite Hj. f_equal. lia.
    + rewrite fmap_cons, elem_of_cons in Hk. destruct Hk as [->|Hk]; [|done].
      exists 0, d. rewrite nodeById_notin by done.
      rewrite lookup_insert_eq. split; [|done]. f_equal. lia.
Qed.

Lemma resolveLink_ids nodes s t :
  s ∈ id <$> nodes → t ∈ id <$> nodes →
  ∃ i di j dj,
    resolveLink (nodeById 0 nodes ∅) (mkD3Link (EndId s) (EndId t))
    = Some (mkD3Link (EndNode i) (EndNode j))
    ∧ nodes !! i = Some di ∧ id di = s ∧ nodes !! j = Some dj ∧ id dj = t.
Proof.
  intros Hs Ht.
  destruct (nodeById_in 0 nodes ∅ s Hs) as (i & di & Hi & Hdi & Hidi).
  destruct (nodeById_in 0 nodes ∅ t Ht) as (j & dj & Hj & Hdj & Hidj).
  exists i, di, j, dj. unfold resolveLink. simpl. rewrite Hi, Hj. done.
Qed.

Lemma freshNodes_ids_root clusters : rootId ∈ id <$> freshNodes clusters.
Proof. unfold freshNodes. rewrite fmap_cons. apply elem_of_cons. by left. Qed.

Lemma freshNodes_ids_cluster clusters c :
  c ∈ clusters → Types.id c ∈ id <$> freshNodes clusters.
Proof.
  intros Hc. apply list_elem_of_fmap. exists (clusterNode c). split; [done|].
  apply elem_of_freshNodes. right. exists c. auto.
Qed.

Lemma freshNodes_ids_note clusters c n :
  c ∈ clusters → n ∈ childrenOf c → Types.id n ∈ id <$> freshNodes clusters.
Proof.
  intros Hc Hn. apply list_elem_of_fmap. exists (noteNode c n). split; [done|].
  apply elem_of_freshNodes. right. exists c. split; [done|]. right. eauto.
Qed.

Lemma elem_of_freshLinks (l : D3Link) clusters :
  l ∈ freshLinks clusters ↔
  ∃ c, c ∈ clusters ∧ (l = rootLink c ∨ ∃ n, n ∈ childrenOf c ∧ l = noteLink c n).
Proof.
  unfold freshLinks. rewrite list_elem_of_bind. unfold clusterLinks.
  setoid_rewrite elem_of_cons. setoid_rewrite list_elem_of_fmap. naive_solver.
Qed.

(** Every end of every emitted link names an emitted node, so the link
    force finds all of them. *)
Lemma resolveLinks_rebuild clusters prev :
  is_Some (resolveLinks (rebuild clusters prev).1 (rebuild clusters prev).2).
Proof.
  unfold resolveLinks. apply mapM_is_Some, Forall_forall. intros l Hl.
  rewrite rebuild_links in Hl. apply elem_of_freshLinks in Hl as (c & Hc & Hl).
  set (nodes := (rebuild clusters prev).1).
  assert (id <$> nodes = id <$> freshNodes clusters) as Hids.
  { unfold nodes. rewrite rebuild_nodes. apply merged_ids. }
  destruct Hl as [->|(n & Hn & ->)]; unfold compose, rootLink, noteLink.
  - destruct (resolveLink_ids nodes rootId (Types.id c)) as (? & ? & ? & ? & H & _);
      [| |by rewrite H];
      rewrite Hids; auto using freshNodes_ids_root, freshNodes_ids_cluster.
  - destruct (resolveLink_ids nodes (Types.id c) (Types.id n)) as (? & ? & ? & ? & H & _);
      [| |by rewrite H];
      rewrite Hids; eauto using freshNodes_ids_cluster, freshNodes_ids_note.
Qed.

Lemma rebuild_nodes_cons clusters prev :
  (rebuild clusters prev).1
  = mergeNode (existingNodesMap prev) rootNode
    :: (mergeNode (existingNodesMap prev) <$> (clusters ≫= clusterNodes)).
Proof. by rewrite rebuild_nodes. Qed.

Lemma merged_not_root (m : gmap string D3Node) clusters d :
  d ∈ mergeNode m <$> (clusters ≫= clusterNodes) → type d ≠ root.
Proof.
  rewrite list_elem_of_fmap. intros (d0 & -> & Hd0). rewrite mergeNode_type.
  apply list_elem_of_bind in Hd0 as (c & Hd0 & _).
  apply elem_of_clusterNodes in Hd0 as [->|(n & _ & ->)]; done.
Qed.

(** The distances of the links of a started engine.  A group-to-leaf link
    always gets 60.  A root-to-group link gets 120 when no group and no leaf
    of the tree is itself called ["root"]. *)
Lemma started_distances clusters prev c :
  c ∈ clusters →
  let nodes := (rebuild clusters prev).1 in
  let m := nodeById 0 nodes ∅ in
  (∀ n, n ∈ childrenOf c →
     ∃ l, resolveLink m (noteLink c n) = Some l ∧ distanceAccessor nodes l = 60%float)
  ∧ (rootId ∉ id <$> (clusters ≫= clusterNodes) →
     ∃ l, resolveLink m (rootLink c) = Some l ∧ distanceAccessor nodes l = 120%float).
Proof.
  intros Hc nodes m. subst m nodes. rewrite rebuild_nodes_cons.
  set (m0 := existingNodesMap prev).
  set (rest := mergeNode m0 <$> (clusters ≫= clusterNodes)).
  assert (id <$> rest = id <$> (clusters ≫= clusterNodes)) as Hids by apply merged_ids.
  assert (Types.id c ∈ id <$> rest) as Hcid.
  { rewrite Hids. apply list_elem_of_fmap. exists (clusterNode c). split; [done|].
    apply list_elem_of_bind. exists c. split; [|done]. apply elem_of_clusterNodes. auto. }
  assert (∀ k, k ∈ id <$> rest → is_Some (nodeById 0 (mergeNode m0 rootNode :: rest) ∅ !! k))
    as Htarget.
  { intros k Hk. simpl.
    destruct (nodeById_in 1 rest (<[id (mergeNode m0 rootNode) := 0]> ∅) k Hk)
      as (j & d & -> & _). done. }
  split.
  - intros n Hn.
    destruct (Htarget (Types.id n)) as [t Ht].
    { rewrite Hids. apply list_elem_of_fmap. exists (noteNode c n). split; [done|].
      apply list_elem_of_bind. exists c. split; [|done]. apply elem_of_clusterNodes. eauto. }
    destruct (nodeById_in 1 rest (<[id (mergeNode m0 rootNode) := 0]> ∅) _ Hcid)
      as (j & d & Hj & Hd & _).
    exists (mkD3Link (EndNode (1 + j)) (EndNode t)). split.
    + unfold resolveLink, noteLink. cbn [source target resolveEnd].
      rewrite Ht. cbn [nodeById]. rewrite Hj. done.
    + unfold distanceAccessor. cbn [source]. simpl lookup. rewrite Hd.
      rewrite decide_False; [done|].
      eapply merged_not_root, list_elem_of_lookup_2, Hd.
  - intros Hroot.
    destruct (Htarget (Types.id c) Hcid) as [t Ht].
    exists (mkD3Link (EndNode 0) (EndNode t)). split.
    + unfold resolveLink, rootLink. cbn [source target resolveEnd].
      rewrite Ht. cbn [nodeById]. rewrite nodeById_notin by by rewrite Hids.
      rewrite mergeNode_id. by rewrite lookup_insert_eq.
    + unfold distanceAccessor. cbn [source]. simpl lookup. cbv beta iota.
      by rewrite mergeNode_type.
Qed.

(** The effect never throws. *)
Lemma graphEffect_total clusters svg container rf :
  is_Some (graphEffect clusters svg container rf).
Proof.
  unfold graphEffect. destruct container as [cont|]; [|done].
  destruct (_ || _)%bool; [done|].
  unfold updateGraphData. cbn [nodesRef linksRef].
  destruct (resolveLinks_rebuild clusters (nodesRef rf)) as [links ->]. done.
Qed.

End Start.

(** ** The drag controller *)

Section Drag.

Implicit Types (d other g : D3Node) (nodes : list D3Node) (rf : Refs).
Implicit Types (event down up : Event.t) (ss : list Step) (effects : list Effect).

(** *** The scan of a pointer-move *)

Lemma orZero_coordinate (v : JsNum) : orZero v = coordinate v.
Proof.
  destruct v as [| |f]; [done..|]. unfold orZero, coordinate.
  by destruct (PrimFloat.eqb f 0), (PrimFloat.is_nan f).
Qed.

(** The distance that the handler computes is the Euclidean distance of
    the places of the two nodes. *)
Lemma distance_euclidean d other : distance d other = euclidean (position d) (position other).
Proof. unfold distance, euclidean, position. cbn [fst snd]. by rewrite !orZero_coordinate. Qed.

Lemma scanStep_eq d found other :
  scanStep d found other = if isCandidate d other then Some (id other) else found.
Proof.
  unfold scanStep, isCandidate, minDistance. rewrite distance_euclidean.
  by destruct (bool_decide _), (bool_decide _), (_ <? _)%float.
Qed.

Lemma fold_scanStep d nodes found :
  fold_left (scanStep d) nodes found
  = match last (List.filter (isCandidate d) nodes) with
    | Some g => Some (id g)
    | None => found
    end.
Proof.
  revert found. induction nodes as [|other nodes IH]; intros found; [done|].
  cbn [fold_left List.filter]. rewrite IH, scanStep_eq.
  destruct (isCandidate d other); [|done].
  rewrite last_cons. by destruct (last _).
Qed.

Lemma scan_last d nodes : scan d nodes = id <$> last (List.filter (isCandidate d) nodes).
Proof. unfold scan. rewrite fold_scanStep. by destruct (last _). Qed.

Lemma isCandidate_setPin px py d : isCandidate (setPin px py d) = isCandidate d.
Proof. done. Qed.

(** A move of a leaf whose lookup of the circle does not throw, or that
    makes no lookup. *)
Lemma onDrag_note selected event d rf :
  type d = note →
  selected ≠ SyntaxError
  ∨ truthyId (id <$> last (List.filter (isCandidate d) (nodesRef rf))) = None →
  (onDrag selected event d rf).1
  = (setPin (Num (Event.x event)) (Num (Event.y event)) d,
     setHoverTarget (id <$> last (List.filter (isCandidate d) (nodesRef rf))) rf).
Proof.
  intros Hd Hsel. unfold onDrag. cbn [type setPin]. rewrite decide_True by done.
  rewrite scan_last, isCandidate_setPin.
  destruct (truthyId _); [|done]. destruct Hsel as [Hsel|?]; [|done].
  by destruct selected.
Qed.

(** A move of a leaf whose lookup of the circle throws. *)
Lemma onDrag_throw event d rf (c : string) :
  type d = note →
  truthyId (id <$> last (List.filter (isCandidate d) (nodesRef rf))) = Some c →
  onDrag SyntaxError event d rf
  = (setPin (Num (Event.x event)) (Num (Event.y event)) d, rf,
     [ResetStrokes; Throw (circleSelector c)]).
Proof.
  intros Hd Hc. unfold onDrag. cbn [type setPin]. rewrite decide_True by done.
  by rewrite scan_last, isCandidate_setPin, Hc.
Qed.

Lemma onDrag_other selected event d rf :
  type d ≠ note →
  onDrag selected event d rf
  = (setPin (Num (Event.x event)) (Num (Event.y event)) d, rf, []).
Proof. intros Hd. unfold onDrag. cbn [type setPin]. by rewrite decide_False. Qed.

(** *** What the handlers and the engine leave alone *)

Lemma static_setPin px py d : static (setPin px py d) = static d.
Proof. done. Qed.

Lemma placeFrom_static i (p : Placement) nodes :
  static <$> placeFrom i p nodes = static <$> nodes.
Proof. revert i. induction nodes as [|d nodes IH]; intros i; simpl; [done|]. by rewrite IH. Qed.

Lemma insert_static nodes i d d1 :
  nodes !! i = Some d → static d1 = static d →
  static <$> <[i := d1]> nodes = static <$> nodes.
Proof.
  intros Hi Hd. rewrite list_fmap_insert, Hd. apply list_insert_id.
  by rewrite list_lookup_fmap, Hi.
Qed.

Lemma static_lookup nodes nodes' i d :
  static <$> nodes' = static <$> nodes → nodes !! i = Some d →
  ∃ d', nodes' !! i = Some d' ∧ static d' = static d.
Proof.
  intros Hs Hi.
  assert ((static <$> nodes') !! i = Some (static d)) as H.
  { by rewrite Hs, list_lookup_fmap, Hi. }
  rewrite list_lookup_fmap in H. destruct (nodes' !! i) as [d'|]; [|done].
  apply (inj Some) in H. eauto.
Qed.

Lemma atNode_Some (h : Handler) event i rf rf' effects :
  atNode h event i rf = Some (rf', effects) →
  ∃ d, nodesRef rf !! i = Some d
       ∧ rf' = setNodes (<[i := (h event d rf).1.1]> (nodesRef (h event d rf).1.2))
                        (h event d rf).1.2
       ∧ effects = (h event d rf).2.
Proof.
  unfold atNode. destruct (nodesRef rf !! i) as [d|]; [|done]. simpl.
  destruct (h event d rf) as [[d1 rf1] e] eqn:E. intros [= <- <-].
  exists d. by rewrite E.
Qed.

Lemma reparents_app effects1 effects2 :
  reparents (effects1 ++ effects2) = reparents effects1 ++ reparents effects2.
Proof. apply List.filter_app. Qed.

Lemma onDragStart_frame event d rf :
  (onDragStart event d rf).1 = (setPin (x d) (y d) d, setHoverTarget None rf)
  ∧ reparents (onDragStart event d rf).2 = [].
Proof. unfold onDragStart. by destruct (Nat.eqb _ _). Qed.

Lemma onDrag_frame selected event d rf :
  (onDrag selected event d rf).1.1 = setPin (Num (Event.x event)) (Num (Event.y event)) d
  ∧ nodesRef (onDrag selected event d rf).1.2 = nodesRef rf
  ∧ onReparentRef (onDrag selected event d rf).1.2 = onReparentRef rf
  ∧ reparents (onDrag selected event d rf).2 = [].
Proof.
  unfold onDrag. destruct (decide _); [|done].
  destruct (truthyId _); [|done]. by destruct selected.
Qed.

Lemma reparents_reparentCall d rf : reparents (reparentCall d rf) = reparentCall d rf.
Proof.
  unfold reparentCall. destruct (decide _); [|done].
  destruct (truthyId (hoverTargetRef rf)), (onReparentRef rf); try done.
  by destruct (List.find _ _), (truthyId (noteId d)).
Qed.

Lemma onDragEnd_frame event d rf :
  (onDragEnd event d rf).1 = (setPin Null Null d, setHoverTarget None rf)
  ∧ reparents (onDragEnd event d rf).2 = reparentCall d rf.
Proof.
  unfold onDragEnd. split; [done|]. cbn [snd].
  rewrite !reparents_app, reparents_reparentCall. by destruct (Nat.eqb _ _).
Qed.

(** *** The lookup of a pointer-up *)

Lemma truthyId_Some (t : string) : t ≠ "" → truthyId (Some t) = Some t.
Proof. intros Ht. unfold truthyId, truthy. by rewrite bool_decide_eq_true_2. Qed.

Lemma truthyId_inv (o : option string) (t : string) :
  truthyId o = Some t → o = Some t ∧ t ≠ "".
Proof.
  destruct o as [s|]; [|done]. unfold truthyId, truthy.
  case_bool_decide; [|done]. by intros [= ->].
Qed.

Lemma find_hasId_Some (t : string) nodes g :
  List.find (hasId t) nodes = Some g → g ∈ nodes ∧ id g = t.
Proof.
  intros [H1 H2]%List.find_some.
  split; [by apply list_elem_of_In | by apply bool_decide_eq_true in H2].
Qed.

Lemma find_hasId_None (t : string) nodes :
  t ∉ id <$> nodes → List.find (hasId t) nodes = None.
Proof.
  intros Ht. destruct (List.find (hasId t) nodes) as [g|] eqn:E; [|done].
  apply find_hasId_Some in E as [Hg <-]. exfalso. by apply Ht, list_elem_of_fmap_2.
Qed.

(** With pairwise distinct ids the lookup by id finds the node itself. *)
Lemma find_hasId_unique nodes g :
  NoDup (id <$> nodes) → g ∈ nodes → List.find (hasId (id g)) nodes = Some g.
Proof.
  induction nodes as [|d nodes IH]; intros Hnd Hg.
  - by apply elem_of_nil in Hg.
  - rewrite fmap_cons in Hnd. apply NoDup_cons in Hnd as [Hfresh Hnd].
    cbn [List.find]. unfold hasId at 1.
    apply elem_of_cons in Hg as [->|Hg].
    + by rewrite bool_decide_eq_true_2.
    + rewrite bool_decide_eq_false_2; [by apply IH|].
      intros E. apply Hfresh. rewrite E. by apply list_elem_of_fmap_2.
Qed.

Lemma reparentCall_cb d rf cb a b c :
  Reparent cb a b c ∈ reparentCall d rf → onReparentRef rf = Some cb.
Proof.
  unfold reparentCall. destruct (decide _); [|by intros ?%elem_of_nil].
  destruct (truthyId (hoverTargetRef rf)), (onReparentRef rf) as [cb'|];
    try by intros ?%elem_of_nil.
  destruct (List.find _ _), (truthyId (noteId d)); try by intros ?%elem_of_nil.
  intros H%list_elem_of_singleton. by injection H as -> _ _ _.
Qed.

Lemma elem_of_reparents (e : Effect) effects :
  e ∈ reparents effects ↔ e ∈ effects ∧ isReparent e = true.
Proof. unfold reparents. by rewrite !list_elem_of_In, List.filter_In. Qed.

(** *** Steps of a gesture *)

Lemma step_sound i (s : Step) rf rf' effects :
  step i s rf = Some (rf', effects) →
  static <$> nodesRef rf' = static <$> nodesRef rf
  ∧ reparents effects = []
  ∧ onReparentRef rf' = latestCallback [s] (onReparentRef rf)
  ∧ (∀ d, nodesRef rf !! i = Some d → type d ≠ note →
       hoverTargetRef rf' = hoverTargetRef rf).
Proof.
  destruct s as [event selected|p|cb]; simpl.
  - intros (d & Hd & -> & ->)%atNode_Some.
    destruct (onDrag_frame selected event d rf) as (Hd1 & Hnodes & Hcb & Heff).
    cbn [nodesRef onReparentRef hoverTargetRef setNodes].
    rewrite Hd1, Hnodes. repeat split; [|done..|].
    + by apply (insert_static _ _ d).
    + intros d' Hd' Htype. assert (d' = d) as -> by congruence.
      by rewrite onDrag_other.
  - intros [= <- <-]. cbn. by rewrite placeFrom_static.
  - by intros [= <- <-].
Qed.

Lemma steps_sound i ss rf rf' effects :
  steps i ss rf = Some (rf', effects) →
  static <$> nodesRef rf' = static <$> nodesRef rf
  ∧ reparents effects = []
  ∧ onReparentRef rf' = latestCallback ss (onReparentRef rf)
  ∧ (∀ d, nodesRef rf !! i = Some d → type d ≠ note →
       hoverTargetRef rf' = hoverTargetRef rf).
Proof.
  revert rf effects. induction ss as [|s ss IH]; intros rf effects.
  - by intros [= <- <-].
  - cbn [steps]. destruct (step i s rf) as [[rf1 e1]|] eqn:E1; [|done]. cbn.
    destruct (steps i ss rf1) as [[rf2 e2]|] eqn:E2; [|done]. cbn.
    intros [= <- <-].
    apply step_sound in E1 as (Hs1 & He1 & Hc1 & Hh1).
    apply IH in E2 as (Hs2 & He2 & Hc2 & Hh2).
    repeat split.
    + by rewrite Hs2.
    + by rewrite reparents_app, He1, He2.
    + rewrite Hc2, Hc1. done.
    + intros d Hd Htype. rewrite <- (Hh1 d Hd Htype).
      destruct (static_lookup _ _ _ _ Hs1 Hd) as (d1 & Hd1 & Hst).
      apply (Hh2 d1 Hd1). unfold static in Hst. congruence.
Qed.

Lemma start_sound i down rf rf' effects :
  atNode onDragStart down i rf = Some (rf', effects) →
  static <$> nodesRef rf' = static <$> nodesRef rf
  ∧ reparents effects = []
  ∧ onReparentRef rf' = onReparentRef rf
  ∧ hoverTargetRef rf' = None.
Proof.
  intros (d & Hd & -> & ->)%atNode_Some.
  destruct (onDragStart_frame down d rf) as [H1 H2]. rewrite H2.
  destruct (onDragStart down d rf) as [[d1 rf1] e]. simpl in *.
  injection H1 as -> ->. repeat split. by apply (insert_static _ _ d).
Qed.

Lemma end_sound i up rf rf' effects :
  atNode onDragEnd up i rf = Some (rf', effects) →
  ∃ d, nodesRef rf !! i = Some d
       ∧ reparents effects = reparentCall d rf
       ∧ onReparentRef rf' = onReparentRef rf
       ∧ hoverTargetRef rf' = None.
Proof.
  intros (d & Hd & -> & ->)%atNode_Some. exists d.
  destruct (onDragEnd_frame up d rf) as [H1 H2]. rewrite H2.
  destruct (onDragEnd up d rf) as [[d1 rf1] e]. simpl in *.
  by injection H1 as -> ->.
Qed.

Lemma gesture_Some i down ss up rf rf' effects :
  gesture i down ss up rf = Some (rf', effects) →
  ∃ rf1 e1 rf2 e2 e3,
    atNode onDragStart down i rf = Some (rf1, e1)
    ∧ steps i ss rf1 = Some (rf2, e2)
    ∧ atNode onDragEnd up i rf2 = Some (rf', e3)
    ∧ effects = e1 ++ e2 ++ e3.
Proof.
  unfold gesture.
  destruct (atNode onDragStart down i rf) as [[rf1 e1]|]; [|done]. cbn.
  destruct (steps i ss rf1) as [[rf2 e2]|] eqn:E2; [|done]. cbn.
  destruct (atNode onDragEnd up i rf2) as [[rf3 e3]|] eqn:E3; [|done]. cbn.
  intros [= <- <-]. by exists rf1, e1, rf2, e2, e3.
Qed.

Lemma gesture_run i down ss up rf rf1 e1 rf2 e2 rf3 e3 :
  atNode onDragStart down i rf = Some (rf1, e1) →
  steps i ss rf1 = Some (rf2, e2) →
  atNode onDragEnd up i rf2 = Some (rf3, e3) →
  gesture i down ss up rf = Some (rf3, e1 ++ e2 ++ e3).
Proof. intros H1 H2 H3. unfold gesture. rewrite H1. cbn. rewrite H2. cbn. by rewrite H3. Qed.

(** The calls of a whole gesture are those of its pointer-up, made on the
    refs as the steps left them. *)
Lemma gesture_reparents i down ss up rf rf' effects :
  gesture i down ss up rf = Some (rf', effects) →
  ∃ rf1 e1 rf2 e2 d2,
    atNode onDragStart down i rf = Some (rf1, e1)
    ∧ steps i ss rf1 = Some (rf2, e2)
    ∧ nodesRef rf2 !! i = Some d2
    ∧ reparents effects = reparentCall d2 rf2
    ∧ hoverTargetRef rf' = None.
Proof.
  intros (rf1 & e1 & rf2 & e2 & e3 & Hstart & Hsteps & Hend & ->)%gesture_Some.
  destruct (end_sound _ _ _ _ _ Hend) as (d2 & Hd2 & He3 & _ & Hh).
  destruct (start_sound _ _ _ _ _ Hstart) as (_ & He1 & _).
  destruct (steps_sound _ _ _ _ _ Hsteps) as (_ & He2 & _).
  exists rf1, e1, rf2, e2, d2. repeat split; [done..| |done].
  by rewrite !reparents_app, He1, He2, He3.
Qed.

End Drag.

(** ** The properties of the specification *)

Section Properties.

Implicit Types (clusters : list Types.ClusterNode) (d old g : D3Node).
Implicit Types (prev nodes : list D3Node) (rf : Refs) (k : string).
Implicit Types (event down up : Event.t) (ss : list Step) (effects : list Effect).

(** *** The synchronizer *)

(** C3. Rebuilding twice over the same tree, the second time over the
    generation the first call left, gives the same generation again: every
    node keeps its [x], [y], [vx], [vy] (and everything else).  The merge
    gives each emitted node the four members of the prior node under its id,
    the last one if the id is repeated, and leaves a node without a prior
    match unseeded. *)
Theorem rebuild_continuity clusters prev :
  rebuild clusters (rebuild clusters prev).1 = rebuild clusters prev
  ∧ ∀ d, d ∈ (rebuild clusters prev).1 →
      physics d = match lastWithId (id d) prev with
                  | Some old => physics old
                  | None => unseeded
                  end.
Proof. split; [apply rebuild_idempotent | apply rebuild_physics]. Qed.

Lemma rebuild_continuity_witness :
  let prev := nodesRef (started (twoGroups (Some "n1_leafRef")) viewport None) in
  let d := place (at_ 250 300) (noteNode (group "g1" "AI" []) (leaf "n1" "First" (Some "n1_leafRef"))) in
  d ∈ (rebuild (twoGroups (Some "n1_leafRef")) prev).1
  ∧ physics d = at_ 250 300.
Proof.
  intros prev d.
  assert (d ∈ (rebuild (twoGroups (Some "n1_leafRef")) prev).1) as Hd.
  { vm_compute. do 2 apply list_elem_of_further. apply list_elem_of_here. }
  split; [exact Hd|].
  exact (proj2 (rebuild_continuity (twoGroups (Some "n1_leafRef")) prev) d Hd).
Defined.

(** With an id carried by two nodes that the engine has moved apart, the
    first of them jumps to the place of the last. *)
Example moved_duplicates_collapse :
  let tree := [group "a" "A" [leaf "a" "Leaf" (Some "ref")]] in
  let prev := placeFrom 0 layout (rebuild tree []).1 in
  physics <$> prev = [at_ 400 300; at_ 300 300; at_ 250 300]
  ∧ physics <$> (rebuild tree prev).1 = [at_ 400 300; at_ 250 300; at_ 250 300].
Proof. split; vm_compute; reflexivity. Qed.

(** C6. For a non-empty tree the rebuilt generation has exactly one node of
    kind root, and it has no [noteId]. *)
Theorem root_invariant clusters prev :
  clusters ≠ [] →
  ∃ rt, List.filter isRoot (rebuild clusters prev).1 = [rt] ∧ noteId rt = None.
Proof.
  intros _. exists (mergeNode (existingNodesMap prev) rootNode).
  split; [apply roots_rebuild|]. apply mergeNode_frame.
Qed.

Lemma root_invariant_witness :
  twoGroups None ≠ []
  ∧ ∃ rt, List.filter isRoot (rebuild (twoGroups None) (nodesRef midDrag)).1 = [rt]
          ∧ noteId rt = None.
Proof.
  assert (twoGroups None ≠ []) as H by done.
  split; [exact H|]. exact (root_invariant (twoGroups None) (nodesRef midDrag) H).
Defined.

(** C7. For the empty tree, the rebuild gives one node, of kind root, and
    no link; the effect that starts the engine does nothing: the refs are
    as before and nothing is drawn. *)
Theorem empty_tree prev svg container rf :
  (∃ rt, rebuild [] prev = ([rt], []) ∧ type rt = root)
  ∧ graphEffect [] svg container rf = Some (rf, []).
Proof.
  split.
  - exists (mergeNode (existingNodesMap prev) rootNode). split; [done|].
    apply mergeNode_frame.
  - unfold graphEffect. by destruct container.
Qed.

(** C9. Repeated ids do not make the rebuild or the start of the engine
    fail: every emitted node is kept, at its place, and the effect returns.
    The lookup of the merge answers, for every id, with the last node of
    the prior generation that carries it. *)
Theorem duplicate_ids_last_write_wins clusters prev :
  (∀ k, existingNodesMap prev !! k = lastWithId k prev)
  ∧ (rebuild clusters prev).1 = mergeNode (existingNodesMap prev) <$> freshNodes clusters
  ∧ length (rebuild clusters prev).1 = length (freshNodes clusters)
  ∧ ∀ svg container rf, is_Some (graphEffect clusters svg container rf).
Proof.
  split; [intros k; apply existingNodesMap_lookup|].
  split; [apply rebuild_nodes|].
  split; [by rewrite rebuild_nodes, length_fmap|].
  intros svg container rf. apply graphEffect_total.
Qed.

(** C10. A rebuilt node differs from the node just emitted in [x], [y],
    [vx], [vy] only; in particular its [fx] and [fy] are absent, whatever
    the prior generation pinned. *)
Theorem rebuild_unpinned clusters prev i d :
  (rebuild clusters prev).1 !! i = Some d →
  fx d = Undefined ∧ fy d = Undefined
  ∧ ∃ d0, freshNodes clusters !! i = Some d0
          ∧ static d = static d0 ∧ index d = index d0.
Proof.
  intros (d0 & Hd0 & ->)%rebuild_lookup.
  destruct (mergeNode_frame (existingNodesMap prev) d0)
    as (? & ? & ? & ? & ? & ? & Hfx & Hfy & ?).
  destruct (freshNodes_fresh d0 clusters) as (_ & Hfx0 & Hfy0 & _).
  { by apply list_elem_of_lookup_2 in Hd0. }
  rewrite Hfx, Hfy. repeat split; [done..|].
  exists d0. unfold static. split; [done|]. split; congruence.
Qed.

Lemma rebuild_unpinned_witness :
  let tree := twoGroups (Some "n1_leafRef") in
  let d := place (at_ 250 300) (noteNode (group "g1" "AI" []) (leaf "n1" "First" (Some "n1_leafRef"))) in
  (fx <$> nodesRef midDrag !! 2 = Some (Num 250) ∧ (rebuild tree (nodesRef midDrag)).1 !! 2 = Some d)
  ∧ fx d = Undefined ∧ fy d = Undefined.
Proof.
  intros tree d.
  assert ((rebuild tree (nodesRef midDrag)).1 !! 2 = Some d) as Hd by (vm_compute; reflexivity).
  split; [split; [vm_compute; reflexivity | exact Hd]|].
  destruct (rebuild_unpinned tree (nodesRef midDrag) 2 d Hd) as (Hfx & Hfy & _).
  split; [exact Hfx | exact Hfy].
Defined.

(** *** The start of the engine *)

Lemma graphEffect_run clusters (c : Container) rf :
  clusters ≠ [] →
  ∃ links,
    resolveLinks (rebuild clusters (nodesRef rf)).1 (rebuild clusters (nodesRef rf)).2
    = Some links
    ∧ graphEffect clusters true (Some c) rf
      = Some (mkRefs (Some (forceSimulation (clientWidth c) (clientHeight c)))
                     (rebuild clusters (nodesRef rf)).1 links
                     (hoverTargetRef rf) (onReparentRef rf),
              [SvgRemoveAll; SvgDraw (rebuild clusters (nodesRef rf)).1 links]).
Proof.
  intros Hne. destruct (resolveLinks_rebuild clusters (nodesRef rf)) as [links Hl].
  exists links. split; [done|]. unfold graphEffect.
  destruct clusters as [|c0 clusters]; [done|]. cbn [length Nat.eqb negb orb].
  unfold updateGraphData. cbn [nodesRef linksRef hoverTargetRef onReparentRef].
  by rewrite Hl.
Qed.

(** C5, as the code has it.  The engine is set up with these forces,
    whatever the viewport.  The links it is given are the emitted ones with
    both ends resolved.  Every link from a group to one of its leaves has
    distance 60.  Every link from the root to a group has distance 120 when
    no group and no leaf of the tree is itself called ["root"].  The charge
    strength is the constant -400; the collision radius of a node is its
    radius times 1.5, with 2 iterations; the centering strength is 0.1. *)
Theorem force_configuration clusters (c : Container) rf rf' effects :
  clusters ≠ [] →
  graphEffect clusters true (Some c) rf = Some (rf', effects) →
  ∃ sim, simulationRef rf' = Some sim
    ∧ mapM (resolveLink (nodeById 0 (nodesRef rf') ∅)) (freshLinks clusters)
      = Some (linksRef rf')
    ∧ (∀ gr : Types.ClusterNode, gr ∈ clusters →
         (∀ n, n ∈ childrenOf gr →
            ∃ l, l ∈ linksRef rf'
                 ∧ resolveLink (nodeById 0 (nodesRef rf') ∅) (noteLink gr n) = Some l
                 ∧ linkDistance sim (nodesRef rf') l = 60%float)
         ∧ (rootId ∉ id <$> (clusters ≫= clusterNodes) →
            ∃ l, l ∈ linksRef rf'
                 ∧ resolveLink (nodeById 0 (nodesRef rf') ∅) (rootLink gr) = Some l
                 ∧ linkDistance sim (nodesRef rf') l = 120%float))
    ∧ chargeStrength sim = (-400)%float
    ∧ (∀ d, collideRadius sim d = (r d * 1.5)%float)
    ∧ collideIterations sim = 2
    ∧ centerStrength sim = 0.1%float.
Proof.
  intros Hne Hrun. destruct (graphEffect_run clusters c rf Hne) as (links & Hl & Heq).
  rewrite Heq in Hrun. injection Hrun as Hrf _. subst rf'.
  eexists. split; [done|]. cbn [nodesRef linksRef linkDistance forceSimulation].
  unfold resolveLinks in Hl. rewrite rebuild_links in Hl.
  split; [done|]. split; [|done].
  assert (∀ l0 l, l0 ∈ freshLinks clusters →
            resolveLink (nodeById 0 (rebuild clusters (nodesRef rf)).1 ∅) l0 = Some l →
            l ∈ links) as Hin.
  { intros l0 l [k Hk]%list_elem_of_lookup Hres.
    apply mapM_Some in Hl.
    destruct (Forall2_lookup_l _ _ _ _ _ Hl Hk) as (l' & Hl' & Hres').
    assert (l' = l) as -> by congruence. by eapply list_elem_of_lookup_2. }
  intros gr Hg.
  destruct (started_distances clusters (nodesRef rf) gr Hg) as [Hleaf Hgroup]. split.
  - intros n Hn. destruct (Hleaf n Hn) as (l & Hres & Hdist).
    exists l. split; [|done]. apply (Hin (noteLink gr n)); [|done].
    apply elem_of_freshLinks. exists gr. split; [done|]. right. by exists n.
  - intros Hroot. destruct (Hgroup Hroot) as (l & Hres & Hdist).
    exists l. split; [|done]. apply (Hin (rootLink gr)); [|done].
    apply elem_of_freshLinks. exists gr. split; [done|]. by left.
Qed.

Lemma force_configuration_witness :
  let tree := twoGroups None in
  let rf := started tree viewport None in
  let g1 := group "g1" "AI" [leaf "n1" "First" None; leaf "n2" "Second" (Some "n2_leafRef")] in
  (tree ≠ [] ∧ g1 ∈ tree ∧ leaf "n1" "First" None ∈ childrenOf g1
   ∧ rootId ∉ id <$> (tree ≫= clusterNodes))
  ∧ ∃ sim, simulationRef rf = Some sim
           ∧ chargeStrength sim = (-400)%float
           ∧ collideRadius sim (nodeAt 1 rf) = 37.5%float
           ∧ collideIterations sim = 2
           ∧ centerStrength sim = 0.1%float
           ∧ (∃ l, l ∈ linksRef rf ∧ l = mkD3Link (EndNode 1) (EndNode 2)
                   ∧ linkDistance sim (nodesRef rf) l = 60%float)
           ∧ (∃ l, l ∈ linksRef rf ∧ l = mkD3Link (EndNode 0) (EndNode 1)
                   ∧ linkDistance sim (nodesRef rf) l = 120%float)
           ∧ (linkDistance sim (nodesRef rf) <$> linksRef rf) = [120; 60; 60; 120]%float
           ∧ linkDistance sim (nodesRef rf) (mkD3Link (EndId "root") (EndId "g1")) = 60%float.
Proof.
  intros tree rf g1.
  assert (tree ≠ []) as Hne by done.
  assert (g1 ∈ tree) as Hg1 by apply list_elem_of_here.
  assert (leaf "n1" "First" None ∈ childrenOf g1) as Hn1 by apply list_elem_of_here.
  assert (rootId ∉ id <$> (tree ≫= clusterNodes)) as Hroot.
  { vm_compute. intros Hin.
    repeat (apply elem_of_cons in Hin as [Hin|Hin]; [discriminate Hin|]).
    by apply elem_of_nil in Hin. }
  split; [done|].
  destruct (graphEffect tree true (Some viewport) (initialRefs None))
    as [[rf' effects]|] eqn:Hrun; [|by vm_compute in Hrun].
  destruct (force_configuration _ _ _ _ _ Hne Hrun)
    as (sim & Hsim & _ & Hlinks & Hcharge & Hcollide & Hit & Hc).
  destruct (Hlinks g1 Hg1) as [Hleaf Hgroup].
  destruct (Hleaf _ Hn1) as (l1 & Hin1 & Hres1 & Hd1).
  destruct (Hgroup Hroot) as (l0 & Hin0 & Hres0 & Hd0).
  assert (rf = tick layout rf') as Erf by (unfold rf, started; by rewrite Hrun).
  assert (linksRef rf = linksRef rf') as El by by rewrite Erf.
  assert (∀ l, linkDistance sim (nodesRef rf) l = linkDistance sim (nodesRef rf') l) as Ed.
  { intros l. rewrite Erf. vm_compute in Hrun. injection Hrun as Hrf _. subst rf'.
    injection Hsim as Hsim. subst sim. clear. by destruct l as [[?|[|[|[|[|[|?]]]]]] ?]. }
  exists sim. split; [by rewrite Erf|]. split; [exact Hcharge|].
  split; [rewrite Hcollide; vm_compute; reflexivity|].
  split; [exact Hit|]. split; [exact Hc|].
  split; [|split].
  - exists l1. rewrite El, Ed. split; [done|]. split; [|done].
    vm_compute in Hrun. injection Hrun as Hrf _. subst rf'.
    vm_compute in Hres1. by injection Hres1.
  - exists l0. rewrite El, Ed. split; [done|]. split; [|done].
    vm_compute in Hrun. injection Hrun as Hrf _. subst rf'.
    vm_compute in Hres0. by injection Hres0.
  - rewrite Erf. vm_compute in Hrun. injection Hrun as Hrf _. subst rf'.
    injection Hsim as Hsim. subst sim. split; vm_compute; reflexivity.
Defined.

(** C5 as stated fails: in a tree with a group called ["root"] the link
    force resolves the source of the link from the root to that group to
    the group itself, the last node under the id, and the link gets the
    distance 60. *)
Lemma root_named_group_measures_60 :
  let tree := [group "root" "Misc" [leaf "n1" "First" None]] in
  ∃ rf' effects sim,
    graphEffect tree true (Some viewport) (initialRefs None) = Some (rf', effects)
    ∧ simulationRef rf' = Some sim
    ∧ (λ d, (id d, type d)) <$> nodesRef rf' = [("root", root); ("root", cluster); ("n1", note)]
    ∧ freshLinks tree = [mkD3Link (EndId "root") (EndId "root"); mkD3Link (EndId "root") (EndId "n1")]
    ∧ linksRef rf' = [mkD3Link (EndNode 1) (EndNode 1); mkD3Link (EndNode 1) (EndNode 2)]
    ∧ linkDistance sim (nodesRef rf') <$> linksRef rf' = [60; 60]%float.
Proof.
  eexists _, _, _. split; [vm_compute; reflexivity|].
  split; [vm_compute; reflexivity|].
  repeat split; vm_compute; reflexivity.
Qed.

(** C8, as the code has it.  The viewport does not enter the guard: over a
    non-empty tree, with the svg and the container mounted, the effect
    rebuilds, creates the engine and draws, whatever the width and the
    height.  The centre is the half of each, so for a zero width or height
    it is 0 and nothing is divided by zero.  The effect does nothing exactly
    when the tree is empty or the svg or the container is missing. *)
Theorem start_guard clusters svg container rf :
  (clusters = [] ∨ svg = false ∨ container = None →
     graphEffect clusters svg container rf = Some (rf, []))
  ∧ (∀ c, clusters ≠ [] → svg = true → container = Some c →
       ∃ links,
         graphEffect clusters svg container rf
         = Some (mkRefs (Some (forceSimulation (clientWidth c) (clientHeight c)))
                        (rebuild clusters (nodesRef rf)).1 links
                        (hoverTargetRef rf) (onReparentRef rf),
                 [SvgRemoveAll; SvgDraw (rebuild clusters (nodesRef rf)).1 links]))
  ∧ (∀ w h, centerX (forceSimulation w h) = (w / 2)%float
            ∧ centerY (forceSimulation w h) = (h / 2)%float)
  ∧ centerX (forceSimulation 0 0) = 0%float
  ∧ centerY (forceSimulation 0 0) = 0%float.
Proof.
  split; [|split; [|done]].
  - unfold graphEffect. intros [-> | [-> | ->]]; [by destruct container| |done].
    destruct container; [|done]. by rewrite orb_true_r.
  - intros c Hne -> ->. destruct (graphEffect_run clusters c rf Hne) as (links & _ & H).
    eauto.
Qed.

Lemma start_guard_witness :
  (([] : list Types.ClusterNode) = [] ∨ true = false ∨ Some viewport = None)
  ∧ graphEffect [] true (Some viewport) midDrag = Some (midDrag, []).
Proof.
  assert (([] : list Types.ClusterNode) = [] ∨ true = false ∨ Some viewport = None) as H
    by (left; reflexivity).
  split; [exact H|]. exact (proj1 (start_guard [] true (Some viewport) midDrag) H).
Defined.

(** C8 as stated fails: in a viewport of width and height 0 the effect
    creates the engine, centred at (0, 0), and draws. *)
Lemma zero_viewport_starts :
  graphEffect (twoGroups None) true (Some (mkContainer 0 0)) (initialRefs None)
  ≠ Some (initialRefs None, [])
  ∧ ∃ rf' effects sim,
      graphEffect (twoGroups None) true (Some (mkContainer 0 0)) (initialRefs None)
      = Some (rf', effects)
      ∧ simulationRef rf' = Some sim
      ∧ (centerX sim, centerY sim) = (0, 0)%float
      ∧ effects = [SvgRemoveAll; SvgDraw (nodesRef rf') (linksRef rf')]
      ∧ length (nodesRef rf') = 5.
Proof.
  split.
  - intros H. vm_compute in H. discriminate H.
  - eexists _, _, _. split; [vm_compute; reflexivity|].
    split; [vm_compute; reflexivity|].
    repeat split; vm_compute; reflexivity.
Qed.

(** *** The drag controller *)

(** The call of a pointer-up names the first node of the array that
    carries the recorded id. *)
Lemma drag_end_first_match event d rf (t : string) (cb : Callback) (ref : string) g :
  type d = note →
  hoverTargetRef rf = Some t → t ≠ "" → onReparentRef rf = Some cb →
  noteId d = Some ref → ref ≠ "" →
  List.find (hasId t) (nodesRef rf) = Some g →
  reparents (onDragEnd event d rf).2 = [Reparent cb ref t (name g)].
Proof.
  intros Hd Ht Hne Hcb Href Hrne Hfind.
  destruct (onDragEnd_frame event d rf) as [_ ->].
  unfold reparentCall. rewrite decide_True by done.
  rewrite Ht, Hcb, Href, !truthyId_Some, Hfind by done.
  by apply find_hasId_Some in Hfind as [_ ->].
Qed.

(** A move of a leaf followed by its release: with pairwise distinct ids,
    a registered callback, a leaf that has a [noteId] and a lookup of the
    circle that does not throw, the callback is called once for the last
    candidate group of the move, if its id is not empty, and not at all
    when the move found no candidate. *)
Lemma drop_contract i selected event up rf d rf1 e1 rf2 e2 (cb : Callback) (ref : string) :
  nodesRef rf !! i = Some d → type d = note →
  noteId d = Some ref → ref ≠ "" → onReparentRef rf = Some cb →
  NoDup (id <$> nodesRef rf) →
  selected ≠ SyntaxError →
  atNode (onDrag selected) event i rf = Some (rf1, e1) →
  atNode onDragEnd up i rf1 = Some (rf2, e2) →
  reparents (e1 ++ e2)
  = match last (List.filter (isCandidate d) (nodesRef rf)) with
    | Some g => if truthy (id g) then [Reparent cb ref (id g) (name g)] else []
    | None => []
    end.
Proof.
  intros Hd Htype Href Hrne Hcb Hnd Hsel Hmove Hup.
  apply atNode_Some in Hmove as (d0 & Hd0 & -> & ->).
  assert (d0 = d) as -> by congruence.
  destruct (onDrag_frame selected event d rf) as (Hd1 & Hnodes & Hslot & He1).
  pose proof (onDrag_note selected event d rf Htype (or_introl Hsel)) as Hmove.
  destruct (onDrag selected event d rf) as [[d1 rf1] e1]. cbn [fst snd] in *.
  injection Hmove as -> ->. cbn [nodesRef setHoverTarget] in *.
  set (nodes1 := <[i := setPin (Num (Event.x event)) (Num (Event.y event)) d]> (nodesRef rf)).
  assert (static <$> nodes1 = static <$> nodesRef rf) as Hst
    by by apply (insert_static _ _ d).
  assert (id <$> nodes1 = id <$> nodesRef rf) as Hids.
  { assert (∀ l : list D3Node, id <$> l = (λ p, p.1.1.1.1.1) <$> (static <$> l)) as E
      by (intros l; by rewrite <- list_fmap_compose).
    by rewrite !E, Hst. }
  apply end_sound in Hup as (d2 & Hd2 & He2 & _). cbn [nodesRef setNodes] in Hd2.
  assert (d2 = setPin (Num (Event.x event)) (Num (Event.y event)) d) as ->.
  { unfold nodes1 in Hd2. rewrite list_lookup_insert_eq in Hd2; [congruence|].
    by apply lookup_lt_Some in Hd. }
  rewrite reparents_app, He1, He2. cbn [app].
  unfold reparentCall. cbn [type noteId setPin hoverTargetRef onReparentRef
                             nodesRef setNodes setHoverTarget].
  rewrite decide_True, Hcb, Href, (truthyId_Some ref) by done.
  destruct (last (List.filter (isCandidate d) (nodesRef rf))) as [g|] eqn:Hlast; [|done].
  cbn [fmap option_fmap option_map truthyId]. destruct (truthy (id g)); [|done].
  apply last_Some_elem_of, list_elem_of_In, List.filter_In in Hlast as [Hg Hcand].
  apply list_elem_of_In, list_elem_of_lookup in Hg as [j Hj].
  assert (i ≠ j) as Hij.
  { intros <-. assert (g = d) as -> by congruence.
    unfold isCandidate in Hcand. rewrite Htype in Hcand. done. }
  assert (g ∈ nodes1) as Hg1.
  { apply list_elem_of_lookup. exists j. unfold nodes1. by rewrite list_lookup_insert_ne. }
  fold nodes1. rewrite find_hasId_unique; [done| |done]. by rewrite Hids.
Qed.

(** C1, as the code has it.  At the pointer-up of a leaf the hover target
    is reset.  When no target was recorded the callback is not called.
    When a non-empty target id was recorded, a callback is registered, the
    leaf has a non-empty [noteId] and the ids of the array are pairwise
    distinct, the callback is called once, with the leaf's [noteId] and the
    id and the name of the target group.  It is not called when no callback
    is registered, when the leaf has no [noteId] or an empty one, when the
    recorded id is empty, or when no node carries it. *)
Theorem drag_end_reparent event d rf :
  type d = note →
  hoverTargetRef (onDragEnd event d rf).1.2 = None
  ∧ (hoverTargetRef rf = None → reparents (onDragEnd event d rf).2 = [])
  ∧ (∀ t cb ref g,
       hoverTargetRef rf = Some t → t ≠ "" → onReparentRef rf = Some cb →
       noteId d = Some ref → ref ≠ "" →
       NoDup (id <$> nodesRef rf) → g ∈ nodesRef rf → id g = t →
       reparents (onDragEnd event d rf).2 = [Reparent cb ref (id g) (name g)])
  ∧ (onReparentRef rf = None ∨ noteId d = None ∨ noteId d = Some ""
     ∨ hoverTargetRef rf = Some ""
     ∨ (∃ t, hoverTargetRef rf = Some t ∧ t ∉ id <$> nodesRef rf) →
     reparents (onDragEnd event d rf).2 = []).
Proof.
  intros Hd. split; [by destruct (onDragEnd_frame event d rf) as [-> _]|].
  split; [|split].
  - intros Ht. destruct (onDragEnd_frame event d rf) as [_ ->].
    unfold reparentCall. rewrite decide_True by done. by rewrite Ht.
  - intros t cb ref g Ht Hne Hcb Href Hrne Hnd Hg Hid. subst t.
    apply drag_end_first_match; try done. by apply find_hasId_unique.
  - destruct (onDragEnd_frame event d rf) as [_ ->].
    unfold reparentCall. rewrite decide_True by done.
    intros [Hcb | [Href | [Href | [Ht | (t & Ht & Hnot)]]]].
    + rewrite Hcb. by destruct (truthyId _).
    + rewrite Href. destruct (truthyId _), (onReparentRef rf); try done.
      by destruct (List.find _ _).
    + rewrite Href. destruct (truthyId _), (onReparentRef rf); try done.
      by destruct (List.find _ _).
    + by rewrite Ht.
    + destruct (truthyId (hoverTargetRef rf)) as [t'|] eqn:E; [|done].
      apply truthyId_inv in E as [E _]. rewrite Ht in E. injection E as <-.
      destruct (onReparentRef rf); [|done]. by rewrite find_hasId_None.
Qed.

Lemma drag_end_reparent_witness :
  let rf := carried (Some "n1_leafRef") (Some 7) in
  let d := nodeAt 2 rf in
  type d = note
  ∧ hoverTargetRef rf = Some "g2"
  ∧ reparents (onDragEnd (pointer 481 300) d rf).2
    = [Reparent 7 "n1_leafRef" "g2" "Cooking"]
  ∧ hoverTargetRef (onDragEnd (pointer 481 300) d rf).1.2 = None.
Proof.
  intros rf d.
  assert (type d = note) as Hd by (vm_compute; reflexivity).
  assert (hoverTargetRef rf = Some "g2") as Ht by (vm_compute; reflexivity).
  destruct (drag_end_reparent (pointer 481 300) d rf Hd) as (Hreset & _ & Hcall & _).
  split; [exact Hd|]. split; [exact Ht|]. split; [|exact Hreset].
  refine (Hcall "g2" 7 "n1_leafRef" (nodeAt 4 rf) Ht _ _ _ _ _ _ _);
    try (vm_compute; congruence).
  - vm_compute. apply (NoDup_ListNoDup ["root"; "g1"; "n1"; "n2"; "g2"]).
    repeat (constructor; [simpl; intuition congruence|]). constructor.
  - vm_compute. repeat first [apply list_elem_of_here | apply list_elem_of_further].
Defined.

(** C1 as stated fails: a leaf that came without [noteId] is held over g2,
    the target is recorded and a callback is registered, and the pointer-up
    calls nothing. *)
Lemma reparent_needs_leafRef :
  let rf := carried None (Some 7) in
  let d := nodeAt 2 rf in
  type d = note
  ∧ hoverTargetRef rf = Some "g2"
  ∧ onReparentRef rf = Some 7
  ∧ (id (nodeAt 4 rf), name (nodeAt 4 rf), type (nodeAt 4 rf)) = ("g2", "Cooking", cluster)
  ∧ reparents (onDragEnd (pointer 481 300) d rf).2 = []
  ∧ (reparents ∘ snd) <$> gesture 2 (pointer 250 300) carryOverG2 (pointer 481 300)
                            (started (twoGroups None) viewport (Some 7))
    = Some [].
Proof. repeat split; vm_compute; reflexivity. Qed.

(** X30. On a pointer-move of a leaf, take the last node of the array
    that is a group other than the leaf's own and lies nearer than 50 plus
    its radius, by the Euclidean distance of the places of the two nodes.
    When there is no such node the hover target becomes none.  When there
    is one and the lookup of its circle does not throw, or its id is empty
    so that no lookup is made, the hover target becomes its id.  When its
    id is not empty and the lookup throws, the handler is left after the
    reset of the strokes and the hover target stays as it was.  While a
    group or the root is dragged the hover target stays none after the
    pointer-down, through every move, tick and render, and the whole
    gesture calls nothing. *)
Theorem hover_target_scan :
  (∀ selected event d rf,
     type d = note → (∀ other, other ∈ nodesRef rf → isCandidate d other = false) →
     hoverTargetRef (onDrag selected event d rf).1.2 = None)
  ∧ (∀ selected event d rf g,
       type d = note →
       last (List.filter (isCandidate d) (nodesRef rf)) = Some g →
       selected ≠ SyntaxError ∨ id g = "" →
       hoverTargetRef (onDrag selected event d rf).1.2 = Some (id g))
  ∧ (∀ event d rf g,
       type d = note →
       last (List.filter (isCandidate d) (nodesRef rf)) = Some g → id g ≠ "" →
       hoverTargetRef (onDrag SyntaxError event d rf).1.2 = hoverTargetRef rf
       ∧ (onDrag SyntaxError event d rf).2 = [ResetStrokes; Throw (circleSelector (id g))])
  ∧ (∀ i down ss rf d rf1 e1 rf2 e2,
       nodesRef rf !! i = Some d → type d ≠ note →
       atNode onDragStart down i rf = Some (rf1, e1) →
       steps i ss rf1 = Some (rf2, e2) →
       hoverTargetRef rf2 = None
       ∧ ∀ up rf3 e3,
           atNode onDragEnd up i rf2 = Some (rf3, e3) →
           hoverTargetRef rf3 = None ∧ reparents (e1 ++ e2 ++ e3) = []).
Proof.
  split; [|split; [|split]].
  - intros selected event d rf Hd Hnone.
    assert (List.filter (isCandidate d) (nodesRef rf) = []) as Hnil.
    { induction (nodesRef rf) as [|other nodes IH]; [done|].
      cbn [List.filter]. rewrite Hnone by apply list_elem_of_here.
      apply IH. intros other' Hin. by apply Hnone, list_elem_of_further. }
    rewrite onDrag_note; [|done|right; by rewrite Hnil]. cbn. by rewrite Hnil.
  - intros selected event d rf g Hd Hlast Hsel.
    rewrite onDrag_note; [cbn; by rewrite Hlast|done|].
    destruct Hsel as [?|Hid]; [by left|right]. rewrite Hlast. cbn. by rewrite Hid.
  - intros event d rf g Hd Hlast Hid.
    rewrite (onDrag_throw event d rf (id g)); [done..|].
    rewrite Hlast. cbn [fmap option_fmap option_map]. by apply truthyId_Some.
  - intros i down ss rf d rf1 e1 rf2 e2 Hd Htype Hstart Hsteps.
    destruct (start_sound _ _ _ _ _ Hstart) as (Hst1 & He1 & _ & Hh1).
    destruct (steps_sound _ _ _ _ _ Hsteps) as (Hst2 & He2 & _ & Hh2).
    destruct (static_lookup _ _ _ _ Hst1 Hd) as (d1 & Hd1 & Hs1).
    assert (type d1 ≠ note) as Htype1 by (unfold static in Hs1; congruence).
    split; [by rewrite (Hh2 d1 Hd1 Htype1)|].
    intros up rf3 e3 (d2 & Hd2 & He3 & _ & Hh3)%end_sound. split; [done|].
    destruct (static_lookup _ _ _ _ Hst2 Hd1) as (d2' & Hd2' & Hs2).
    assert (d2' = d2) as -> by congruence.
    rewrite !reparents_app, He1, He2, He3. unfold reparentCall.
    rewrite decide_False; [done|]. unfold static in Hs2. congruence.
Qed.

Lemma hover_target_scan_witness :
  let near := heldAt 456 360 in
  let edge := heldAt 455 360 in
  let thrown := heldOverLast slashGroups (Some 7) in
  let missed := heldOverLast blankGroups (Some 7) in
  let idle := started (twoGroups (Some "n1_leafRef")) viewport (Some 7) in
  let ss := [Move (pointer 300 300) (circle "g1"); Tick layout;
             Move (pointer 250 300) (circle "g1")] in
  (type (nodeAt 2 near) = note
   ∧ position (nodeAt 4 near) = (500, 300)%float
   ∧ (euclidean (456, 360) (500, 300) <? 75)%float = true
   ∧ (id <$> List.filter (isCandidate (nodeAt 2 near)) (nodesRef near) = ["g2"]
      ∧ circle "g2" ≠ SyntaxError)
   ∧ hoverTargetRef (onDrag (circle "g2") (pointer 456 360) (nodeAt 2 near) near).1.2
     = Some "g2")
  ∧ (euclidean (455, 360)%float (500, 300)%float = 75%float
     ∧ position (place (Num PrimFloat.nan, Num (-0), Num 0, Num 0)%float (nodeAt 2 edge))
       = (0, 0)%float
     ∧ position (place (Undefined, Null, Num 0, Num 0)%float (nodeAt 2 edge)) = (0, 0)%float
     ∧ (∀ other, other ∈ nodesRef edge → isCandidate (nodeAt 2 edge) other = false)
     ∧ hoverTargetRef (onDrag (circle "g2") (pointer 455 360) (nodeAt 2 edge) edge).1.2
       = None)
  ∧ (id <$> last (List.filter (isCandidate (nodeAt 2 thrown)) (nodesRef thrown))
     = Some "g/2"
     ∧ hoverTargetRef (onDrag SyntaxError (pointer 481 300) (nodeAt 2 thrown) thrown).1.2
       = None
     ∧ (onDrag SyntaxError (pointer 481 300) (nodeAt 2 thrown) thrown).2
       = [ResetStrokes; Throw "#circle-g/2"])
  ∧ (hoverTargetRef (onDrag NoElement (pointer 481 300) (nodeAt 2 missed) missed).1.2
     = Some "web dev"
     ∧ (onDrag NoElement (pointer 481 300) (nodeAt 2 missed) missed).2 = [ResetStrokes])
  ∧ (nodesRef idle !! 4 = Some (nodeAt 4 idle) ∧ type (nodeAt 4 idle) ≠ note
     ∧ (reparents ∘ snd) <$> gesture 4 (pointer 500 300) ss (pointer 250 300) idle
       = Some []).
Proof.
  intros near edge thrown missed idle ss.
  destruct hover_target_scan as (Hnone & Hleaf & Hthrow & Hother).
  split; [|split; [|split; [|split]]].
  - assert (type (nodeAt 2 near) = note) as Hd by (vm_compute; reflexivity).
    split; [exact Hd|]. split; [vm_compute; reflexivity|].
    split; [vm_compute; reflexivity|].
    assert (circle "g2" ≠ SyntaxError) as Hsel by discriminate.
    split; [split; [vm_compute; reflexivity|exact Hsel]|].
    assert (last (List.filter (isCandidate (nodeAt 2 near)) (nodesRef near))
            = Some (nodeAt 4 near)) as Hlast by (vm_compute; reflexivity).
    rewrite (Hleaf (circle "g2") (pointer 456 360) _ near _ Hd Hlast (or_introl Hsel)).
    vm_compute. reflexivity.
  - split; [vm_compute; reflexivity|].
    split; [vm_compute; reflexivity|]. split; [vm_compute; reflexivity|].
    assert (∀ other, other ∈ nodesRef edge → isCandidate (nodeAt 2 edge) other = false)
      as Hfar.
    { apply Forall_forall. vm_compute.
      repeat (constructor; [vm_compute; reflexivity|]). constructor. }
    split; [exact Hfar|].
    apply Hnone; [vm_compute; reflexivity|exact Hfar].
  - split; [vm_compute; reflexivity|].
    assert (type (nodeAt 2 thrown) = note) as Hd by (vm_compute; reflexivity).
    assert (last (List.filter (isCandidate (nodeAt 2 thrown)) (nodesRef thrown))
            = Some (nodeAt 4 thrown)) as Hlast by (vm_compute; reflexivity).
    assert (id (nodeAt 4 thrown) ≠ "") as Hid by (vm_compute; discriminate).
    destruct (Hthrow (pointer 481 300) _ thrown _ Hd Hlast Hid) as [Hh He].
    split; [rewrite Hh | rewrite He]; vm_compute; reflexivity.
  - assert (type (nodeAt 2 missed) = note) as Hd by (vm_compute; reflexivity).
    assert (last (List.filter (isCandidate (nodeAt 2 missed)) (nodesRef missed))
            = Some (nodeAt 4 missed)) as Hlast by (vm_compute; reflexivity).
    assert (NoElement ≠ SyntaxError) as Hsel by discriminate.
    split; [|vm_compute; reflexivity].
    rewrite (Hleaf NoElement (pointer 481 300) _ missed _ Hd Hlast (or_introl Hsel)).
    vm_compute. reflexivity.
  - assert (nodesRef idle !! 4 = Some (nodeAt 4 idle)) as Hg by (vm_compute; reflexivity).
    assert (type (nodeAt 4 idle) ≠ note) as Ht by (vm_compute; congruence).
    split; [exact Hg|]. split; [exact Ht|].
    destruct (atNode onDragStart (pointer 500 300) 4 idle) as [[rf1 e1]|] eqn:E1;
      [|by vm_compute in E1].
    destruct (steps 4 ss rf1) as [[rf2 e2]|] eqn:E2; [|by vm_compute in E1, E2].
    destruct (atNode onDragEnd (pointer 250 300) 4 rf2) as [[rf3 e3]|] eqn:E3.
    + destruct (Hother 4 _ _ idle _ rf1 e1 rf2 e2 Hg Ht E1 E2) as [_ Hend].
      destruct (Hend _ rf3 e3 E3) as [_ Hnone'].
      rewrite (gesture_run _ _ _ _ _ _ _ _ _ _ _ E1 E2 E3).
      cbv [fmap option_fmap option_map compose snd]. by rewrite Hnone'.
    + exfalso.
      assert (is_Some (gesture 4 (pointer 500 300) ss (pointer 250 300) idle))
        as [[rf' effects] Hrun] by (vm_compute; eexists; reflexivity).
      apply gesture_Some in Hrun as (? & ? & ? & ? & ? & H1 & H2 & H3 & _).
      congruence.
Defined.

(** C2 fails on a group whose id makes no selector: the first leaf is held
    over the group [g/2], which is the last group nearer than 50 plus its
    radius; the lookup of [#circle-g/2] throws before the hover target is
    written, so the hover target is not recorded, and the release that
    follows calls nothing although a callback is registered. *)
Lemma hover_target_lost_on_throw :
  let rf := heldOverLast slashGroups (Some 7) in
  let d := nodeAt 2 rf in
  type d = note
  ∧ (id (nodeAt 4 rf), type (nodeAt 4 rf), position (nodeAt 4 rf), r (nodeAt 4 rf))
    = ("g/2", cluster, (500, 300)%float, 25%float)
  ∧ position d = (480, 300)%float
  ∧ id <$> last (List.filter (isCandidate d) (nodesRef rf)) = Some "g/2"
  ∧ (onDrag SyntaxError (pointer 481 300) d rf).2 = [ResetStrokes; Throw "#circle-g/2"]
  ∧ hoverTargetRef (onDrag SyntaxError (pointer 481 300) d rf).1.2 = None
  ∧ (reparents ∘ snd)
      <$> gesture 2 (pointer 250 300)
            [Tick layoutOverG2; Move (pointer 481 300) SyntaxError] (pointer 481 300)
            (started slashGroups viewport (Some 7))
    = Some [].
Proof. repeat split; vm_compute; reflexivity. Qed.

(** C4. The callback slot holds what the latest render supplied, and a
    call made by a gesture is made on the callback that is in the slot at
    the pointer-up: the one of the latest render during the gesture, or the
    one registered before the gesture if no render came in between. *)
Theorem latest_callback_invoked :
  (∀ cb rf, onReparentRef (setOnReparent cb rf) = cb)
  ∧ (∀ event d rf cb a b c,
       Reparent cb a b c ∈ (onDragEnd event d rf).2 → onReparentRef rf = Some cb)
  ∧ (∀ i down ss up rf rf' effects cb a b c,
       gesture i down ss up rf = Some (rf', effects) →
       Reparent cb a b c ∈ effects →
       latestCallback ss (onReparentRef rf) = Some cb).
Proof.
  split; [done|]. split.
  - intros event d rf cb a b c Hin.
    assert (Reparent cb a b c ∈ reparents (onDragEnd event d rf).2) as H
      by by apply elem_of_reparents.
    destruct (onDragEnd_frame event d rf) as [_ Hcalls]. rewrite Hcalls in H.
    by apply reparentCall_cb in H.
  - intros i down ss up rf rf' effects cb a b c Hg Hin.
    assert (Reparent cb a b c ∈ reparents effects) as H by by apply elem_of_reparents.
    destruct (gesture_reparents _ _ _ _ _ _ _ Hg)
      as (rf1 & e1 & rf2 & e2 & d2 & Hstart & Hsteps & _ & Hcalls & _).
    rewrite Hcalls in H. apply reparentCall_cb in H.
    destruct (start_sound _ _ _ _ _ Hstart) as (_ & _ & Hc1 & _).
    destruct (steps_sound _ _ _ _ _ Hsteps) as (_ & _ & Hc2 & _).
    by rewrite <- Hc1, <- Hc2.
Qed.

Lemma latest_callback_invoked_witness :
  let idle := started (twoGroups (Some "n1_leafRef")) viewport (Some 7) in
  let ss := [Move (pointer 480 300) (circle "g2"); Render (Some 9); Tick layoutOverG2;
             Move (pointer 481 300) (circle "g2")] in
  onReparentRef idle = Some 7
  ∧ (reparents ∘ snd) <$> gesture 2 (pointer 250 300) ss (pointer 481 300) idle
    = Some [Reparent 9 "n1_leafRef" "g2" "Cooking"]
  ∧ latestCallback ss (onReparentRef idle) = Some 9.
Proof.
  intros idle ss. split; [vm_compute; reflexivity|].
  assert ((reparents ∘ snd) <$> gesture 2 (pointer 250 300) ss (pointer 481 300) idle
          = Some [Reparent 9 "n1_leafRef" "g2" "Cooking"]) as Hrun
    by (vm_compute; reflexivity).
  split; [exact Hrun|].
  destruct (gesture 2 (pointer 250 300) ss (pointer 481 300) idle) as [[rf' effects]|] eqn:Hg;
    [|discriminate Hrun].
  cbn in Hrun. injection Hrun as Hrun.
  destruct latest_callback_invoked as (_ & _ & Hlatest).
  apply (Hlatest 2 _ ss _ idle rf' effects 9 "n1_leafRef" "g2" "Cooking" Hg).
  apply (elem_of_reparents (Reparent 9 "n1_leafRef" "g2" "Cooking") effects).
  unfold reparents. rewrite Hrun. apply list_elem_of_here.
Defined.

End Properties.

(** ** Further properties of the synchronizer *)

Section Generation.

Implicit Types (c n : Types.ClusterNode) (clusters : list Types.ClusterNode).
Implicit Types (d g : D3Node) (prev nodes : list D3Node) (k : string).

Lemma linkInto_mergeNode (m : gmap string D3Node) d : linkInto (mergeNode m d) = linkInto d.
Proof. unfold mergeNode. by destruct (m !! id d). Qed.

Lemma clusterLinks_linkInto c : clusterLinks c = linkInto <$> clusterNodes c.
Proof.
  unfold clusterLinks, clusterNodes. rewrite fmap_cons. f_equal.
  rewrite <- list_fmap_compose. by apply list_fmap_ext.
Qed.

Lemma freshLinks_linkInto clusters :
  freshLinks clusters = linkInto <$> (clusters ≫= clusterNodes).
Proof.
  unfold freshLinks. induction clusters as [|c clusters IH]; [done|].
  by rewrite !bind_cons, fmap_app, IH, clusterLinks_linkInto.
Qed.

Lemma rebuild_links_linkInto clusters prev :
  (rebuild clusters prev).2 = linkInto <$> tail (rebuild clusters prev).1.
Proof.
  rewrite rebuild_links, rebuild_nodes_cons, freshLinks_linkInto. cbn [tail].
  rewrite <- list_fmap_compose. apply list_fmap_ext. intros i d _.
  symmetry. apply linkInto_mergeNode.
Qed.

(** X1. The links of a rebuilt generation follow its nodes: there is one
    link per node other than the root, in the same order; the k-th link ends
    at the (k+1)-th node and starts at the root if that node is a group and
    at the leaf's own group if it is a leaf. *)
Theorem links_follow_nodes clusters prev :
  (rebuild clusters prev).2 = linkInto <$> tail (rebuild clusters prev).1
  ∧ length (rebuild clusters prev).1 = S (length (rebuild clusters prev).2).
Proof.
  split; [apply rebuild_links_linkInto|].
  rewrite rebuild_links, rebuild_nodes_cons, freshLinks_linkInto.
  cbn [length]. by rewrite !length_fmap.
Qed.

Lemma rebuild_elem_of d clusters prev :
  d ∈ (rebuild clusters prev).1 ↔
  ∃ d0, d = mergeNode (existingNodesMap prev) d0 ∧
    (d0 = rootNode ∨ ∃ c, c ∈ clusters ∧
       (d0 = clusterNode c ∨ ∃ n, n ∈ childrenOf c ∧ d0 = noteNode c n)).
Proof.
  rewrite rebuild_nodes, list_elem_of_fmap. by setoid_rewrite elem_of_freshNodes.
Qed.

(** X2. In a rebuilt generation the root is the first node and the only
    one of its kind, the radius of a node is that of its kind (35, 25, 12),
    only leaves carry a [noteId] or an [originalClusterId], and the
    [originalClusterId] of a leaf is the id of a group of the same
    generation. *)
Theorem node_invariants clusters prev i d :
  (rebuild clusters prev).1 !! i = Some d →
  (type d = root ↔ i = 0)
  ∧ r d = radiusOf (type d)
  ∧ (type d ≠ note → noteId d = None ∧ originalClusterId d = None)
  ∧ (type d = note →
     ∃ g, g ∈ (rebuild clusters prev).1 ∧ type g = cluster
          ∧ originalClusterId d = Some (id g)).
Proof.
  intros Hi. pose proof Hi as (d0 & Hd0 & ->)%rebuild_lookup.
  set (m := existingNodesMap prev).
  destruct (mergeNode_frame m d0) as (_ & _ & Ht & Hn & Hr & Ho & _).
  rewrite Ht, Hn, Hr, Ho. unfold freshNodes in Hd0.
  destruct i as [|j]; cbn in Hd0.
  - injection Hd0 as <-. by repeat split.
  - apply list_elem_of_lookup_2, list_elem_of_bind in Hd0 as (c & Hd0 & Hc).
    apply elem_of_clusterNodes in Hd0 as [->|(n & Hn' & ->)]; cbn.
    + by repeat split.
    + repeat split; try done. intros _. exists (mergeNode m (clusterNode c)).
      split; [|by rewrite mergeNode_type, mergeNode_id].
      apply rebuild_elem_of. exists (clusterNode c). split; [done|]. right. eauto.
Qed.

Lemma node_invariants_witness :
  let nodes := (rebuild (twoGroups None) (nodesRef midDrag)).1 in
  (id <$> nodes !! 3 = Some "n2" ∧ is_Some (nodes !! 3))
  ∧ ∀ d, nodes !! 3 = Some d → r d = 12%float ∧ originalClusterId d = Some "g1".
Proof.
  intros nodes. split; [split; [vm_compute; reflexivity | vm_compute; eexists; reflexivity]|].
  intros d Hd.
  destruct (node_invariants (twoGroups None) (nodesRef midDrag) 3 d Hd) as (_ & Hr & _).
  rewrite Hr. vm_compute in Hd. injection Hd as <-. split; reflexivity.
Defined.

(** X3. Every link of a rebuilt generation names, at both ends, the id of
    a node of that generation. *)
Theorem link_ends_exist clusters prev (l : D3Link) :
  l ∈ (rebuild clusters prev).2 →
  ∃ s t, l = mkD3Link (EndId s) (EndId t)
         ∧ s ∈ id <$> (rebuild clusters prev).1
         ∧ t ∈ id <$> (rebuild clusters prev).1.
Proof.
  rewrite rebuild_links, rebuild_nodes, merged_ids.
  intros (c & Hc & [->|(n & Hn & ->)])%elem_of_freshLinks.
  - exists rootId, (Types.id c).
    auto using freshNodes_ids_root, freshNodes_ids_cluster.
  - exists (Types.id c), (Types.id n).
    eauto using freshNodes_ids_cluster, freshNodes_ids_note.
Qed.

Lemma link_ends_exist_witness :
  let g := rebuild (twoGroups None) [] in
  mkD3Link (EndId "g1") (EndId "n2") ∈ g.2
  ∧ "g1" ∈ id <$> g.1 ∧ "n2" ∈ id <$> g.1.
Proof.
  intros g.
  assert (mkD3Link (EndId "g1") (EndId "n2") ∈ g.2) as Hl.
  { vm_compute. do 2 apply list_elem_of_further. apply list_elem_of_here. }
  split; [exact Hl|].
  destruct (link_ends_exist (twoGroups None) [] _ Hl) as (s & t & E & Hs & Ht).
  injection E as <- <-. split; [exact Hs | exact Ht].
Defined.

(** X4. When the ids that a tree emits are pairwise distinct, a rebuild
    over the generation of an earlier rebuild of the same tree, moved by the
    engine in whatever way, leaves every node where the engine put it. *)
Theorem continuity_across_moves clusters prev (p : Placement) :
  NoDup (id <$> freshNodes clusters) →
  physics <$> (rebuild clusters (placeFrom 0 p (rebuild clusters prev).1)).1
  = physics <$> placeFrom 0 p (rebuild clusters prev).1.
Proof.
  intros Hnd. set (moved := placeFrom 0 p (rebuild clusters prev).1).
  assert (id <$> moved = id <$> freshNodes clusters) as Hids.
  { unfold moved. by rewrite placeFrom_ids, rebuild_nodes, merged_ids. }
  apply list_eq. intros i. rewrite !list_lookup_fmap.
  destruct (moved !! i) as [old|] eqn:Hi.
  - destruct (rebuild_keeps_positions clusters moved i old) as (d & -> & Hd);
      [done|by rewrite Hids|done|]. cbn. by rewrite Hd.
  - apply lookup_ge_None in Hi. rewrite lookup_ge_None_2; [done|].
    rewrite rebuild_nodes, length_fmap.
    rewrite <- (length_fmap id (freshNodes clusters)), <- Hids, length_fmap. done.
Qed.

Lemma continuity_across_moves_witness :
  let tree := twoGroups (Some "n1_leafRef") in
  NoDup (id <$> freshNodes tree)
  ∧ physics <$> (rebuild tree (placeFrom 0 layoutOverG2 (rebuild tree []).1)).1
    = [at_ 400 300; at_ 300 300; at_ 480 300; at_ 300 250; at_ 500 300].
Proof.
  intros tree.
  assert (NoDup (id <$> freshNodes tree)) as Hnd.
  { vm_compute. apply (NoDup_ListNoDup ["root"; "g1"; "n1"; "n2"; "g2"]).
    repeat (constructor; [simpl; intuition congruence|]). constructor. }
  split; [exact Hnd|].
  rewrite (continuity_across_moves tree [] layoutOverG2 Hnd). vm_compute. reflexivity.
Defined.

(** X5. A click selects nothing on the root and on a group; the notes
    that the clicks on a rebuilt generation can select are the non-empty
    [noteId]s of the leaves of the tree. *)
Theorem graph_selects_tree_leaves clusters prev :
  (∀ d, d ∈ (rebuild clusters prev).1 → type d ≠ note → onClick d = [])
  ∧ ∀ ref : string,
      (∃ d, d ∈ (rebuild clusters prev).1 ∧ onClick d = [NoteSelect ref])
      ↔ ∃ c n, c ∈ clusters ∧ n ∈ childrenOf c
               ∧ Types.noteId n = Some ref ∧ ref ≠ "".
Proof.
  split.
  - intros d _ Ht. unfold onClick. by destruct (type d).
  - intros ref. split.
    + intros (d & (d0 & -> & Hd0)%rebuild_elem_of & Hclick).
      unfold onClick in Hclick.
      destruct (mergeNode_frame (existingNodesMap prev) d0) as (_ & _ & Ht & Hn & _).
      rewrite Ht, Hn in Hclick.
      destruct Hd0 as [->|(c & Hc & [->|(n & Hn' & ->)])]; [done..|].
      cbn in Hclick. destruct (truthyId (Types.noteId n)) as [s|] eqn:E; [|done].
      injection Hclick as ->. apply truthyId_inv in E as [E Hne]. by exists c, n.
    + intros (c & n & Hc & Hn & Href & Hne).
      exists (mergeNode (existingNodesMap prev) (noteNode c n)). split.
      * apply rebuild_elem_of. exists (noteNode c n). split; [done|]. right.
        exists c. split; [done|]. right. by exists n.
      * unfold onClick.
        destruct (mergeNode_frame (existingNodesMap prev) (noteNode c n))
          as (_ & _ & Ht & Hn' & _).
        rewrite Ht, Hn'. cbn. by rewrite Href, truthyId_Some.
Qed.

Lemma graph_selects_tree_leaves_witness :
  let tree := twoGroups (Some "n1_leafRef") in
  (∃ c n, c ∈ tree ∧ n ∈ childrenOf c ∧ Types.noteId n = Some "n1_leafRef" ∧ "n1_leafRef" ≠ "")
  ∧ ∃ d, d ∈ (rebuild tree (nodesRef midDrag)).1 ∧ onClick d = [NoteSelect "n1_leafRef"].
Proof.
  intros tree.
  assert (∃ c n, c ∈ tree ∧ n ∈ childrenOf c
                 ∧ Types.noteId n = Some "n1_leafRef" ∧ "n1_leafRef" ≠ "") as H.
  { exists (group "g1" "AI" [leaf "n1" "First" (Some "n1_leafRef");
                              leaf "n2" "Second" (Some "n2_leafRef")]),
           (leaf "n1" "First" (Some "n1_leafRef")).
    split; [apply list_elem_of_here|]. split; [apply list_elem_of_here|]. done. }
  split; [exact H|].
  exact (proj2 (proj2 (graph_selects_tree_leaves tree (nodesRef midDrag)) "n1_leafRef") H).
Defined.

End Generation.

(** ** Further properties of the drag controller *)

Section Gesture.

Implicit Types (d other g : D3Node) (nodes : list D3Node) (rf : Refs).
Implicit Types (event down up : Event.t) (ss : list Step) (effects : list Effect).

Lemma start_nodes i down rf rf' effects :
  atNode onDragStart down i rf = Some (rf', effects) →
  ∃ d, nodesRef rf !! i = Some d
       ∧ rf' = setNodes (<[i := setPin (x d) (y d) d]> (nodesRef rf)) (setHoverTarget None rf).
Proof.
  intros (d & Hd & -> & _)%atNode_Some. exists d. split; [done|].
  by destruct (onDragStart_frame down d rf) as [-> _].
Qed.

Lemma end_nodes i up rf rf' effects :
  atNode onDragEnd up i rf = Some (rf', effects) →
  ∃ d, nodesRef rf !! i = Some d
       ∧ rf' = setNodes (<[i := setPin Null Null d]> (nodesRef rf)) (setHoverTarget None rf).
Proof.
  intros (d & Hd & -> & _)%atNode_Some. exists d. split; [done|].
  by destruct (onDragEnd_frame up d rf) as [-> _].
Qed.

Lemma move_nodes i selected event rf rf' effects :
  atNode (onDrag selected) event i rf = Some (rf', effects) →
  ∃ d, nodesRef rf !! i = Some d
       ∧ nodesRef rf' = <[i := setPin (Num (Event.x event)) (Num (Event.y event)) d]> (nodesRef rf)
       ∧ linksRef rf' = linksRef rf
       ∧ simulationRef rf' = simulationRef rf
       ∧ hoverTargetRef rf' = hoverTargetRef (onDrag selected event d rf).1.2
       ∧ effects = (onDrag selected event d rf).2.
Proof.
  intros (d & Hd & -> & ->)%atNode_Some. exists d. split; [done|].
  unfold onDrag. cbn [type setPin]. destruct (decide _); [|done].
  destruct (truthyId _); [|done]. by destruct selected.
Qed.

Lemma steps_app i ss1 ss2 rf :
  steps i (ss1 ++ ss2) rf
  = '(rf1, e1) ← steps i ss1 rf; '(rf2, e2) ← steps i ss2 rf1; Some (rf2, e1 ++ e2).
Proof.
  revert rf. induction ss1 as [|s ss1 IH]; intros rf.
  - cbn. destruct (steps i ss2 rf) as [[rf2 e2]|]; done.
  - cbn [steps app]. destruct (step i s rf) as [[rf0 e0]|]; [|done]. cbn.
    rewrite IH. destruct (steps i ss1 rf0) as [[rf1 e1]|]; [|done]. cbn.
    destruct (steps i ss2 rf1) as [[rf2 e2]|]; [|done]. cbn.
    by rewrite app_assoc.
Qed.

Lemma placeFrom_lookup j (p : Placement) nodes i :
  placeFrom j p nodes !! i = place (p (j + i)) <$> nodes !! i.
Proof.
  revert j i. induction nodes as [|d nodes IH]; intros j i; [done|].
  destruct i as [|i]; cbn.
  - by rewrite Nat.add_0_r.
  - rewrite IH. by replace (S j + i) with (j + S i) by lia.
Qed.

(** What a step leaves alone: the links, the engine, and the pins of the
    nodes that are not dragged. *)
Lemma step_frame i (s : Step) rf rf' effects :
  step i s rf = Some (rf', effects) →
  linksRef rf' = linksRef rf
  ∧ simulationRef rf' = simulationRef rf
  ∧ (∀ j, j ≠ i → pins <$> nodesRef rf' !! j = pins <$> nodesRef rf !! j).
Proof.
  destruct s as [event selected|p|cb]; cbn [step].
  - intros (d & Hd & Hn & Hl & Hs & _)%move_nodes. repeat split; [done..|].
    intros j Hj. by rewrite Hn, list_lookup_insert_ne.
  - intros [= <- <-]. repeat split.
    intros j _. cbn. rewrite placeFrom_lookup. by destruct (nodesRef rf !! j).
  - by intros [= <- <-].
Qed.

Lemma steps_frame i ss rf rf' effects :
  steps i ss rf = Some (rf', effects) →
  linksRef rf' = linksRef rf
  ∧ simulationRef rf' = simulationRef rf
  ∧ ∀ j, j ≠ i → pins <$> nodesRef rf' !! j = pins <$> nodesRef rf !! j.
Proof.
  revert rf effects. induction ss as [|s ss IH]; intros rf effects.
  - by intros [= <- <-].
  - cbn [steps]. destruct (step i s rf) as [[rf1 e1]|] eqn:E1; [|done]. cbn.
    destruct (steps i ss rf1) as [[rf2 e2]|] eqn:E2; [|done]. cbn.
    intros [= <- <-].
    apply step_frame in E1 as (Hl1 & Hs1 & Hp1).
    apply IH in E2 as (Hl2 & Hs2 & Hp2).
    repeat split; [congruence..|]. intros j Hj. by rewrite Hp2, Hp1.
Qed.

(** X6. A whole gesture, whatever moves, ticks and renders it contains,
    changes no node in its id, name, kind, [noteId], radius and
    [originalClusterId], and changes neither the links, nor the engine, nor
    the pin of any node but the dragged one. *)
Theorem gesture_frame i down ss up rf rf' effects :
  gesture i down ss up rf = Some (rf', effects) →
  static <$> nodesRef rf' = static <$> nodesRef rf
  ∧ linksRef rf' = linksRef rf
  ∧ simulationRef rf' = simulationRef rf
  ∧ ∀ j, j ≠ i → pins <$> nodesRef rf' !! j = pins <$> nodesRef rf !! j.
Proof.
  intros (rf1 & e1 & rf2 & e2 & e3 & Hstart & Hsteps & Hend & _)%gesture_Some.
  destruct (start_sound _ _ _ _ _ Hstart) as (Hst1 & _).
  destruct (steps_sound _ _ _ _ _ Hsteps) as (Hst2 & _).
  destruct (steps_frame _ _ _ _ _ Hsteps) as (Hl2 & Hs2 & Hp2).
  apply start_nodes in Hstart as (d & Hd & ->).
  apply end_nodes in Hend as (d2 & Hd2 & ->).
  cbn [nodesRef linksRef simulationRef setNodes setHoverTarget] in *.
  repeat split; [|done..|].
  - rewrite (insert_static _ _ d2) by done. by rewrite Hst2.
  - intros j Hj. rewrite list_lookup_insert_ne by done.
    rewrite (Hp2 j Hj). by rewrite list_lookup_insert_ne.
Qed.

Lemma gesture_frame_witness :
  let idle := started (twoGroups (Some "n1_leafRef")) viewport (Some 7) in
  is_Some (gesture 2 (pointer 250 300) carryOverG2 (pointer 481 300) idle)
  ∧ ∀ rf' effects,
      gesture 2 (pointer 250 300) carryOverG2 (pointer 481 300) idle = Some (rf', effects) →
      originalClusterId <$> nodesRef rf' = originalClusterId <$> nodesRef idle
      ∧ linksRef rf' = linksRef idle.
Proof.
  intros idle. split; [vm_compute; eexists; reflexivity|].
  intros rf' effects Hg.
  destruct (gesture_frame 2 _ _ _ idle rf' effects Hg) as (Hst & Hl & _).
  split; [|exact Hl].
  assert (∀ l : list D3Node, originalClusterId <$> l = snd <$> (static <$> l)) as E
    by (intros l; by rewrite <- list_fmap_compose).
  by rewrite !E, Hst.
Defined.

(** X7. The pin of the dragged node: the pointer-down pins it where it
    is, each move pins it at the pointer, also one whose lookup of a circle
    throws, and the pointer-up clears the pin with [null]. *)
Theorem pin_lifecycle i rf :
  (∀ down rf1 e1 d,
     nodesRef rf !! i = Some d → atNode onDragStart down i rf = Some (rf1, e1) →
     pins <$> nodesRef rf1 !! i = Some (x d, y d))
  ∧ (∀ ss event selected rf2 e2,
       steps i (ss ++ [Move event selected]) rf = Some (rf2, e2) →
       pins <$> nodesRef rf2 !! i = Some (Num (Event.x event), Num (Event.y event)))
  ∧ (∀ up rf3 e3,
       atNode onDragEnd up i rf = Some (rf3, e3) →
       pins <$> nodesRef rf3 !! i = Some (Null, Null)).
Proof.
  split; [|split].
  - intros down rf1 e1 d Hd (d' & Hd' & ->)%start_nodes.
    assert (d' = d) as -> by congruence. cbn.
    rewrite list_lookup_insert_eq; [done|]. by apply lookup_lt_Some in Hd.
  - intros ss event selected rf2 e2. rewrite steps_app.
    destruct (steps i ss rf) as [[rfa ea]|]; [|done]. cbn [mbind option_bind steps].
    destruct (step i (Move event selected) rfa) as [[rfb eb]|] eqn:E; [|done]. cbn.
    intros [= <- _]. apply move_nodes in E as (d & Hd & -> & _).
    rewrite list_lookup_insert_eq; [done|]. by apply lookup_lt_Some in Hd.
  - intros up rf3 e3 (d & Hd & ->)%end_nodes. cbn.
    rewrite list_lookup_insert_eq; [done|]. by apply lookup_lt_Some in Hd.
Qed.

Lemma pin_lifecycle_witness :
  (pins <$> nodesRef midDrag !! 2 = Some (Num 250, Num 300)%float)
  ∧ is_Some (steps 2 (carryOverG2 ++ [Move (pointer 490 310) (circle "g2")]) midDrag)
  ∧ ∀ rf2 e2,
      steps 2 (carryOverG2 ++ [Move (pointer 490 310) (circle "g2")]) midDrag
      = Some (rf2, e2) →
      pins <$> nodesRef rf2 !! 2 = Some (Num 490, Num 310)%float.
Proof.
  split; [vm_compute; reflexivity|].
  split; [vm_compute; eexists; reflexivity|].
  intros rf2 e2 H.
  exact (proj1 (proj2 (pin_lifecycle 2 midDrag)) carryOverG2 (pointer 490 310)
           (circle "g2") rf2 e2 H).
Defined.

Lemma reparentCall_inv d rf (cb : Callback) (a t nm : string) :
  Reparent cb a t nm ∈ reparentCall d rf →
  type d = note ∧ hoverTargetRef rf = Some t ∧ t ≠ ""
  ∧ onReparentRef rf = Some cb ∧ noteId d = Some a ∧ a ≠ ""
  ∧ ∃ g, List.find (hasId t) (nodesRef rf) = Some g ∧ nm = name g.
Proof.
  unfold reparentCall. destruct (decide _) as [Ht|]; [|by intros ?%elem_of_nil].
  destruct (truthyId (hoverTargetRef rf)) as [t'|] eqn:E1; [|by intros ?%elem_of_nil].
  destruct (onReparentRef rf) as [cb'|]; [|by intros ?%elem_of_nil].
  destruct (List.find _ _) as [g|] eqn:E2; [|by intros ?%elem_of_nil].
  destruct (truthyId (noteId d)) as [a'|] eqn:E3; [|by intros ?%elem_of_nil].
  intros H%list_elem_of_singleton. injection H as -> -> Hid ->.
  apply truthyId_inv in E1 as [E1 Hne1]. apply truthyId_inv in E3 as [E3 Hne3].
  pose proof (find_hasId_Some _ _ _ E2) as [_ Hg]. rewrite Hg in Hid. subst t'.
  repeat split; try done. by exists g.
Qed.

Lemma static_elem_of nodes nodes' g :
  static <$> nodes' = static <$> nodes → g ∈ nodes' →
  ∃ g0, g0 ∈ nodes ∧ static g0 = static g.
Proof.
  intros Hst Hg. assert (static g ∈ static <$> nodes) as H.
  { rewrite <- Hst. by apply list_elem_of_fmap_2. }
  apply list_elem_of_fmap in H as (g0 & Hs & Hg0). eauto.
Qed.

(** The recorded target stays the id of a group other than the leaf's own. *)
Lemma steps_hover i ss rf rf' effects nodes0 d0 :
  static <$> nodesRef rf = static <$> nodes0 → nodes0 !! i = Some d0 →
  (∀ t, hoverTargetRef rf = Some t → foreignGroup nodes0 d0 t) →
  steps i ss rf = Some (rf', effects) →
  ∀ t, hoverTargetRef rf' = Some t → foreignGroup nodes0 d0 t.
Proof.
  revert rf effects. induction ss as [|s ss IH]; intros rf effects Hst Hd0 Hinv.
  - by intros [= <- <-].
  - cbn [steps]. destruct (step i s rf) as [[rf1 e1]|] eqn:E1; [|done]. cbn.
    destruct (steps i ss rf1) as [[rf2 e2]|] eqn:E2; [|done]. cbn.
    intros [= <- <-]. pose proof (step_sound _ _ _ _ _ E1) as (Hst1 & _).
    apply (IH rf1 e2); [by rewrite Hst1|done| |done].
    destruct s as [event selected|p|cb]; cbn [step] in E1.
    + apply move_nodes in E1 as (d & Hd & _ & _ & _ & Hh & _). rewrite Hh.
      destruct (static_lookup _ _ _ _ Hst Hd0) as (d' & Hd' & Hsd).
      assert (d' = d) as -> by congruence.
      assert (∀ t, id <$> last (List.filter (isCandidate d) (nodesRef rf)) = Some t →
                   foreignGroup nodes0 d0 t) as Hscan.
      { intros t Hlast.
        destruct (last _) as [g|] eqn:Hg; [|done]. injection Hlast as <-.
        apply last_Some_elem_of, list_elem_of_In, List.filter_In in Hg as [Hg Hc].
        apply list_elem_of_In in Hg. unfold isCandidate in Hc.
        apply andb_prop in Hc as [Hc _]. apply andb_prop in Hc as [Hc1 Hc2].
        apply bool_decide_eq_true in Hc1, Hc2.
        destruct (static_elem_of _ _ _ Hst Hg) as (g0 & Hg0 & Hsg).
        unfold static in Hsg, Hsd. split.
        - exists g0. repeat split; [done|congruence..].
        - intros E. apply Hc2. congruence. }
      destruct (decide (type d = note)) as [Ht|Ht]; [|by rewrite onDrag_other].
      destruct (truthyId (id <$> last (List.filter (isCandidate d) (nodesRef rf))))
        as [c|] eqn:Htr; [|by rewrite onDrag_note by auto].
      destruct selected as [| |e].
      * by rewrite (onDrag_throw event d rf c).
      * by rewrite onDrag_note by auto.
      * by rewrite onDrag_note by auto.
    + injection E1 as <- _. exact Hinv.
    + injection E1 as <- _. exact Hinv.
Qed.

(** X8. Whatever a gesture contains, the only calls it makes are for the
    [noteId] of the dragged leaf and the id of a group of the generation
    other than the leaf's own; a gesture on the root or on a group makes
    none. *)
Theorem reparent_targets_foreign_group i down ss up rf rf' effects d cb a t nm :
  nodesRef rf !! i = Some d →
  gesture i down ss up rf = Some (rf', effects) →
  Reparent cb a t nm ∈ effects →
  type d = note ∧ noteId d = Some a ∧ foreignGroup (nodesRef rf) d t.
Proof.
  intros Hd Hg Hin.
  assert (Reparent cb a t nm ∈ reparents effects) as H by by apply elem_of_reparents.
  destruct (gesture_reparents _ _ _ _ _ _ _ Hg)
    as (rf1 & e1 & rf2 & e2 & d2 & Hstart & Hsteps & Hd2 & Hcalls & _).
  rewrite Hcalls in H. apply reparentCall_inv in H as (Ht & Hh & _ & _ & Ha & _).
  destruct (start_sound _ _ _ _ _ Hstart) as (Hst1 & _ & _ & Hh1).
  destruct (steps_sound _ _ _ _ _ Hsteps) as (Hst2 & _).
  destruct (static_lookup _ _ _ _ Hst1 Hd) as (d1 & Hd1 & Hs1).
  destruct (static_lookup _ _ _ _ Hst2 Hd1) as (d2' & Hd2' & Hs2).
  assert (d2' = d2) as -> by congruence.
  unfold static in Hs1, Hs2. repeat split; [congruence..| |].
  - eapply (steps_hover i ss rf1 rf2 e2 (nodesRef rf) d); try done.
    by intros t'; rewrite Hh1.
  - eapply (steps_hover i ss rf1 rf2 e2 (nodesRef rf) d); try done.
    by intros t'; rewrite Hh1.
Qed.

Lemma reparent_targets_foreign_group_witness :
  let idle := started (twoGroups (Some "n1_leafRef")) viewport (Some 7) in
  (is_Some (nodesRef idle !! 2)
   ∧ is_Some (gesture 2 (pointer 250 300) carryOverG2 (pointer 481 300) idle))
  ∧ ∀ d rf' effects,
      nodesRef idle !! 2 = Some d →
      gesture 2 (pointer 250 300) carryOverG2 (pointer 481 300) idle = Some (rf', effects) →
      Reparent 7 "n1_leafRef" "g2" "Cooking" ∈ effects
      ∧ originalClusterId d ≠ Some "g2".
Proof.
  intros idle.
  split; [split; vm_compute; eexists; reflexivity|].
  intros d rf' effects Hd Hg.
  assert (Reparent 7 "n1_leafRef" "g2" "Cooking" ∈ effects) as Hin.
  { vm_compute in Hg. injection Hg as _ <-.
    repeat first [apply list_elem_of_here | apply list_elem_of_further]. }
  split; [exact Hin|].
  exact (proj2 (proj2 (proj2 (reparent_targets_foreign_group 2 _ _ _ idle rf' effects d
                                7 "n1_leafRef" "g2" "Cooking" Hd Hg Hin)))).
Defined.

(** X9. Without a callback in the slot at the pointer-up (none was
    registered, or the latest render withdrew it) a gesture calls nothing;
    it still resets the hover target. *)
Theorem no_callback_no_call i down ss up rf rf' effects :
  latestCallback ss (onReparentRef rf) = None →
  gesture i down ss up rf = Some (rf', effects) →
  reparents effects = [] ∧ hoverTargetRef rf' = None.
Proof.
  intros Hnone Hg.
  destruct (gesture_reparents _ _ _ _ _ _ _ Hg)
    as (rf1 & e1 & rf2 & e2 & d2 & Hstart & Hsteps & _ & -> & Hh).
  split; [|done].
  destruct (start_sound _ _ _ _ _ Hstart) as (_ & _ & Hc1 & _).
  destruct (steps_sound _ _ _ _ _ Hsteps) as (_ & _ & Hc2 & _).
  unfold reparentCall. rewrite Hc2, Hc1, Hnone.
  destruct (decide _); [|done]. by destruct (truthyId _).
Qed.

Lemma no_callback_no_call_witness :
  let idle := started (twoGroups (Some "n1_leafRef")) viewport None in
  (latestCallback carryOverG2 (onReparentRef idle) = None
   ∧ is_Some (gesture 2 (pointer 250 300) carryOverG2 (pointer 481 300) idle))
  ∧ ∀ rf' effects,
      gesture 2 (pointer 250 300) carryOverG2 (pointer 481 300) idle = Some (rf', effects) →
      reparents effects = [].
Proof.
  intros idle.
  assert (latestCallback carryOverG2 (onReparentRef idle) = None) as Hnone
    by (vm_compute; reflexivity).
  split; [split; [exact Hnone | vm_compute; eexists; reflexivity]|].
  intros rf' effects Hg.
  exact (proj1 (no_callback_no_call 2 _ _ _ idle rf' effects Hnone Hg)).
Defined.

Lemma onDrag_note_effects selected event d rf :
  type d = note →
  (onDrag selected event d rf).2
  = ResetStrokes ::
    match truthyId (id <$> last (List.filter (isCandidate d) (nodesRef rf))), selected with
    | Some c, SyntaxError => [Throw (circleSelector c)]
    | Some c, Element e => [Highlight e]
    | _, _ => []
    end.
Proof.
  intros Hd. unfold onDrag. cbn [type setPin]. rewrite decide_True by done.
  rewrite scan_last, isCandidate_setPin. destruct (truthyId _); [|done].
  by destruct selected.
Qed.

(** X10. The feedback of a move agrees with the outcome of a release that
    follows it, as long as the lookup of the circle finds an element: with
    pairwise distinct ids, a registered callback and a leaf that has a
    [noteId], the move highlights the element found and records a group
    exactly when the release calls the callback for that group. *)
Theorem highlight_predicts_drop i event up rf d rf1 e1 rf2 e2 (cb : Callback)
    (ref elementId : string) :
  nodesRef rf !! i = Some d → type d = note →
  noteId d = Some ref → ref ≠ "" → onReparentRef rf = Some cb →
  NoDup (id <$> nodesRef rf) →
  atNode (onDrag (Element elementId)) event i rf = Some (rf1, e1) →
  atNode onDragEnd up i rf1 = Some (rf2, e2) →
  ∀ t, Highlight elementId ∈ e1 ∧ hoverTargetRef rf1 = Some t
       ↔ ∃ nm, Reparent cb ref t nm ∈ e2.
Proof.
  intros Hd Htype Href Hrne Hcb Hnd Hmove Hup t.
  assert (Element elementId ≠ SyntaxError) as Hsel by done.
  pose proof (drop_contract _ _ _ _ _ _ _ _ _ _ _ _
                Hd Htype Href Hrne Hcb Hnd Hsel Hmove Hup) as Hcalls.
  apply move_nodes in Hmove as (d' & Hd' & _ & _ & _ & -> & ->).
  assert (d' = d) as -> by congruence.
  rewrite reparents_app in Hcalls. rewrite onDrag_note_effects in Hcalls |- * by done.
  rewrite onDrag_note by auto. cbn [snd hoverTargetRef setHoverTarget].
  assert (∀ nm, Reparent cb ref t nm ∈ e2 ↔ Reparent cb ref t nm ∈ reparents e2) as Hre.
  { intros nm. rewrite elem_of_reparents. naive_solver. }
  setoid_rewrite Hre.
  destruct (last (List.filter (isCandidate d) (nodesRef rf))) as [g|]; cbn in *.
  - destruct (truthy (id g)); cbn in *; rewrite Hcalls.
    + split.
      * intros [_ [= <-]]. exists (name g). apply list_elem_of_here.
      * intros (nm & [= -> _]%list_elem_of_singleton). split; [|done].
        apply list_elem_of_further, list_elem_of_here.
    + split.
      * by intros [[?|?%elem_of_nil]%elem_of_cons _].
      * by intros (nm & ?%elem_of_nil).
  - rewrite Hcalls. split; [by intros [_ ?]|]. by intros (nm & ?%elem_of_nil).
Qed.

Lemma highlight_predicts_drop_witness :
  let rf := carried (Some "n1_leafRef") (Some 7) in
  (is_Some (nodesRef rf !! 2)
   ∧ is_Some (atNode (onDrag (circle "g2")) (pointer 482 300) 2 rf))
  ∧ ∀ d rf1 e1 rf2 e2,
      nodesRef rf !! 2 = Some d →
      atNode (onDrag (circle "g2")) (pointer 482 300) 2 rf = Some (rf1, e1) →
      atNode onDragEnd (pointer 482 300) 2 rf1 = Some (rf2, e2) →
      (Highlight "circle-g2" ∈ e1 ∧ hoverTargetRef rf1 = Some "g2")
      ∧ ∃ nm, Reparent 7 "n1_leafRef" "g2" nm ∈ e2.
Proof.
  intros rf. split; [split; vm_compute; eexists; reflexivity|].
  intros d rf1 e1 rf2 e2 Hd Hmove Hup.
  assert (Highlight "circle-g2" ∈ e1 ∧ hoverTargetRef rf1 = Some "g2") as Hh.
  { vm_compute in Hmove. injection Hmove as <- <-. split; [|reflexivity].
    apply list_elem_of_further, list_elem_of_here. }
  split; [exact Hh|].
  assert (d = nodeAt 2 rf) as Ed.
  { assert (nodesRef rf !! 2 = Some (nodeAt 2 rf)) as E by (vm_compute; reflexivity).
    congruence. }
  refine (proj1 (highlight_predicts_drop 2 _ _ rf d rf1 e1 rf2 e2 7 "n1_leafRef" "circle-g2"
                   Hd _ _ _ _ _ Hmove Hup "g2") Hh);
    try (rewrite ?Ed; vm_compute; congruence).
  vm_compute. apply (NoDup_ListNoDup ["root"; "g1"; "n1"; "n2"; "g2"]).
  repeat (constructor; [simpl; intuition congruence|]). constructor.
Defined.

(** X11. A whole gesture that ends with a move and a release: with
    pairwise distinct ids, a leaf that has a [noteId], a callback in the
    slot and a last move whose lookup of the circle does not throw, the
    gesture calls the callback once, for the last candidate group of the
    last move, provided its id is not empty, and calls nothing when that
    move finds no candidate. *)
Theorem release_after_move i down ss event selected up rf rf' effects d
    (cb : Callback) (ref : string) :
  nodesRef rf !! i = Some d → type d = note →
  noteId d = Some ref → ref ≠ "" →
  NoDup (id <$> nodesRef rf) →
  latestCallback ss (onReparentRef rf) = Some cb →
  selected ≠ SyntaxError →
  gesture i down (ss ++ [Move event selected]) up rf = Some (rf', effects) →
  ∃ rf1 e1 rf2 e2 d2,
    atNode onDragStart down i rf = Some (rf1, e1)
    ∧ steps i ss rf1 = Some (rf2, e2)
    ∧ nodesRef rf2 !! i = Some d2
    ∧ reparents effects
      = match last (List.filter (isCandidate d2) (nodesRef rf2)) with
        | Some g => if truthy (id g) then [Reparent cb ref (id g) (name g)] else []
        | None => []
        end.
Proof.
  intros Hd Htype Href Hrne Hnd Hcb Hsel Hg.
  apply gesture_Some in Hg as (rf1 & e1 & rf3 & e3 & e4 & Hstart & Hsteps & Hend & ->).
  rewrite steps_app in Hsteps.
  destruct (steps i ss rf1) as [[rf2 e2]|] eqn:E2; [|done]. cbn [mbind option_bind steps] in Hsteps.
  destruct (step i (Move event selected) rf2) as [[rfm em]|] eqn:Em; [|done].
  cbn in Hsteps. injection Hsteps as <- <-. cbn [step] in Em.
  destruct (start_sound _ _ _ _ _ Hstart) as (Hst1 & He1 & Hc1 & _).
  destruct (steps_sound _ _ _ _ _ E2) as (Hst2 & He2 & Hc2 & _).
  destruct (static_lookup _ _ _ _ Hst1 Hd) as (d1 & Hd1 & Hs1).
  destruct (static_lookup _ _ _ _ Hst2 Hd1) as (d2 & Hd2 & Hs2).
  exists rf1, e1, rf2, e2, d2. repeat split; [done..|].
  assert (∀ l : list D3Node, id <$> l = (λ p, p.1.1.1.1.1) <$> (static <$> l)) as Eid
    by (intros l; by rewrite <- list_fmap_compose).
  unfold static in Hs1, Hs2.
  rewrite !reparents_app, He1, He2, app_nil_r. cbn [app].
  rewrite <- reparents_app.
  apply (drop_contract i selected event up rf2 d2 rfm em rf' e4 cb ref); try done.
  - congruence.
  - congruence.
  - by rewrite Hc2, Hc1.
  - by rewrite Eid, Hst2, Hst1, <- Eid.
Qed.

Lemma release_after_move_witness :
  let idle := started (twoGroups (Some "n1_leafRef")) viewport (Some 7) in
  let over := tick layoutOverG2 midDrag in
  let ss := [Move (pointer 480 300) (circle "g2"); Tick layoutOverG2] in
  let g := gesture 2 (pointer 250 300) (ss ++ [Move (pointer 481 300) (circle "g2")])
                   (pointer 481 300) idle in
  (is_Some (nodesRef idle !! 2) ∧ circle "g2" ≠ SyntaxError ∧ is_Some g)
  ∧ (position (nodeAt 2 over), position (nodeAt 4 over)) = ((480, 300), (500, 300))%float
  ∧ id <$> List.filter (isCandidate (nodeAt 2 over)) (nodesRef over) = ["g2"]
  ∧ ∀ d rf' effects,
      nodesRef idle !! 2 = Some d →
      g = Some (rf', effects) →
      reparents effects = [Reparent 7 "n1_leafRef" "g2" "Cooking"].
Proof.
  intros idle over ss g.
  assert (circle "g2" ≠ SyntaxError) as Hsel by discriminate.
  split; [split; [|split]; [vm_compute; eexists; reflexivity | exact Hsel
                           | vm_compute; eexists; reflexivity]|].
  split; [vm_compute; reflexivity|]. split; [vm_compute; reflexivity|].
  intros d rf' effects Hd Hg.
  assert (d = nodeAt 2 idle) as Ed.
  { assert (nodesRef idle !! 2 = Some (nodeAt 2 idle)) as E by (vm_compute; reflexivity).
    congruence. }
  destruct (release_after_move 2 (pointer 250 300) ss (pointer 481 300) (circle "g2")
              (pointer 481 300) idle rf' effects d 7 "n1_leafRef" Hd)
    as (rf1 & e1 & rf2 & e2 & d2 & Hstart & Hsteps & Hd2 & Hcalls);
    try (rewrite ?Ed; vm_compute; congruence);
    try exact Hsel; try exact Hg.
  - vm_compute. apply (NoDup_ListNoDup ["root"; "g1"; "n1"; "n2"; "g2"]).
    repeat (constructor; [simpl; intuition congruence|]). constructor.
  - rewrite Hcalls. vm_compute in Hstart. injection Hstart as <- _.
    vm_compute in Hsteps. injection Hsteps as <- _.
    vm_compute in Hd2. injection Hd2 as <-. vm_compute. reflexivity.
Defined.

End Gesture.

(** ** Further properties of the started engine *)

Section Engine.

Implicit Types (c n : Types.ClusterNode) (clusters : list Types.ClusterNode).
Implicit Types (d g : D3Node) (prev nodes : list D3Node) (rf : Refs).

(** The links that the effect stores are the emitted ones, resolved one by
    one against the rebuilt nodes. *)
Lemma graphEffect_links clusters (cont : Container) rf rf' effects :
  clusters ≠ [] →
  graphEffect clusters true (Some cont) rf = Some (rf', effects) →
  nodesRef rf' = (rebuild clusters (nodesRef rf)).1
  ∧ Forall2 (λ d l, resolveLink (nodeById 0 (nodesRef rf') ∅) (linkInto d) = Some l)
            (tail (nodesRef rf')) (linksRef rf').
Proof.
  intros Hne Hrun. destruct (graphEffect_run clusters cont rf Hne) as (links & Hl & Heq).
  rewrite Heq in Hrun. injection Hrun as <- _. cbn [nodesRef linksRef]. split; [done|].
  unfold resolveLinks in Hl. apply mapM_Some in Hl.
  rewrite rebuild_links_linkInto in Hl.
  by apply Forall2_fmap_l in Hl.
Qed.

Lemma nodeById_Some nodes (k : string) j :
  nodeById 0 nodes ∅ !! k = Some j → ∃ d, nodes !! j = Some d ∧ id d = k.
Proof.
  intros Hj. destruct (decide (k ∈ id <$> nodes)) as [Hin|Hout].
  - destruct (nodeById_in 0 nodes ∅ k Hin) as (j' & d & Hj' & Hd & Hid).
    rewrite Hj in Hj'. injection Hj' as ->. by exists d.
  - by rewrite nodeById_notin, lookup_empty in Hj.
Qed.

Lemma tail_rebuild_elem_of clusters prev d :
  d ∈ tail (rebuild clusters prev).1 →
  ∃ c, c ∈ clusters ∧
    (linkInto d = rootLink c ∧ type d = cluster
     ∨ ∃ n, n ∈ childrenOf c ∧ linkInto d = noteLink c n ∧ type d = note).
Proof.
  rewrite rebuild_nodes_cons. cbn [tail]. rewrite list_elem_of_fmap.
  intros (d0 & -> & (c & Hd0 & Hc)%list_elem_of_bind). exists c. split; [done|].
  rewrite linkInto_mergeNode, mergeNode_type.
  apply elem_of_clusterNodes in Hd0 as [->|(n & Hn & ->)]; [by left|].
  right. by exists n.
Qed.

(** X12. The distances of a started engine, link by link: the link into a
    leaf has distance 60; the link into a group has distance 120 when no
    group and no leaf is itself called ["root"].  (The link force resolves
    the ends by id over the node array, the last node under an id winning.) *)
Theorem started_link_distances clusters (cont : Container) rf rf' effects sim k d (l : D3Link) :
  clusters ≠ [] →
  graphEffect clusters true (Some cont) rf = Some (rf', effects) →
  simulationRef rf' = Some sim →
  tail (nodesRef rf') !! k = Some d → linksRef rf' !! k = Some l →
  (type d = note → linkDistance sim (nodesRef rf') l = 60%float)
  ∧ (type d = cluster → rootId ∉ id <$> tail (nodesRef rf') →
     linkDistance sim (nodesRef rf') l = 120%float).
Proof.
  intros Hne Hrun Hsim Hd Hl.
  destruct (graphEffect_links _ _ _ _ _ Hne Hrun) as [Hnodes Hres].
  pose proof (Forall2_lookup_lr _ _ _ _ _ _ Hres Hd Hl) as Hlink. cbv beta in Hlink.
  destruct (graphEffect_run clusters cont rf Hne) as (links & _ & Heq).
  rewrite Heq in Hrun. injection Hrun as Hrf _. rewrite <- Hrf in Hsim.
  injection Hsim as <-. cbn [linkDistance forceSimulation].
  rewrite Hnodes in *.
  apply list_elem_of_lookup_2, tail_rebuild_elem_of in Hd
    as (c & Hc & [[Hli Ht]|(n & Hn & Hli & Ht)]);
    destruct (started_distances clusters (nodesRef rf) c Hc) as [Hleaf Hgroup];
    rewrite Hli in Hlink.
  - split; [by rewrite Ht|]. intros _ Hroot.
    destruct Hgroup as (l' & Hl' & Hdist).
    { rewrite rebuild_nodes_cons in Hroot. cbn [tail] in Hroot.
      by rewrite merged_ids in Hroot. }
    congruence.
  - split; [|by rewrite Ht]. intros _.
    destruct (Hleaf n Hn) as (l' & Hl' & Hdist). congruence.
Qed.

Lemma started_link_distances_witness :
  let tree := twoGroups None in
  tree ≠ []
  ∧ ∃ rf' effects sim,
      graphEffect tree true (Some viewport) (initialRefs None) = Some (rf', effects)
      ∧ simulationRef rf' = Some sim
      ∧ (type <$> tail (nodesRef rf') !! 1 = Some note ∧ is_Some (linksRef rf' !! 1))
      ∧ ∀ d l, tail (nodesRef rf') !! 1 = Some d → linksRef rf' !! 1 = Some l →
               linkDistance sim (nodesRef rf') l = 60%float.
Proof.
  intros tree. assert (tree ≠ []) as Hne by done. split; [exact Hne|].
  destruct (graphEffect tree true (Some viewport) (initialRefs None))
    as [[rf' effects]|] eqn:Hrun; [|by vm_compute in Hrun].
  destruct (simulationRef rf') as [sim|] eqn:Hsim.
  - exists rf', effects, sim. split; [done|]. split; [done|].
    assert (type <$> tail (nodesRef rf') !! 1 = Some note) as Ht.
    { vm_compute in Hrun. injection Hrun as <- _. vm_compute. reflexivity. }
    split.
    + split; [exact Ht|]. vm_compute in Hrun. injection Hrun as <- _.
      vm_compute. eexists. reflexivity.
    + intros d l Hd Hl.
      apply (proj1 (started_link_distances tree viewport _ rf' effects sim 1 d l
                      Hne Hrun Hsim Hd Hl)).
      rewrite Hd in Ht. by injection Ht.
  - exfalso. vm_compute in Hrun. injection Hrun as <- _. by vm_compute in Hsim.
Defined.

(** X13. What a tick draws for a started engine, wherever the engine has
    moved the nodes: the k-th line runs from the place of a node that
    carries the id of the link's source to the place of a node that carries
    the id of its target, as the node groups themselves are translated. *)
Theorem tick_lines_join_nodes clusters (cont : Container) rf rf' effects (p : Placement) k d :
  clusters ≠ [] →
  graphEffect clusters true (Some cont) rf = Some (rf', effects) →
  tail (nodesRef rf') !! k = Some d →
  ∃ ds dt,
    ds ∈ nodesRef (tick p rf') ∧ id ds = default rootId (originalClusterId d)
    ∧ dt ∈ nodesRef (tick p rf') ∧ id dt = id d
    ∧ (onTick (tick p rf')).1 !! k
      = Some (mkLine (nodeTranslate ds).1 (nodeTranslate ds).2
                     (nodeTranslate dt).1 (nodeTranslate dt).2).
Proof.
  intros Hne Hrun Hd.
  destruct (graphEffect_links _ _ _ _ _ Hne Hrun) as [_ Hres].
  destruct (Forall2_lookup_l _ _ _ _ _ Hres Hd) as (l & Hl & Hlink). cbv beta in Hlink.
  unfold resolveLink, linkInto in Hlink. cbn [source target resolveEnd] in Hlink.
  destruct (nodeById 0 (nodesRef rf') ∅ !! default rootId (originalClusterId d))
    as [i|] eqn:Hi; [|done].
  destruct (nodeById 0 (nodesRef rf') ∅ !! id d) as [j|] eqn:Hj; [|done].
  cbn in Hlink. injection Hlink as <-.
  apply nodeById_Some in Hi as (di & Hdi & Hidi), Hj as (dj & Hdj & Hidj).
  assert (nodesRef (tick p rf') !! i = Some (place (p i) di)) as Hpi.
  { cbn. by rewrite placeFrom_lookup, Hdi. }
  assert (nodesRef (tick p rf') !! j = Some (place (p j) dj)) as Hpj.
  { cbn. by rewrite placeFrom_lookup, Hdj. }
  exists (place (p i) di), (place (p j) dj).
  split; [by eapply list_elem_of_lookup_2|]. split; [done|].
  split; [by eapply list_elem_of_lookup_2|]. split; [done|].
  unfold onTick. cbn [fst]. rewrite list_lookup_fmap.
  replace (linksRef (tick p rf')) with (linksRef rf') by done. rewrite Hl. cbn [fmap option_fmap option_map].
  unfold linkLine, lineEnd, endObject. cbn [source target]. by rewrite Hpi, Hpj.
Qed.

Lemma tick_lines_join_nodes_witness :
  let tree := twoGroups None in
  let unset : Placement :=
    λ i, match i with 2 => (Undefined, Null, Num 0, Num 0)%float | _ => layout i end in
  tree ≠ []
  ∧ ∃ rf' effects d,
      graphEffect tree true (Some viewport) (initialRefs None) = Some (rf', effects)
      ∧ tail (nodesRef rf') !! 1 = Some d
      ∧ (∃ ds dt,
           (id ds, id dt) = ("g1", "n1")
           ∧ (nodeTranslate ds, nodeTranslate dt) = ((300, 300), (250, 300))%float
           ∧ (onTick (tick layout rf')).1 !! 1
             = Some (mkLine (nodeTranslate ds).1 (nodeTranslate ds).2
                            (nodeTranslate dt).1 (nodeTranslate dt).2))
      ∧ (onTick (tick layout rf')).1
        = [mkLine 400 300 300 300; mkLine 300 300 250 300;
           mkLine 300 300 300 250; mkLine 400 300 500 300]%float
      ∧ (onTick (tick layout rf')).2
        = [(400, 300); (300, 300); (250, 300); (300, 250); (500, 300)]%float
      ∧ (onTick (tick unset rf')).1 !! 1 = Some (mkLine 300 300 0 0)
      ∧ (onTick (tick unset rf')).2 !! 2 = Some (0, 0)%float.
Proof.
  intros tree unset. assert (tree ≠ []) as Hne by done. split; [exact Hne|].
  destruct (graphEffect tree true (Some viewport) (initialRefs None))
    as [[rf' effects]|] eqn:Hrun; [|by vm_compute in Hrun].
  assert (is_Some (tail (nodesRef rf') !! 1)) as [d Hd].
  { clear -Hrun. vm_compute in Hrun. injection Hrun as <- _. vm_compute. eexists. reflexivity. }
  exists rf', effects, d. split; [done|]. split; [exact Hd|].
  destruct (tick_lines_join_nodes tree viewport _ rf' effects layout 1 d Hne Hrun Hd)
    as (ds & dt & _ & Hs & _ & Ht & Hline).
  assert ((onTick (tick layout rf')).1
          = [mkLine 400 300 300 300; mkLine 300 300 250 300;
             mkLine 300 300 300 250; mkLine 400 300 500 300]%float) as Hlines.
  { clear -Hrun. vm_compute in Hrun. injection Hrun as <- _. vm_compute. reflexivity. }
  split; [|split; [exact Hlines|]].
  - exists ds, dt. split; [|split; [|exact Hline]].
    + rewrite Hs, Ht. clear -Hrun Hd. vm_compute in Hrun. injection Hrun as <- _.
      vm_compute in Hd. injection Hd as <-. reflexivity.
    + rewrite Hlines in Hline. cbn [lookup list_lookup] in Hline.
      injection Hline as H1 H2 H3 H4. unfold nodeTranslate in *. cbn [fst snd] in *.
      by rewrite <- H1, <- H2, <- H3, <- H4.
  - clear -Hrun. vm_compute in Hrun. injection Hrun as <- _.
    repeat split; vm_compute; reflexivity.
Defined.

End Engine.

End ClusterGraph.

(** ** Properties of App.tsx *)

Module AppFacts.

Import App.

Section Notes.

Implicit Types (s : State) (n m : Note.t) (id : string) (l : list Note.t).

Lemma find_map_same {A} (P : A → bool) (f : A → A) (l : list A) :
  (∀ a, P (f a) = P a) → List.find P (map f l) = f <$> List.find P l.
Proof.
  intros HP. induction l as [|a l IH]; [done|]. cbn. rewrite HP.
  by destruct (P a).
Qed.

Lemma find_filter_implied {A} (P Q : A → bool) (l : list A) :
  (∀ a, P a = true → Q a = true) → List.find P (List.filter Q l) = List.find P l.
Proof.
  intros HPQ. induction l as [|a l IH]; [done|]. cbn.
  destruct (P a) eqn:HP.
  - rewrite (HPQ a HP). cbn. by rewrite HP.
  - destruct (Q a); cbn; by rewrite ?HP.
Qed.

Lemma setField_id field value n : Note.id (setField field value n) = Note.id n.
Proof. by destruct field. Qed.

Lemma map_unknown_id id (g : Note.t → Note.t) l :
  id ∉ Note.id <$> l →
  map (λ n, if bool_decide (Note.id n = id) then g n else n) l = l.
Proof.
  induction l as [|n l IH]; [done|]. rewrite fmap_cons, not_elem_of_cons.
  intros [Hn Hl]. cbn. rewrite bool_decide_eq_false_2 by done. by rewrite IH.
Qed.

(** X14. An edit keeps the ids, the order and the number of the notes.  An
    edit under an id that no note has changes nothing.  An edit under the id
    of the note shown in the editor keeps that note in the editor, with the
    new value. *)
Theorem update_note_effect id field value s :
  Note.id <$> notes (handleUpdateNote id field value s) = Note.id <$> notes s
  ∧ (id ∉ Note.id <$> notes s → handleUpdateNote id field value s = s)
  ∧ (∀ n, activeNote s = Some n → Note.id n = id →
       activeNote (handleUpdateNote id field value s) = Some (setField field value n)).
Proof.
  split; [|split].
  - cbn. induction (notes s) as [|n l IH]; [done|]. cbn. rewrite IH. f_equal.
    case_bool_decide; [apply setField_id | done].
  - intros Hid. unfold handleUpdateNote, setNotes. rewrite map_unknown_id by done.
    by destruct s.
  - intros n Hn Hid. unfold activeNote in *. cbn [handleUpdateNote setNotes notes activeNoteId].
    rewrite find_map_same.
    + rewrite Hn. cbn. by rewrite bool_decide_eq_true_2.
    + intros a. destruct (bool_decide (Note.id a = id)); [by rewrite setField_id | done].
Qed.

Lemma update_note_effect_witness :
  (∃ n, activeNote editing = Some n ∧ Note.id n = "1")
  ∧ Note.title <$> activeNote (handleUpdateNote "1" title "Transformers" editing)
    = Some "Transformers".
Proof.
  assert (∃ n, activeNote editing = Some n ∧ Note.id n = "1") as H
    by (eexists; split; vm_compute; reflexivity).
  split; [exact H|]. destruct H as (n & Hn & Hid).
  by rewrite (proj2 (proj2 (update_note_effect "1" title "Transformers" editing)) n Hn Hid).
Defined.

Lemma update_twice id field v1 v2 n :
  (if bool_decide (Note.id (if bool_decide (Note.id n = id) then setField field v1 n else n) = id)
   then setField field v2 (if bool_decide (Note.id n = id) then setField field v1 n else n)
   else (if bool_decide (Note.id n = id) then setField field v1 n else n))
  = if bool_decide (Note.id n = id) then setField field v2 n else n.
Proof.
  destruct (bool_decide (Note.id n = id)) eqn:E.
  - rewrite setField_id, E. by destruct field.
  - by rewrite E.
Qed.

(** X15. Edits compose: of two edits of the same member under the same id
    the later one wins, and two edits that differ in the id or in the member
    can be swapped. *)
Theorem update_compose s :
  (∀ id field v1 v2,
     handleUpdateNote id field v2 (handleUpdateNote id field v1 s)
     = handleUpdateNote id field v2 s)
  ∧ (∀ id id' field field' v v',
       id ≠ id' ∨ field ≠ field' →
       handleUpdateNote id field v (handleUpdateNote id' field' v' s)
       = handleUpdateNote id' field' v' (handleUpdateNote id field v s)).
Proof.
  split.
  - intros id field v1 v2. unfold handleUpdateNote, setNotes. cbn. f_equal.
    rewrite List.map_map. apply List.map_ext. intros n.
    apply update_twice.
  - intros id id' field field' v v' Hdiff. unfold handleUpdateNote, setNotes. cbn. f_equal.
    rewrite !List.map_map. apply List.map_ext. intros n.
    destruct (bool_decide (Note.id n = id)) eqn:E, (bool_decide (Note.id n = id')) eqn:E';
      rewrite ?setField_id, ?E, ?E'; try done.
    apply bool_decide_eq_true in E, E'. destruct Hdiff as [Hd|Hd]; [congruence|].
    by destruct field, field'.
Qed.

Lemma update_compose_witness :
  ("1" ≠ "1" ∨ title ≠ content)
  ∧ handleUpdateNote "1" title "T" (handleUpdateNote "1" content "C" editing)
    = handleUpdateNote "1" content "C" (handleUpdateNote "1" title "T" editing).
Proof.
  assert ("1" ≠ "1" ∨ title ≠ content) as H by (right; discriminate).
  split; [exact H|].
  exact (proj2 (update_compose editing) "1" "1" title content "T" "C" H).
Defined.

Lemma filter_sublist {A} (P : A → bool) (l : list A) : List.filter P l `sublist_of` l.
Proof.
  induction l as [|a l IH]; [done|]. cbn.
  destruct (P a); by constructor.
Qed.

(** X16. A deletion that is not confirmed changes nothing.  A confirmed
    deletion removes every note under the id and keeps the others in their
    order; afterwards the editor shows nothing if it showed a note under
    that id, and the note it showed before otherwise. *)
Theorem delete_note_effect id s :
  handleDeleteNote false id s = s
  ∧ (∀ n, n ∈ notes (handleDeleteNote true id s) ↔ n ∈ notes s ∧ Note.id n ≠ id)
  ∧ notes (handleDeleteNote true id s) `sublist_of` notes s
  ∧ activeNote (handleDeleteNote true id s)
    = if bool_decide (activeNoteId s = Some id) then None else activeNote s.
Proof.
  split; [done|].
  assert (notes (handleDeleteNote true id s)
          = List.filter (λ n, bool_decide (Note.id n ≠ id)) (notes s)) as Hnotes.
  { unfold handleDeleteNote, invalidate. by repeat case_match. }
  assert (activeNoteId (handleDeleteNote true id s)
          = if bool_decide (activeNoteId s = Some id) then None else activeNoteId s) as Hact.
  { unfold handleDeleteNote, invalidate. by repeat case_match. }
  rewrite Hnotes. split; [|split].
  - intros n. rewrite !list_elem_of_In, List.filter_In, bool_decide_eq_true. done.
  - apply filter_sublist.
  - unfold activeNote. rewrite Hact, Hnotes. case_bool_decide as Ha.
    + apply eq_None_not_Some. intros [n Hn]. apply List.find_some in Hn as [_ Hn].
      by apply bool_decide_eq_true in Hn.
    + apply find_filter_implied. intros n Hn%bool_decide_eq_true.
      apply bool_decide_eq_true. intros E. apply Ha. by rewrite <- Hn, E.
Qed.

Lemma delete_note_effect_witness :
  (∃ n, n ∈ notes editing ∧ Note.id n ≠ "1")
  ∧ Note.id <$> notes (handleDeleteNote true "1" editing) = ["3"]
  ∧ activeNote (handleDeleteNote true "1" editing) = None.
Proof.
  split; [|split].
  - eexists. split; [apply list_elem_of_further, list_elem_of_here | by vm_compute].
  - vm_compute. reflexivity.
  - rewrite (proj2 (proj2 (proj2 (delete_note_effect "1" editing)))).
    vm_compute. reflexivity.
Defined.

(** X17. A new note is put before the others, becomes the active note even
    if an older note has the same id, and is what the content area shows,
    whatever was shown before. *)
Theorem create_note_effect now iso s :
  notes (handleCreateNote now iso s) = newNote now iso :: notes s
  ∧ activeNote (handleCreateNote now iso s) = Some (newNote now iso)
  ∧ renderContent (handleCreateNote now iso s) = Editor (newNote now iso).
Proof.
  assert (notes (handleCreateNote now iso s) = newNote now iso :: notes s
          ∧ activeNoteId (handleCreateNote now iso s) = Some (Note.id (newNote now iso))
          ∧ viewMode (handleCreateNote now iso s) = editor) as (Hn & Ha & Hv).
  { unfold handleCreateNote, invalidate. by destruct (hasClustered s). }
  assert (activeNote (handleCreateNote now iso s) = Some (newNote now iso)) as Hactive.
  { unfold activeNote. rewrite Hn, Ha. cbn [List.find]. by rewrite bool_decide_eq_true_2. }
  repeat split; [done..|].
  unfold renderContent. rewrite Hv, Hactive.
  rewrite (bool_decide_eq_false_2 (editor = graph)) by done.
  by rewrite andb_false_r.
Qed.

(** Every action keeps the clusters empty while the clustering is not
    marked as done. *)
Lemma act_consistent s (a : Action) :
  clusteringConsistent s → clusteringConsistent (act s a).
Proof.
  unfold clusteringConsistent. destruct a; cbn [act]; try done.
  - unfold handleCreateNote, invalidate. destruct (hasClustered s) eqn:E; cbn; [done|].
    by rewrite E.
  - destruct confirmed; [|done]. unfold handleDeleteNote, invalidate.
    destruct (hasClustered s) eqn:E; [done|]. case_bool_decide; cbn; by rewrite E.
  - destruct answer; cbn; done.
  - unfold processFiles, invalidate.
    destruct (readFiles _ _ _ _ _); [|done]. destruct (Nat.ltb _ _); [|done].
    destruct flag; cbn; done.
Qed.

Lemma run_consistent actions s :
  clusteringConsistent s → clusteringConsistent (run actions s).
Proof.
  unfold run. revert s. induction actions as [|a actions IH]; intros s Hs; [done|].
  cbn. by apply IH, act_consistent.
Qed.

(** X18. In every state that the actions can reach from the first render,
    clusters are only held while the clustering is marked as done.  So the
    creation of a note and a confirmed deletion always leave no cluster, and
    the content area shows the graph only over the clusters of a clustering
    that is marked as done. *)
Theorem clustering_withdrawn actions initialNotes online :
  let s := run actions (initialState initialNotes online) in
  clusteringConsistent s
  ∧ (∀ now iso, clusters (handleCreateNote now iso s) = [])
  ∧ (∀ id, clusters (handleDeleteNote true id s) = [])
  ∧ (∀ cs, renderContent s = Graph cs →
       hasClustered s = true ∧ cs = clusters s ∧ cs ≠ []).
Proof.
  intros s. assert (clusteringConsistent s) as Hs by by apply run_consistent.
  clearbody s. split; [done|]. unfold clusteringConsistent in Hs. split; [|split].
  - intros now iso. unfold handleCreateNote, invalidate.
    destruct (hasClustered s) eqn:E; [done|]. cbn. by apply Hs.
  - intros id. unfold handleDeleteNote, invalidate.
    destruct (hasClustered s) eqn:E; [done|]. case_bool_decide; cbn; by apply Hs.
  - intros cs Hgraph. unfold renderContent in Hgraph.
    destruct (_ && _ && _)%bool; [done|].
    destruct (bool_decide (viewMode s = graph) && negb (length (clusters s) =? 0)%nat)%bool
      eqn:Hg; [|by destruct (activeNote s)].
    injection Hgraph as <-. apply andb_prop in Hg as [_ Hlen].
    assert (clusters s ≠ []) as Hne.
    { intros E. by rewrite E in Hlen. }
    repeat split; [|done]. destruct (hasClustered s); [done|]. by destruct Hne; apply Hs.
Qed.

Lemma clustering_withdrawn_witness :
  let s := run [ClusterDone (Some (ClusterGraph.twoGroups None)); SetIsOnline false]
               (initialState twoNotes true) in
  renderContent s = Graph (ClusterGraph.twoGroups None)
  ∧ hasClustered s = true
  ∧ clusters (handleDeleteNote true "3" s) = [].
Proof.
  intros s.
  assert (renderContent s = Graph (ClusterGraph.twoGroups None)) as Hg
    by (vm_compute; reflexivity).
  destruct (clustering_withdrawn
              [ClusterDone (Some (ClusterGraph.twoGroups None)); SetIsOnline false]
              twoNotes true) as (_ & _ & Hdel & Hgraph).
  split; [exact Hg|]. split; [exact (proj1 (Hgraph _ Hg)) | exact (Hdel "3")].
Defined.

End Notes.

Section Imports.

Implicit Types (s : State) (files : list (File * Z)) (trim : string → string).

Lemma readFiles_spec trim dateStr i files (acc : list Note.t) :
  readFiles trim dateStr i files acc
  = if forallb readable files
    then Some (acc ++ importedFrom trim dateStr i files)
    else None.
Proof.
  revert i acc. induction files as [|[f now] files IH]; intros i acc.
  - cbn. by rewrite app_nil_r.
  - cbn [readFiles forallb importedFrom]. unfold readable at 1, acceptedText. cbn [fst].
    destruct (accepted f); cbn [negb orb].
    + destruct (text f) as [txt|]; cbn.
      * rewrite IH. destruct (forallb readable files); [|done].
        by rewrite <- app_assoc.
      * done.
    + by rewrite IH.
Qed.

Lemma importedFrom_content trim dateStr i files :
  forallb readable files = true →
  Note.content <$> importedFrom trim dateStr i files = omap acceptedText files.
Proof.
  revert i. induction files as [|[f now] files IH]; intros i; [done|].
  cbn [forallb importedFrom omap list_omap]. intros [Hr Hrest]%andb_prop.
  rewrite fmap_app, IH by done. by destruct (acceptedText (f, now)).
Qed.

Lemma importedFrom_made trim dateStr i files n :
  n ∈ importedFrom trim dateStr i files →
  Note.tags n = ["imported"] ∧ Note.folder n = "/uploads" ∧ Note.createdAt n = dateStr.
Proof.
  revert i. induction files as [|[f now] files IH]; intros i; cbn [importedFrom].
  - by intros ?%elem_of_nil.
  - rewrite elem_of_app. intros [Hn|Hn]; [|by eapply IH].
    destruct (acceptedText (f, now)); [|by apply elem_of_nil in Hn].
    by apply list_elem_of_singleton in Hn as ->.
Qed.

Lemma import_notes trim iso flag files s :
  (notes (processFiles trim iso flag files s)
   = notes s ++ importedFrom trim (beforeChar "T"%char iso) 0 files
   ∧ forallb readable files = true)
  ∨ notes (processFiles trim iso flag files s) = notes s.
Proof.
  unfold processFiles. rewrite readFiles_spec. cbn [app].
  destruct (forallb readable files); [|by right]. left. split; [|done].
  destruct (importedFrom _ _ _ _) as [|n0 new']; cbn [length Nat.ltb Nat.leb].
  - by rewrite app_nil_r.
  - by destruct flag.
Qed.

(** X19. An import closes the dialog and clears the status.  It keeps the
    notes that were there and appends, in the order of the files, one note
    for each file whose name ends in [.md] or [.txt], with the text of the
    file as content, the tag [imported] and the folder [/uploads]; every
    other file is left out.  When one of the reads fails nothing is added. *)
Theorem import_effect trim iso flag files s :
  isUploadModalOpen (processFiles trim iso flag files s) = false
  ∧ status (processFiles trim iso flag files s) = idle
  ∧ ∃ newNotes,
      notes (processFiles trim iso flag files s) = notes s ++ newNotes
      ∧ (∀ n, n ∈ newNotes →
           Note.tags n = ["imported"] ∧ Note.folder n = "/uploads"
           ∧ Note.createdAt n = beforeChar "T"%char iso)
      ∧ (forallb readable files = true →
           Note.content <$> newNotes = omap acceptedText files)
      ∧ (forallb readable files = false → newNotes = []).
Proof.
  unfold processFiles. rewrite readFiles_spec. cbn [app].
  destruct (forallb readable files) eqn:Hr.
  - set (new := importedFrom trim (beforeChar "T"%char iso) 0 files).
    assert (∀ n, n ∈ new → Note.tags n = ["imported"] ∧ Note.folder n = "/uploads"
                           ∧ Note.createdAt n = beforeChar "T"%char iso) as Hmade
      by (intros n; apply importedFrom_made).
    assert (Note.content <$> new = omap acceptedText files) as Hcontent
      by by apply importedFrom_content.
    clearbody new. split; [by destruct (Nat.ltb _ _), flag|].
    split; [by destruct (Nat.ltb _ _), flag|].
    exists new. split; [|split; [exact Hmade|split; [by intros _|done]]].
    destruct new as [|n0 new']; cbn [length Nat.ltb Nat.leb].
    + by rewrite app_nil_r.
    + by destruct flag.
  - repeat split; try done. exists []. rewrite app_nil_r.
    split; [done|]. split; [by intros n ?%elem_of_nil|done].
Qed.

Lemma import_effect_witness :
  let files := [(mkFile "a.md" (Some "# A"), 5%Z);
                (mkFile "b.markdown" (Some "ignored"), 6%Z);
                (mkFile "c.txt" (Some "plain"), 7%Z)] in
  forallb readable files = true
  ∧ ∃ newNotes,
      notes (processFiles (λ x, x) "2024-01-02T03:04:05.000Z" false files editing)
      = notes editing ++ newNotes
      ∧ Note.content <$> newNotes = ["# A"; "plain"].
Proof.
  intros files. assert (forallb readable files = true) as Hr by (vm_compute; reflexivity).
  split; [exact Hr|].
  destruct (import_effect (λ x, x) "2024-01-02T03:04:05.000Z" false files editing)
    as (_ & _ & new & Hn & _ & Hc & _).
  exists new. split; [exact Hn|]. exact (Hc Hr).
Defined.

Lemma pretty_N_go_noDash (x : N) (s : string) :
  noDash s = true → noDash (pretty_N_go x s) = true.
Proof.
  revert s. induction (N.lt_wf_0 x) as [x _ IH]; intros s Hs.
  assert (x = 0 ∨ 0 < x)%N as [->|Hx] by lia.
  - by rewrite pretty_N_go_0.
  - rewrite pretty_N_go_step by done. apply IH; [by apply N.div_lt|].
    cbn [noDash]. rewrite Hs. unfold pretty_N_char. by repeat case_match.
Qed.

Lemma pretty_nat_noDash (i : nat) : noDash (pretty i) = true.
Proof.
  unfold pretty, pretty_nat, pretty, pretty_N. case_decide; [done|].
  by apply pretty_N_go_noDash.
Qed.

Lemma append_cons (c : ascii) (a x : string) : String c a +:+ x = String c (a +:+ x).
Proof. done. Qed.

Lemma append_nil (x : string) : "" +:+ x = x.
Proof. done. Qed.

Lemma noDash_after_dash (b q : string) : noDash (b +:+ String "-"%char q) = false.
Proof.
  induction b as [|c b IH]; [done|].
  rewrite append_cons. cbn [noDash]. rewrite IH. apply andb_false_r.
Qed.

Lemma dash_split (a b p q : string) :
  noDash p = true → noDash q = true →
  a +:+ String "-"%char p = b +:+ String "-"%char q → p = q.
Proof.
  intros Hp Hq. revert b.
  induction a as [|c a IH]; intros [|c' b]; rewrite ?append_cons, ?append_nil.
  - by intros [= ->].
  - intros [= _ ->]. by rewrite noDash_after_dash in Hp.
  - intros [= _ <-]. by rewrite noDash_after_dash in Hq.
  - intros [= _ H]. by apply IH in H.
Qed.

Lemma importedId_inj (now now' : Z) (i j : nat) :
  importedId now i = importedId now' j → i = j.
Proof.
  unfold importedId. rewrite !append_cons, !append_nil. intros [= H].
  change ("-" +:+ pretty i) with (String "-"%char (pretty i)) in H.
  change ("-" +:+ pretty j) with (String "-"%char (pretty j)) in H.
  apply dash_split in H; [|apply pretty_nat_noDash..].
  by apply (inj pretty) in H.
Qed.

Lemma acceptedIndexed_ge i files (p : Z * nat) :
  p ∈ acceptedIndexed i files → (i ≤ p.2)%nat.
Proof.
  revert i. induction files as [|[f now] files IH]; intros i; cbn [acceptedIndexed].
  - by intros ?%elem_of_nil.
  - rewrite elem_of_app. intros [Hp|Hp%IH]; [|lia].
    destruct (accepted f); [|by apply elem_of_nil in Hp].
    by apply list_elem_of_singleton in Hp as ->.
Qed.

Lemma acceptedIndexed_ids_NoDup i files :
  NoDup ((λ p, importedId p.1 p.2) <$> acceptedIndexed i files).
Proof.
  revert i. induction files as [|[f now] files IH]; intros i; cbn [acceptedIndexed].
  - constructor.
  - destruct (accepted f); cbn; [|apply IH].
    apply NoDup_cons. split; [|apply IH].
    intros (p & Hid & Hp)%list_elem_of_fmap.
    apply importedId_inj in Hid. apply acceptedIndexed_ge in Hp. lia.
Qed.

Lemma importedFrom_ids trim dateStr i files :
  forallb readable files = true →
  Note.id <$> importedFrom trim dateStr i files
  = (λ p, importedId p.1 p.2) <$> acceptedIndexed i files.
Proof.
  revert i. induction files as [|[f now] files IH]; intros i; [done|].
  cbn [forallb importedFrom acceptedIndexed]. intros [Hr Hrest]%andb_prop.
  rewrite !fmap_app, IH by done. f_equal.
  unfold readable in Hr. unfold acceptedText. cbn [fst] in *.
  destruct (accepted f); [|done]. cbn in Hr. apply bool_decide_eq_true in Hr as [txt ->].
  done.
Qed.

(** X20. The notes that one import adds have pairwise distinct ids,
    whatever the clock returns for each file, and there is at most one of
    them per file. *)
Theorem imported_ids_distinct trim iso flag files s :
  NoDup (Note.id <$> drop (length (notes s)) (notes (processFiles trim iso flag files s)))
  ∧ (length (notes (processFiles trim iso flag files s))
     ≤ length (notes s) + length files)%nat.
Proof.
  destruct (import_notes trim iso flag files s) as [[-> Hr]| ->].
  - rewrite drop_app_length, length_app, importedFrom_ids by done. split.
    + apply acceptedIndexed_ids_NoDup.
    + apply Nat.add_le_mono_l. clear. generalize 0.
      induction files as [|[f now] files IH]; intros i; cbn [importedFrom length]; [done|].
      rewrite length_app. specialize (IH (S i)).
      destruct (acceptedText (f, now)); cbn [length]; lia.
  - rewrite drop_all. split; [constructor | lia].
Qed.

Lemma substring_all (s : string) : String.substring 0 (String.length s) s = s.
Proof. induction s as [|c s IH]; cbn; [done|]. by rewrite IH. Qed.

Lemma substring_split (n : nat) (s : string) :
  (n ≤ String.length s)%nat →
  String.substring 0 n s +:+ String.substring n (String.length s - n) s = s.
Proof.
  revert n. induction s as [|c s IH]; intros [|n] Hn; cbn in Hn; try lia.
  - done.
  - change (String.substring 0 0 (String c s)) with "".
    rewrite append_nil, Nat.sub_0_r. apply substring_all.
  - change (String.substring 0 (S n) (String c s)) with (String c (String.substring 0 n s)).
    change (String.substring (S n) (String.length (String c s) - S n) (String c s))
      with (String.substring n (String.length s - n) s).
    rewrite append_cons, IH by lia. done.
Qed.

Lemma endsWith_split (suffix s : string) :
  endsWith suffix s = true → dropLast (String.length suffix) s +:+ suffix = s.
Proof.
  unfold endsWith, dropLast. intros [Hlen Heq]%andb_prop.
  apply Nat.leb_le in Hlen. apply String.eqb_eq in Heq.
  rewrite <- Heq at 2.
  etrans; [|apply (substring_split (String.length s - String.length suffix) s); lia].
  do 2 f_equal. lia.
Qed.

(** X21. The title of an imported note: when the first line of the text,
    trimmed, starts with a hash and a space, the title is the rest of that
    line; otherwise the title is the name of the file without its [.md] or
    [.txt]. *)
Theorem imported_title trim (f : File) (txt : string) :
  accepted f = true →
  let firstLine := trim (beforeChar "010"%char txt) in
  (String.prefix "# " firstLine = true → "# " +:+ titleOf trim (name f) txt = firstLine)
  ∧ (String.prefix "# " firstLine = false →
     titleOf trim (name f) txt +:+ ".md" = name f
     ∨ titleOf trim (name f) txt +:+ ".txt" = name f).
Proof.
  intros Hacc firstLine. unfold titleOf. fold firstLine. split.
  - intros Hp. rewrite Hp. clearbody firstLine.
    apply String.prefix_correct in Hp.
    destruct firstLine as [|a [|b rest]]; try done.
    cbn in Hp. injection Hp as -> -> _.
    change (String.substring 2 (String.length (String "#" (String " " rest)) - 2)
              (String "#" (String " " rest)))
      with (String.substring 0 (String.length rest - 0) rest).
    rewrite Nat.sub_0_r, substring_all. done.
  - intros Hp. rewrite Hp. unfold accepted in Hacc. unfold stripExtension.
    destruct (endsWith ".md" (name f)) eqn:Hmd.
    + left. by apply (endsWith_split ".md").
    + right. cbn in Hacc. rewrite Hacc. by apply (endsWith_split ".txt").
Qed.

Lemma imported_title_witness :
  let heading := "# Sourdough" +:+ nl +:+ "Flour, water" +:+ nl +:+ "# Baking" in
  let plain := "buy milk" +:+ nl +:+ "# Groceries" in
  (accepted (mkFile "bread.md" (Some heading)) = true
   ∧ beforeChar "010"%char heading = "# Sourdough"
   ∧ String.prefix "# " (beforeChar "010"%char heading) = true
   ∧ titleOf (λ x, x) "bread.md" heading = "Sourdough")
  ∧ (accepted (mkFile "todo.txt" (Some plain)) = true
     ∧ beforeChar "010"%char plain = "buy milk"
     ∧ String.prefix "# " (beforeChar "010"%char plain) = false
     ∧ titleOf (λ x, x) "todo.txt" plain = "todo").
Proof.
  intros heading plain. split.
  - assert (accepted (mkFile "bread.md" (Some heading)) = true) as Ha by reflexivity.
    assert (String.prefix "# " (beforeChar "010"%char heading) = true) as Hp
      by (vm_compute; reflexivity).
    split; [exact Ha|]. split; [vm_compute; reflexivity|]. split; [exact Hp|].
    pose proof (proj1 (imported_title (λ x, x) (mkFile "bread.md" (Some heading))
                         heading Ha) Hp) as H.
    cbn [name] in H. apply (String.app_inj "# ").
    etrans; [exact H|]. vm_compute. reflexivity.
  - assert (accepted (mkFile "todo.txt" (Some plain)) = true) as Ha by reflexivity.
    assert (String.prefix "# " (beforeChar "010"%char plain) = false) as Hp
      by (vm_compute; reflexivity).
    split; [exact Ha|]. split; [vm_compute; reflexivity|]. split; [exact Hp|].
    destruct (proj2 (imported_title (λ x, x) (mkFile "todo.txt" (Some plain))
                       plain Ha) Hp) as [H|H].
    + by vm_compute in H.
    + vm_compute. reflexivity.
Defined.

End Imports.

Section Graph.

Import ClusterGraph.

Implicit Types (s : State) (rf : Refs) (ss : list Step) (effects : list Effect).

Lemma fold_toApp effects s :
  List.filter isNoteSelect effects = [] → fold_left toApp effects s = s.
Proof.
  induction effects as [|e effects IH]; [done|]. cbn.
  destruct e; cbn; try done. all: intros H; by apply IH.
Qed.

Lemma filter_isNoteSelect_app effects1 effects2 :
  List.filter isNoteSelect (effects1 ++ effects2)
  = List.filter isNoteSelect effects1 ++ List.filter isNoteSelect effects2.
Proof. apply List.filter_app. Qed.

Lemma handler_no_select (d : D3Node) (selected : Selected) (event : Event.t) rf :
  List.filter isNoteSelect (onDragStart event d rf).2 = []
  ∧ List.filter isNoteSelect (onDrag selected event d rf).2 = []
  ∧ List.filter isNoteSelect (onDragEnd event d rf).2 = [].
Proof.
  split; [|split].
  - unfold onDragStart. by destruct (Nat.eqb _ _).
  - unfold onDrag. destruct (decide _); [|done].
    destruct (truthyId _); [|done]. by destruct selected.
  - unfold onDragEnd. cbn [snd]. rewrite !filter_isNoteSelect_app.
    assert (List.filter isNoteSelect (reparentCall (setPin Null Null d) rf) = []) as ->.
    { unfold reparentCall. by repeat case_match. }
    by destruct (Nat.eqb _ _).
Qed.

Lemma steps_no_select i ss rf rf' effects :
  steps i ss rf = Some (rf', effects) → List.filter isNoteSelect effects = [].
Proof.
  revert rf rf' effects. induction ss as [|st ss IH]; intros rf rf' effects.
  - by intros [= _ <-].
  - cbn [steps]. destruct (step i st rf) as [[rf1 e1]|] eqn:E1; [|done]. cbn.
    destruct (steps i ss rf1) as [[rf2 e2]|] eqn:E2; [|done]. cbn.
    intros [= _ <-]. rewrite filter_isNoteSelect_app, (IH _ _ _ E2), app_nil_r.
    destruct st as [event selected|p|cb]; cbn [step] in E1.
    + apply atNode_Some in E1 as (d & _ & _ & ->). apply handler_no_select.
    + by injection E1 as _ <-.
    + by injection E1 as _ <-.
Qed.

Lemma latestCallback_none ss :
  (∀ cb, Render (Some cb) ∉ ss) → latestCallback ss None = None.
Proof.
  unfold latestCallback. induction ss as [|st ss IH]; intros Hss; [done|].
  assert (∀ cb, Render (Some cb) ∉ ss) as Hrest.
  { intros cb Hin. apply (Hss cb). by apply list_elem_of_further. }
  cbn. destruct st as [event|p|[cb|]]; try by apply IH.
  exfalso. apply (Hss cb). apply list_elem_of_here.
Qed.

(** X22. As [App] mounts the component, without [onNodeReparent], a drag
    has no effect outside the component: whatever the gesture, it calls
    nothing and leaves the state of [App] as it is. *)
Theorem drag_is_inert_in_app i down ss up rf rf' effects s :
  onReparentRef rf = appReparent →
  (∀ cb, Render (Some cb) ∉ ss) →
  gesture i down ss up rf = Some (rf', effects) →
  reparents effects = [] ∧ fold_left toApp effects s = s.
Proof.
  intros Hslot Hss Hg.
  pose proof (gesture_reparents _ _ _ _ _ _ _ Hg)
    as (rf1 & e1 & rf2 & e2 & d2 & Hstart & Hsteps & _ & Hcalls & _).
  destruct (start_sound _ _ _ _ _ Hstart) as (_ & _ & Hc1 & _).
  destruct (steps_sound _ _ _ _ _ Hsteps) as (_ & _ & Hc2 & _).
  assert (onReparentRef rf2 = None) as Hnone.
  { rewrite Hc2, Hc1, Hslot. by apply latestCallback_none. }
  split.
  - rewrite Hcalls. unfold reparentCall. rewrite Hnone.
    destruct (decide _); [|done]. by destruct (truthyId _).
  - apply fold_toApp.
    apply gesture_Some in Hg as (rf1' & e1' & rf2' & e2' & e3 & Hs' & Hst' & He' & ->).
    rewrite !filter_isNoteSelect_app, (steps_no_select _ _ _ _ _ Hst').
    apply atNode_Some in Hs' as (d & _ & _ & ->), He' as (d' & _ & _ & ->).
    destruct (handler_no_select d NoElement down rf) as (-> & _).
    by destruct (handler_no_select d' NoElement up rf2') as (_ & _ & ->).
Qed.

Lemma drag_is_inert_in_app_witness :
  let idle := started (twoGroups (Some "n1_leafRef")) viewport appReparent in
  let ss := carryOverG2 ++ [Render None] in
  (onReparentRef idle = appReparent
   ∧ is_Some (gesture 2 (pointer 250 300) ss (pointer 481 300) idle))
  ∧ ∀ rf' effects,
      gesture 2 (pointer 250 300) ss (pointer 481 300) idle = Some (rf', effects) →
      fold_left toApp effects editing = editing.
Proof.
  intros idle ss.
  assert (onReparentRef idle = appReparent) as Hslot by (vm_compute; reflexivity).
  split; [split; [exact Hslot | vm_compute; eexists; reflexivity]|].
  intros rf' effects Hg.
  refine (proj2 (drag_is_inert_in_app 2 _ ss _ idle rf' effects editing Hslot _ Hg)).
  intros cb Hin. unfold ss, carryOverG2 in Hin.
  repeat (apply elem_of_cons in Hin as [Hin|Hin]; [discriminate Hin|]).
  by apply elem_of_nil in Hin.
Defined.

Lemma find_pointwise {A} (f g : A → bool) (l : list A) :
  (∀ a, f a = g a) → List.find f l = List.find g l.
Proof.
  intros Hfg. induction l as [|a l IH]; [done|]. cbn. by rewrite Hfg, IH.
Qed.

(** X23. A click on a node of the graph that selects a note closes the
    graph and opens the first note under the selected id in the editor, or
    the placeholder if the tree refers to a note that does not exist. *)
Theorem click_opens_note s (d : D3Node) (ref : string) :
  onClick d = [NoteSelect ref] →
  renderContent (fold_left toApp (onClick d) s)
  = match List.find (λ n, bool_decide (Note.id n = ref)) (notes s) with
    | Some n => Editor n
    | None => Placeholder
    end.
Proof.
  intros ->. cbn [fold_left toApp]. unfold renderContent, selectNote.
  cbn [viewMode setViewMode status clusters].
  rewrite (bool_decide_eq_false_2 (editor = graph)) by done.
  rewrite andb_false_r. cbn [andb].
  unfold activeNote. cbn [notes activeNoteId setViewMode setActiveNoteId].
  erewrite find_pointwise; [done|]. intros n. cbn.
  apply bool_decide_ext. split; [by intros [= ->] | by intros ->].
Qed.

Lemma click_opens_note_witness :
  let tree := [group "g" "AI" [leaf "n" "Transformers" (Some "1")]] in
  let s := run [ClusterDone (Some tree)] (initialState twoNotes true) in
  let d := noteNode (group "g" "AI" []) (leaf "n" "Transformers" (Some "1")) in
  (renderContent s = App.Graph tree ∧ onClick d = [NoteSelect "1"])
  ∧ Note.title <$> activeNote (fold_left toApp (onClick d) s)
    = Some "Transformer Architecture Basics"
  ∧ ∃ n, renderContent (fold_left toApp (onClick d) s) = Editor n.
Proof.
  intros tree s d.
  assert (onClick d = [NoteSelect "1"]) as Hclick by (vm_compute; reflexivity).
  split; [split; [vm_compute; reflexivity | exact Hclick]|].
  split; [vm_compute; reflexivity|].
  rewrite (click_opens_note s d "1" Hclick). eexists. vm_compute. reflexivity.
Defined.

End Graph.

Section Search.

Variables (trim toLowerCase : string → string).

Implicit Types (s : State) (e : Event).

Lemma act_connection s (a : Action) :
  viaHandler (Handled a) = true →
  isOnline (act s a) = isOnline s ∧ searchMode (act s a) = searchMode s.
Proof.
  destruct a; cbn [act viaHandler]; try done.
  - intros _. unfold handleCreateNote, invalidate. by destruct (hasClustered s).
  - intros _. destruct confirmed; [|done]. unfold handleDeleteNote, invalidate.
    destruct (hasClustered s); by case_bool_decide.
  - intros _. by destruct answer.
  - intros _. unfold processFiles, invalidate.
    destruct (readFiles _ _ _ _ _); [|done]. destruct (Nat.ltb _ _); [|done].
    by destruct flag.
Qed.

Lemma handleSearch_connection answer s :
  isOnline s = true ∨ searchMode s = EXACT →
  isOnline (handleSearch trim toLowerCase answer s) = isOnline s
  ∧ searchMode (handleSearch trim toLowerCase answer s) = searchMode s.
Proof.
  intros Hinv. unfold handleSearch. case_bool_decide; [done|].
  assert ((negb (isOnline s) && negb (bool_decide (searchMode s = EXACT)))%bool = false) as ->.
  { destruct Hinv as [-> | ->]; [done|]. apply andb_false_r. }
  case_bool_decide; [done|]. by destruct answer.
Qed.

Lemma handle_connection s e :
  viaHandler e = true →
  isOnline s = true ∨ searchMode s = EXACT →
  isOnline (handle trim toLowerCase s e) = true
  ∨ searchMode (handle trim toLowerCase s e) = EXACT.
Proof.
  intros He Hinv. destruct e; cbn [handle].
  - by left.
  - right. unfold handleOffline. by case_bool_decide.
  - by right.
  - unfold hybridButton. destruct (isOnline s) eqn:E; [by left|].
    destruct Hinv as [?|?]; [done|by right].
  - done.
  - unfold debounced. case_bool_decide; [|done].
    by destruct (handleSearch_connection None s Hinv) as [-> ->].
  - unfold triggerSemanticSearch. destruct (_ && _)%bool; [|done].
    by destruct (handleSearch_connection answer s Hinv) as [-> ->].
  - by destruct (act_connection s a He) as [-> ->].
Qed.

(** X24. Whatever happens through the handlers of [App], the mode is exact
    while the connection is down; so a search never changes the mode: the
    fallback to exact search at the head of [handleSearch] is never taken. *)
Theorem offline_means_exact (events : list Event) (initialNotes : list Note.t) (online : bool) :
  Forall (λ e, viaHandler e = true) events →
  let s := fold_left (handle trim toLowerCase) events (initialState initialNotes online) in
  (isOnline s = true ∨ searchMode s = EXACT)
  ∧ ∀ answer, searchMode (handleSearch trim toLowerCase answer s) = searchMode s.
Proof.
  intros Hev.
  assert (∀ s0, isOnline s0 = true ∨ searchMode s0 = EXACT →
            isOnline (fold_left (handle trim toLowerCase) events s0) = true
            ∨ searchMode (fold_left (handle trim toLowerCase) events s0) = EXACT) as Hrun.
  { induction Hev as [|e events He _ IH]; intros s0 H0; [done|].
    cbn [fold_left]. apply IH. by apply handle_connection. }
  cbv zeta. split.
  - apply Hrun. by right.
  - intros answer. apply handleSearch_connection, Hrun. by right.
Qed.

End Search.

Lemma offline_means_exact_witness :
  let events := [Typed "Bread"; HybridButton; EnterPressed None; WentOffline;
                 TimerFired; Handled (Select "3")] in
  let s := fold_left (handle id id) events (initialState twoNotes true) in
  Forall (λ e, viaHandler e = true) events
  ∧ (isOnline s = false ∧ searchMode s = EXACT
     ∧ Note.id ∘ note <$> searchResults s = ["3"])
  ∧ ∀ answer, searchMode (handleSearch id id answer s) = searchMode s.
Proof.
  intros events s.
  assert (Forall (λ e, viaHandler e = true) events) as Hev.
  { repeat (constructor; [reflexivity|]). constructor. }
  split; [exact Hev|]. split; [vm_compute; by repeat split|].
  exact (proj2 (offline_means_exact id id events twoNotes true Hev)).
Defined.

End AppFacts.

(** ** Facts about services/searchService.ts *)

Module SearchFacts.

Import SearchService.

Section Escape.

Implicit Types (c : ascii) (value : str).

Lemma replaceAll_app c (by_ v1 v2 : str) :
  replaceAll c by_ (v1 ++ v2) = replaceAll c by_ v1 ++ replaceAll c by_ v2.
Proof.
  induction v1 as [|a v1 IH]; [done|]. cbn [app replaceAll]. rewrite IH.
  destruct (Ascii.eqb a c); [by rewrite app_assoc | done].
Qed.

Lemma escapeHtml_app (v1 v2 : str) : escapeHtml (v1 ++ v2) = escapeHtml v1 ++ escapeHtml v2.
Proof. unfold escapeHtml. by rewrite !replaceAll_app. Qed.

Lemma escapeHtml_unit c : escapeHtml [c] = entity c.
Proof. destruct c as [[] [] [] [] [] [] [] []]; reflexivity. Qed.

Lemma escapeHtml_cons c value : escapeHtml (c :: value) = entity c ++ escapeHtml value.
Proof. change (c :: value) with ([c] ++ value). by rewrite escapeHtml_app, escapeHtml_unit. Qed.

Ltac classify :=
  repeat match goal with
         | |- context [Ascii.eqb ?a ?b] => destruct (Ascii.eqb_spec a b) as [-> | ?]
         end.

Lemma entity_inj c1 c2 (r1 r2 : str) :
  entity c1 ++ r1 = entity c2 ++ r2 → c1 = c2 ∧ r1 = r2.
Proof.
  unfold entity. classify; cbn; intros H; by simplify_eq.
Qed.

Lemma entity_cons c : ∃ a rest, entity c = a :: rest.
Proof. unfold entity. classify; cbn; eauto. Qed.

Lemma occurrences_app c (v1 v2 : str) :
  occurrences c (v1 ++ v2) = (occurrences c v1 + occurrences c v2)%nat.
Proof. unfold occurrences. by rewrite List.filter_app, length_app. Qed.

Lemma entity_clean c x :
  x = "<"%char ∨ x = ">"%char ∨ x = quot ∨ x = "'"%char → occurrences x (entity c) = 0%nat.
Proof.
  intros Hx. unfold entity. classify.
  1-5: by destruct Hx as [-> | [-> | [-> | ->]]].
  unfold occurrences. cbn. destruct (Ascii.eqb_spec x c) as [-> | ?]; [|done].
  by destruct Hx as [? | [? | [? | ?]]].
Qed.

Lemma escapeHtml_clean value x :
  x = "<"%char ∨ x = ">"%char ∨ x = quot ∨ x = "'"%char →
  occurrences x (escapeHtml value) = 0%nat.
Proof.
  intros Hx. induction value as [|c value IH]; [done|].
  by rewrite escapeHtml_cons, occurrences_app, entity_clean, IH.
Qed.

(** X25. The five replacements in a row escape each character of the
    value on its own: an ampersand that one replacement writes is not
    escaped again by another. *)
Theorem escape_is_pointwise value : escapeHtml value = value ≫= entity.
Proof.
  induction value as [|c value IH]; [done|].
  by rewrite escapeHtml_cons, bind_cons, IH.
Qed.

(** X26. The escape loses nothing: two values with the same escaped text
    are the same value. *)
Theorem escape_injective (v1 v2 : str) : escapeHtml v1 = escapeHtml v2 → v1 = v2.
Proof.
  revert v2. induction v1 as [|c1 v1 IH]; intros [|c2 v2].
  - done.
  - rewrite escapeHtml_cons. destruct (entity_cons c2) as (a & rest & ->). done.
  - rewrite escapeHtml_cons. destruct (entity_cons c1) as (a & rest & ->). done.
  - rewrite !escapeHtml_cons. intros [-> Hrest]%entity_inj. f_equal. by apply IH.
Qed.

Lemma escape_injective_witness :
  escapeHtml (lit "a<b & c") = lit "a&lt;b &amp; c"
  ∧ lit "a<b & c" = lit "a<b & c".
Proof.
  split; [vm_compute; reflexivity|].
  apply (escape_injective (lit "a<b & c") (lit "a<b & c")). vm_compute. reflexivity.
Defined.

End Escape.

Section Highlight.

Implicit Types (text : str).

Lemma slice_to text (a b : Z) :
  (0 ≤ a)%Z → (0 ≤ b)%Z →
  slice text a (Some b) = take (Z.to_nat b - Z.to_nat a) (drop (Z.to_nat a) text).
Proof.
  intros Ha Hb. unfold slice, relIndex. cbn [from_option].
  rewrite (proj2 (Z.ltb_ge a 0) Ha), (proj2 (Z.ltb_ge b 0) Hb).
  destruct (decide (a ≤ Z.of_nat (length text))%Z) as [Hle|Hgt].
  - rewrite (Z.min_l a) by done.
    destruct (decide (b ≤ Z.of_nat (length text))%Z) as [Hle'|Hgt'].
    + rewrite (Z.min_l b) by done. f_equal. lia.
    + rewrite (Z.min_r b) by lia.
      rewrite !take_ge; [done| |]; rewrite length_drop; lia.
  - rewrite (Z.min_r a) by lia.
    rewrite !drop_ge by lia. by rewrite !take_nil.
Qed.

Lemma slice_from text (a : Z) :
  (0 ≤ a)%Z → slice text a None = drop (Z.to_nat a) text.
Proof.
  intros Ha. unfold slice, relIndex. cbn [from_option].
  rewrite (proj2 (Z.ltb_ge a 0) Ha).
  destruct (decide (a ≤ Z.of_nat (length text))%Z) as [Hle|Hgt].
  - rewrite (Z.min_l a) by done. apply take_ge. rewrite length_drop. lia.
  - rewrite (Z.min_r a) by lia. rewrite !drop_ge by lia. by rewrite take_nil.
Qed.

Lemma drop_take_sub {A} (l : list A) (m k : nat) :
  drop m (take k l) = take (k - m) (drop m l).
Proof. apply List.skipn_firstn_comm. Qed.

(** X27. For a match that lies in the text, the marked part of the
    highlight is the match, before it come the last thirty characters of
    the text in front of the match and after it the first thirty behind it,
    or as many as there are, each part escaped. *)
Theorem highlight_window text (i n : nat) :
  (i + n ≤ length text)%nat →
  generateHighlight text (Z.of_nat i) (Z.of_nat n)
  = escapeHtml (drop (i - 30) (take i text)) ++ markOpen
    ++ escapeHtml (take n (drop i text)) ++ markClose
    ++ escapeHtml (take 30 (drop (i + n) text)).
Proof.
  intros Hin. unfold generateHighlight. cbv zeta.
  replace (Z.max 0 (Z.of_nat i)) with (Z.of_nat i) by lia.
  replace (Z.max 0 (Z.of_nat n)) with (Z.of_nat n) by lia.
  replace (Z.max 0 (Z.of_nat i - 30)) with (Z.of_nat (i - 30)) by lia.
  replace (Z.min (Z.of_nat (length text)) (Z.of_nat i + Z.of_nat n + 30))
    with (Z.of_nat (length text `min` (i + n + 30))) by lia.
  replace (Z.of_nat i - Z.of_nat (i - 30))%Z with (Z.of_nat (i `min` 30)) by lia.
  replace (Z.of_nat (i `min` 30) + Z.of_nat n)%Z with (Z.of_nat (i `min` 30 + n)) by lia.
  rewrite !slice_to, slice_from by lia. rewrite !Nat2Z.id. cbn [Z.to_nat].
  rewrite drop_0, Nat.sub_0_r.
  set (lo := (i - 30)%nat). set (hi := (length text `min` (i + n + 30))%nat).
  set (rel := (i `min` 30)%nat).
  assert (lo + rel = i)%nat as Hrel by lia.
  assert (take rel (take (hi - lo) (drop lo text)) = drop lo (take i text)) as ->.
  { rewrite take_take, (drop_take_sub text lo i). f_equal. lia. }
  assert (take (rel + n - rel) (drop rel (take (hi - lo) (drop lo text)))
          = take n (drop i text)) as ->.
  { rewrite drop_take_sub, drop_drop, take_take, Hrel. f_equal. lia. }
  assert (drop (rel + n) (take (hi - lo) (drop lo text))
          = take 30 (drop (i + n) text)) as ->; [|done].
  rewrite drop_take_sub, drop_drop.
  replace (lo + (rel + n))%nat with (i + n)%nat by lia.
  destruct (decide (length text ≤ i + n + 30)%nat) as [Hshort|Hlong].
  - rewrite !take_ge; [done| |]; rewrite length_drop; lia.
  - f_equal. lia.
Qed.

Lemma highlight_window_witness :
  let text := lit "Tom & Jerry <3 the perfect sourdough bread, every morning at 7" in
  (12 + 6 ≤ length text)%nat
  ∧ generateHighlight text 12 6
    = lit "Tom &amp; Jerry " ++ markOpen ++ lit "&lt;3 the" ++ markClose
      ++ lit " perfect sourdough bread, ever".
Proof.
  intros text.
  assert (12 + 6 ≤ length text)%nat as Hin by (vm_compute; lia).
  split; [exact Hin|].
  etrans; [exact (highlight_window text 12 6 Hin)|]. vm_compute. reflexivity.
Defined.

(** X28. Whatever the text and the match, the only angle brackets and
    double quotes of a highlight are those of the [mark] element around the
    match, and it has no single quote. *)
Theorem highlight_markup text (matchIndex matchLength : Z) :
  let h := generateHighlight text matchIndex matchLength in
  occurrences "<"%char h = 2%nat ∧ occurrences ">"%char h = 2%nat
  ∧ occurrences quot h = 2%nat ∧ occurrences "'"%char h = 0%nat.
Proof.
  cbv zeta. unfold generateHighlight. cbv zeta.
  rewrite !occurrences_app.
  rewrite !(escapeHtml_clean _ "<"%char), !(escapeHtml_clean _ ">"%char),
    !(escapeHtml_clean _ quot), !(escapeHtml_clean _ "'"%char) by tauto.
  by repeat split.
Qed.

End Highlight.

Section Hydrate.

Implicit Types (notes : list Note.t) (cached : list CachedSemanticResult).

Lemma fold_noteMap notes (m : gmap string Note.t) k :
  fold_left (λ m n, <[Note.id n := n]> m) notes m !! k
  = match lastNote k notes with Some n => Some n | None => m !! k end.
Proof.
  revert m. induction notes as [|n notes IH]; intros m; [done|].
  cbn [fold_left]. rewrite IH. unfold lastNote. cbn [List.filter].
  case_bool_decide as Hk.
  - rewrite last_cons. subst k. rewrite lookup_insert_eq.
    by destruct (last _).
  - rewrite lookup_insert_ne by done. done.
Qed.

Lemma noteMap_lookup notes k : noteMap notes !! k = lastNote k notes.
Proof.
  unfold noteMap. rewrite fold_noteMap, lookup_empty. by destruct (lastNote k notes).
Qed.

Lemma lastNote_known notes entry :
  known notes entry = bool_decide (is_Some (lastNote (noteId entry) notes)).
Proof.
  unfold known, lastNote. apply bool_decide_ext.
  rewrite last_is_Some, list_elem_of_fmap. split.
  - intros (n & Hid & Hn) Hnil.
    assert (n ∈ List.filter (λ n, bool_decide (Note.id n = noteId entry)) notes) as Hin.
    { apply list_elem_of_In, List.filter_In. split; [by apply list_elem_of_In|].
      by apply bool_decide_eq_true. }
    rewrite Hnil in Hin. by apply elem_of_nil in Hin.
  - intros Hne. destruct (List.filter _ notes) as [|n rest] eqn:E; [done|].
    assert (In n (List.filter (λ n, bool_decide (Note.id n = noteId entry)) notes)) as Hin.
    { rewrite E. by left. }
    apply List.filter_In in Hin as [Hn Hid]. apply bool_decide_eq_true in Hid.
    exists n. split; [done | by apply list_elem_of_In].
Qed.

(** X29. The hydrated results are those of the cached entries whose note
    still exists, in the order of the cache, each with the score and the
    reason of its entry, without highlight, and with the last of the notes
    under the id of the entry. *)
Theorem hydrate_takes_last_note cached notes :
  Forall2 (λ entry r, lastNote (noteId entry) notes = Some (App.note r)
                      ∧ App.score r = score entry ∧ App.reason r = reason entry
                      ∧ App.highlight r = None)
          (List.filter (known notes) cached) (hydrateSemanticResults cached notes).
Proof.
  unfold hydrateSemanticResults. cbv zeta.
  induction cached as [|entry cached IH]; [constructor|].
  cbn [List.filter omap list_omap]. rewrite lastNote_known, noteMap_lookup.
  destruct (lastNote (noteId entry) notes) as [n|] eqn:E.
  - rewrite bool_decide_eq_true_2 by done. by constructor.
  - rewrite bool_decide_eq_false_2 by (by intros [? ?]). done.
Qed.

End Hydrate.

End SearchFacts.
